(** * Envelope encryption engine of pulsar/crypto

    A shallow embedding of [DefaultMessageCrypto] (default_message_crypto.go):
    the data key, the store of wrapped data keys, the cache of unwrapped
    keys, and the operations [AddPublicKeyCipher], [RemoveKeyCipher],
    [Encrypt] and [Decrypt].

    Conventions of the embedding.
    - A Go [[]byte] whose nil-ness the code inspects is a [slice]: [None] is
      the nil slice, [Some l] a non-nil slice with contents [l].
    - A Go pointer that may be nil where the code reads or writes through
      it is an [option]: [None] is the nil pointer.
    - Go functions returning [(value, error)] whose value is ignored on error
      return a [result]; those whose both components are used return a pair.
    - The engine, the random source, the logger output and the calls made on
      the [KeyReader] are threaded through a state monad [M]; a Go panic ends
      the computation with [Panic].
    - The Go standard library (crypto/rand, crypto/rsa, crypto/aes,
      crypto/cipher, crypto/md5, crypto/x509, encoding/pem) is a parameter
      [CryptoLib]; what the proofs need from it is stated in [CryptoLaws].
    - The two mutexes are not modelled: every operation runs to completion.
    - [Encrypt] stores the addresses [&keyName], [&k] and [&v] of its range
      variables in the entries it creates.  Whether a range loop has one
      variable for all its iterations or a new one for each depends on the
      version of the language the module is built for, which the files at
      hand do not tell: it is the parameter [GoVersion], and every theorem
      holds for both. *)

From stdpp Require Import gmap strings list fin_maps.
From Stdlib.Strings Require Import Byte.

(** ** Byte slices *)

Definition slice := option (list byte).

Definition bytes_of (s : slice) : list byte :=
  match s with
  | Some l => l
  | None => []
  end.

(** [%x] formatting of a byte string: two lower-case hex digits per byte. *)
Definition hex_digit (n : N) : Ascii.ascii :=
  if (n <? 10)%N then Ascii.ascii_of_N (48 + n) else Ascii.ascii_of_N (87 + n).

Fixpoint hex_string (l : list byte) : string :=
  match l with
  | [] => EmptyString
  | b :: l' =>
      String (hex_digit (Byte.to_N b / 16)) (String (hex_digit (Byte.to_N b mod 16)) (hex_string l'))
  end.

(** ** Errors and log entries *)

Inductive error :=
  | errGeneratingNonce
  | errEmptyKeyNameOrKeyReader
  | errParseRSAPubKey
  | errParseRSAPriKey
  | errEncryptedDataKeyNotFound (ctx keyName : string)
  | errDataKeyDecryption
  | errDecodePriKey
  | errDecodePubKey
  | aes_KeySizeError (n : nat)
  | cipher_errBlockSize
  | cipher_errOpen
  | lib_error (msg : string).

Definition errAESCipherCreation : string := "failed to create AES cipher".
Definition errGCMCreation : string := "failed to create gcm".
Definition debugNotInCache (ctx : string) : string :=
  ctx +:+ " Failed to decrypt data or data key is not in cache. Will attempt to refresh".

Inductive result (A : Type) :=
  | Ok (a : A)
  | Err (e : error).
Arguments Ok {A} a.
Arguments Err {A} e.

Inductive log_entry :=
  | LogError (e : error)
  | LogErrorMsg (msg : string)
  | LogDebug (msg : string).

(** ** Key material and the key reader *)

(** Modelled from the spec: [EncryptionKeyInfo] and [NewEncryptionKeyInfo] are
    declared outside the files at hand; the spec's KeyMaterial is the raw key
    bytes together with a string-to-string metadata mapping, immutable once
    constructed.  [NewEncryptionKeyInfo key metadata] is called with the key
    first.  A nil mapping and an empty one are both [∅]: the code only asks
    for its length. *)
Record EncryptionKeyInfo := NewEncryptionKeyInfo {
  GetKey : list byte;
  GetMetadata : gmap string string
}.

(** Modelled from the spec: the [KeyReader] interface is declared outside
    the files at hand; the spec's KeyResolver has the two lookups
    [GetPublicKey(name, hints)] and [GetPrivateKey(name, hints)], each giving
    key material or failing, and is a pure lookup.  That a lookup happened is
    recorded separately, in [reader_calls]. *)
Record KeyReader := {
  GetPublicKey : string → gmap string string → result EncryptionKeyInfo;
  GetPrivateKey : string → gmap string string → result EncryptionKeyInfo
}.

(** [DefaultKeyReader] (DefaultCryptoKeyReader.go): both lookups read one
    fixed file each, whatever the key name; the files are a map from paths
    to contents, and reading a missing file fails. *)
Definition readKey (files : gmap string (list byte)) (path : string)
    (keyMeta : gmap string string) : result EncryptionKeyInfo :=
  match files !! path with
  | None => Err (lib_error "open: no such file or directory")
  | Some key => Ok (NewEncryptionKeyInfo key keyMeta)
  end.

Definition NewDefaultKeyReader (files : gmap string (list byte))
    (publicKeyPath privateKeyPath : string) : KeyReader :=
  {| GetPublicKey := fun keyName keyMeta => readKey files publicKeyPath keyMeta;
     GetPrivateKey := fun keyName keyMeta => readKey files privateKeyPath keyMeta |}.

Inductive reader_call :=
  | CallGetPublicKey (keyName : string)
  | CallGetPrivateKey (keyName : string) (keyMeta : gmap string string).

Definition is_private_call (c : reader_call) : bool :=
  match c with
  | CallGetPrivateKey _ _ => true
  | CallGetPublicKey _ => false
  end.

(** ** Message metadata (pb.MessageMetadata, the envelope) *)

(** Modelled from the spec: the generated protobuf types are outside the
    files at hand; the spec's envelope is an ordered list of entries, each a
    key name, the wrapped key bytes and a list of key-value pairs, plus one
    nonce field.  As the code has it, the message is handled through a
    pointer, [*pb.MessageMetadata], and the key name of an entry is a
    pointer to a string, [*encKey.Key]; either pointer may be nil.  The
    getters read a nil pointer as the empty value; reading or writing a
    field through a nil pointer panics. *)

Record KeyValue := { kv_Key : string; kv_Value : string }.

(** An entry of the envelope; [pb_Key] is its field [Key].  The list of a
    message holds its entries by pointers, which are taken to be non-nil. *)
Record EncryptionKeys := {
  pb_Key : option string;
  Value : list byte;
  Metadata : list KeyValue
}.

(** The getter of the key name of an entry, [key.GetKey()] (the name
    [GetKey] is taken by the key material): the empty string when the field
    is nil. *)
Definition Key (e : EncryptionKeys) : string :=
  match pb_Key e with
  | Some keyName => keyName
  | None => ""
  end.

(** No entry of the list has a nil [Key] field. *)
Definition keyed (l : list EncryptionKeys) : bool :=
  forallb (fun e => match pb_Key e with Some _ => true | None => false end) l.

(** The message that a non-nil pointer points to. *)
Record pb_MessageMetadata := {
  pb_EncryptionKeys : list EncryptionKeys;
  pb_EncryptionParam : slice
}.

(** [*pb.MessageMetadata]: [None] is the nil pointer. *)
Definition MessageMetadata : Type := option pb_MessageMetadata.

(** The getters [msgMetadata.GetEncryptionKeys()] and
    [msgMetadata.GetEncryptionParam()]. *)
Definition GetEncryptionKeys (m : MessageMetadata) : list EncryptionKeys :=
  match m with
  | Some msg => pb_EncryptionKeys msg
  | None => []
  end.

Definition GetEncryptionParam (m : MessageMetadata) : slice :=
  match m with
  | Some msg => pb_EncryptionParam msg
  | None => None
  end.

(** The assignments to the two fields of a message. *)
Definition set_EncryptionKeys (l : list EncryptionKeys) (msg : pb_MessageMetadata)
  : pb_MessageMetadata :=
  {| pb_EncryptionKeys := l; pb_EncryptionParam := pb_EncryptionParam msg |}.

Definition set_EncryptionParam (p : slice) (msg : pb_MessageMetadata) : pb_MessageMetadata :=
  {| pb_EncryptionKeys := pb_EncryptionKeys msg; pb_EncryptionParam := p |}.

(** The message after entries that it points to were overwritten in place;
    a nil message points to none. *)
Definition overwritten (l : list EncryptionKeys) (m : MessageMetadata) : MessageMetadata :=
  match m with
  | Some msg => Some (set_EncryptionKeys l msg)
  | None => None
  end.

(** ** The cryptographic library *)

Class CryptoLib := {
  (** crypto/rand: the state of the random source; [rand_next] draws one
      byte, or fails. *)
  RandState : Type;
  rand_next : RandState → option (byte * RandState);
  (** encoding/pem and crypto/x509.  [x509_ParsePKIXPublicKey] gives [Some k]
      for an RSA key, [None] for a key of another algorithm. *)
  RSAPublicKey : Type;
  RSAPrivateKey : Type;
  rsa_PublicKey_of : RSAPrivateKey → RSAPublicKey;
  pem_Decode : list byte → option (list byte);
  x509_ParsePKIXPublicKey : list byte → result (option RSAPublicKey);
  x509_ParsePKCS1PrivateKey : list byte → result RSAPrivateKey;
  (** crypto/rsa with SHA-1 and no label; encryption draws its seed from the
      random source.  Decryption is handed the random source as well; it
      draws from it for blinding only (and not at all from Go 1.20 on), so
      its result is a function of the key and the ciphertext, on success a
      non-nil slice, possibly empty; [rsa_blinding] is the random source as
      the decryption leaves it. *)
  rsa_EncryptOAEP : RSAPublicKey → list byte → RandState → result (list byte) * RandState;
  rsa_DecryptOAEP : RSAPrivateKey → list byte → result (list byte);
  rsa_blinding : RSAPrivateKey → list byte → RandState → RandState;
  (** crypto/md5 *)
  md5_Sum : list byte → list byte;
  (** AES-GCM over a key and a nonce of the standard size, no additional
      data; [gcm_Open] is [None] when authentication fails. *)
  gcm_Seal : list byte → list byte → list byte → list byte;
  gcm_Open : list byte → list byte → list byte → option (list byte)
}.

(** The language version, as far as the code depends on it: are the
    variables of a range loop created anew for each iteration (Go 1.22 and
    later), or once for the whole loop (before)? *)
Class GoVersion := {
  loopvar_per_iteration : bool
}.

(** [aes.NewCipher]: the key must be 16, 24 or 32 bytes long. *)
Record cipher_Block := { block_key : list byte; BlockSize : nat }.

Definition aes_key_size_ok (n : nat) : bool :=
  (n =? 16) || (n =? 24) || (n =? 32).

Definition aes_NewCipher (key : list byte) : result cipher_Block :=
  if aes_key_size_ok (length key)
  then Ok {| block_key := key; BlockSize := 16 |}
  else Err (aes_KeySizeError (length key)).

(** [cipher.NewGCM]: the block size must be 16; the nonce size is 12. *)
Record cipher_AEAD := { aead_key : list byte; NonceSize : nat }.

Definition gcmStandardNonceSize : nat := 12.

Definition cipher_NewGCM (c : cipher_Block) : result cipher_AEAD :=
  if BlockSize c =? 16
  then Ok {| aead_key := block_key c; NonceSize := gcmStandardNonceSize |}
  else Err cipher_errBlockSize.

Section Engine.
Context `{L : CryptoLib} `{G : GoVersion}.

(** [rand.Read] on a buffer of [n] bytes. *)
Fixpoint rand_Read (n : nat) (r : RandState) : result (list byte) * RandState :=
  match n with
  | 0 => (Ok [], r)
  | S n' =>
      match rand_next r with
      | None => (Err (lib_error "rand"), r)
      | Some (b, r') =>
          match rand_Read n' r' with
          | (Ok l, r'') => (Ok (b :: l), r'')
          | (Err e, r'') => (Err e, r'')
          end
      end
  end.

(** ** The engine and the state monad *)

Record DefaultMessageCrypto := {
  dataKey : slice;
  loadingCache : gmap string (list byte);
  encryptedDataKeyMap : gmap string EncryptionKeyInfo;
  logCtx : string
}.

Record World := {
  engine : DefaultMessageCrypto;
  entropy : RandState;
  logged : list log_entry;
  reader_calls : list reader_call
}.

Inductive Outcome (A : Type) :=
  | Done (a : A) (w : World)
  | Panic (msg : string) (w : World).
Arguments Done {A} a w.
Arguments Panic {A} msg w.

Definition M (A : Type) : Type := World → Outcome A.

Definition ret {A} (a : A) : M A := fun w => Done a w.

Definition bind {A B} (m : M A) (k : A → M B) : M B :=
  fun w => match m w with
           | Done a w' => k a w'
           | Panic msg w' => Panic msg w'
           end.

Definition panic {A} (msg : string) : M A := fun w => Panic msg w.

Definition final_world {A} (o : Outcome A) : World :=
  match o with
  | Done _ w => w
  | Panic _ w => w
  end.

Notation "x <~ c1 ; c2" := (bind c1 (fun x => c2))
  (at level 100, c1 at next level, right associativity, only parsing).
Notation "c1 ;~ c2" := (bind c1 (fun _ => c2))
  (at level 100, right associativity, only parsing).

Definition get_engine : M DefaultMessageCrypto := fun w => Done (engine w) w.

Definition modify_engine (f : DefaultMessageCrypto → DefaultMessageCrypto) : M unit :=
  fun w => Done tt {| engine := f (engine w); entropy := entropy w;
                      logged := logged w; reader_calls := reader_calls w |}.

Definition with_entropy {A} (f : RandState → A * RandState) : M A :=
  fun w => let '(a, r) := f (entropy w) in
           Done a {| engine := engine w; entropy := r;
                     logged := logged w; reader_calls := reader_calls w |}.

Definition log (e : log_entry) : M unit :=
  fun w => Done tt {| engine := engine w; entropy := entropy w;
                      logged := logged w ++ [e]; reader_calls := reader_calls w |}.

Definition record_call (c : reader_call) : M unit :=
  fun w => Done tt {| engine := engine w; entropy := entropy w;
                      logged := logged w; reader_calls := reader_calls w ++ [c] |}.

Definition set_dataKey (k : slice) (d : DefaultMessageCrypto) : DefaultMessageCrypto :=
  {| dataKey := k; loadingCache := loadingCache d;
     encryptedDataKeyMap := encryptedDataKeyMap d; logCtx := logCtx d |}.

Definition set_loadingCache (c : gmap string (list byte)) (d : DefaultMessageCrypto) : DefaultMessageCrypto :=
  {| dataKey := dataKey d; loadingCache := c;
     encryptedDataKeyMap := encryptedDataKeyMap d; logCtx := logCtx d |}.

Definition set_encryptedDataKeyMap (s : gmap string EncryptionKeyInfo) (d : DefaultMessageCrypto) : DefaultMessageCrypto :=
  {| dataKey := dataKey d; loadingCache := loadingCache d;
     encryptedDataKeyMap := s; logCtx := logCtx d |}.

(** ** generateDataKey, NewDefaultMessageCrypto *)

Definition generateDataKey : M (result (list byte)) :=
  with_entropy (rand_Read 32).

Definition NewDefaultMessageCrypto (ctx : string) (keyGenNeeded : bool) (r : RandState)
  : World * option error :=
  let d := {| dataKey := None; loadingCache := ∅; encryptedDataKeyMap := ∅; logCtx := ctx |} in
  let w := {| engine := d; entropy := r; logged := []; reader_calls := [] |} in
  if keyGenNeeded then
    match generateDataKey w with
    | Done (Ok key) w' => (final_world (modify_engine (set_dataKey (Some key)) w'), None)
    | Done (Err e) w' => (w', Some e)
    | Panic _ w' => (w', None)
    end
  else (w, None).

(** ** loadPublicKey, loadPrivateKey *)

Definition loadPublicKey (key : list byte) : result (option RSAPublicKey) :=
  match pem_Decode key with
  | None => Err errDecodePubKey
  | Some pubPem => x509_ParsePKIXPublicKey pubPem
  end.

(** The interface value returned always holds an [*rsa.PrivateKey]. *)
Definition loadPrivateKey (key : list byte) : result (option RSAPrivateKey) :=
  match pem_Decode key with
  | None => Err errDecodePriKey
  | Some priPem =>
      match x509_ParsePKCS1PrivateKey priPem with
      | Err e => Err e
      | Ok genericPrivateKey => Ok (Some genericPrivateKey)
      end
  end.

(** ** AddPublicKeyCipher, addPublicKeyCipher, RemoveKeyCipher *)

Definition addPublicKeyCipher (keyName : string) (keyReader : option KeyReader) : M (option error) :=
  match keyReader with
  | None => ret (Some errEmptyKeyNameOrKeyReader)
  | Some kr =>
      if decide (keyName = "") then ret (Some errEmptyKeyNameOrKeyReader) else
      record_call (CallGetPublicKey keyName) ;~
      match GetPublicKey kr keyName ∅ with
      | Err e => ret (Some e)
      | Ok keyInfo =>
          match loadPublicKey (GetKey keyInfo) with
          | Err e => ret (Some e)
          | Ok None => ret (Some errParseRSAPubKey)
          | Ok (Some rsaPubKey) =>
              d <~ get_engine ;
              r <~ with_entropy (rsa_EncryptOAEP rsaPubKey (bytes_of (dataKey d))) ;
              match r with
              | Err e => ret (Some e)
              | Ok encryptedDataKey =>
                  modify_engine (fun d =>
                    set_encryptedDataKeyMap
                      (<[keyName := NewEncryptionKeyInfo encryptedDataKey (GetMetadata keyInfo)]>
                         (encryptedDataKeyMap d)) d) ;~
                  ret None
              end
          end
      end
  end.

Fixpoint addPublicKeyCiphers (keyNames : list string) (keyReader : option KeyReader) : M (option error) :=
  match keyNames with
  | [] => ret None
  | keyName :: rest =>
      err <~ addPublicKeyCipher keyName keyReader ;
      match err with
      | Some e => ret (Some e)
      | None => addPublicKeyCiphers rest keyReader
      end
  end.

Definition AddPublicKeyCipher (keyNames : list string) (keyReader : option KeyReader) : M (option error) :=
  r <~ generateDataKey ;
  match r with
  | Err e => ret (Some e)
  | Ok key =>
      modify_engine (set_dataKey (Some key)) ;~
      addPublicKeyCiphers keyNames keyReader
  end.

Definition RemoveKeyCipher (keyName : string) : M bool :=
  if decide (keyName = "") then ret false else
  modify_engine (fun d => set_encryptedDataKeyMap (delete keyName (encryptedDataKeyMap d)) d) ;~
  ret true.

(** ** Encrypt *)

(** [encryptionKeysMap] holds, for each key name of the metadata, a pointer
    to its entry; the pointer is the position of the entry in the list, the
    last one when a name occurs twice.  The loop that fills it reads
    [*encKey.Key]; [index_keys] is that loop over entries that all have the
    field, and [Encrypt] below panics before it for a list that is not
    [keyed]. *)
Fixpoint index_keys (i : nat) (l : list EncryptionKeys) (m : gmap string nat) : gmap string nat :=
  match l with
  | [] => m
  | encKey :: l' => index_keys (S i) l' (<[Key encKey := i]> m)
  end.

(** The key-value pairs of a new entry.  All of them hold the addresses of
    the two variables of the inner range loop: with one variable per loop,
    every pair reads as the pair visited last. *)
Definition keyMetadata_of (metadata : gmap string string) : list KeyValue :=
  let pairs := (fun kv => {| kv_Key := kv.1; kv_Value := kv.2 |}) <$> map_to_list metadata in
  if loopvar_per_iteration then pairs
  else match last pairs with
       | Some kv => replicate (length pairs) kv
       | None => []
       end.

(** The new entry, as it reads during the iteration for [keyName]. *)
Definition newEncryptionKey (keyName : string) (keyInfo : EncryptionKeyInfo) : EncryptionKeys :=
  {| pb_Key := Some keyName;
     Value := GetKey keyInfo;
     Metadata :=
       if bool_decide (0 < size (GetMetadata keyInfo))
       then keyMetadata_of (GetMetadata keyInfo)
       else [] |}.

(** An entry whose [Key] field holds [&keyName], read when the variable
    holds [final]: with one variable per loop the entry reads as named
    [final]. *)
Definition point_to (final : string) (e : EncryptionKeys) : EncryptionKeys :=
  if loopvar_per_iteration then e
  else {| pb_Key := Some final; Value := Value e; Metadata := Metadata e |}.

(** The entries of the metadata once the loop is left with its variable
    holding [final]: those at the positions [touched] were overwritten in
    this call and hold [&keyName]. *)
Definition settle (final : string) (touched : list nat) (shared : list EncryptionKeys)
  : list EncryptionKeys :=
  foldr (fun i l => alter (point_to final) i l) shared touched.

(** "if key is not already loaded, load it": a failure is only logged. *)
Definition loadIfAbsent (keyName : string) (keyReader : option KeyReader) : M unit :=
  d <~ get_engine ;
  match encryptedDataKeyMap d !! keyName with
  | Some _ => ret tt
  | None =>
      err <~ addPublicKeyCipher keyName keyReader ;
      match err with
      | Some e => log (LogError e)
      | None => ret tt
      end
  end.

(** The loop over [encKeys].  [shared] are the entries the metadata already
    points to, overwritten in place through [encryptionKeysMap] at the
    positions [touched]; [appended] are the entries added to the local slice
    only.  The loop ends with [inl] of the three lists, or, at the early
    return, with [inr] of the first two, the name at hand and the error. *)
Fixpoint Encrypt_keys (encKeys : list string) (keyReader : option KeyReader)
    (encryptionKeysMap : gmap string nat)
    (shared : list EncryptionKeys) (touched : list nat) (appended : list EncryptionKeys)
  : M (list EncryptionKeys * list nat * list EncryptionKeys +
       list EncryptionKeys * list nat * string * error) :=
  match encKeys with
  | [] => ret (inl (shared, touched, appended))
  | keyName :: rest =>
      loadIfAbsent keyName keyReader ;~
      d <~ get_engine ;
      match encryptedDataKeyMap d !! keyName with
      | Some keyInfo =>
          match encryptionKeysMap !! keyName with
          | Some i =>
              Encrypt_keys rest keyReader encryptionKeysMap
                (<[i := newEncryptionKey keyName keyInfo]> shared) (i :: touched) appended
          | None =>
              Encrypt_keys rest keyReader encryptionKeysMap
                shared touched (appended ++ [newEncryptionKey keyName keyInfo])
          end
      | None =>
          let msg := errEncryptedDataKeyNotFound (logCtx d) keyName in
          log (LogError msg) ;~
          ret (inr (shared, touched, keyName, msg))
      end
  end.

(** The message is returned along with the output and the error: it is
    the pointer that was passed, and what it points to after the call.  A
    string constant that the code both logs and returns as an error is
    logged here as that error.

    The two nil pointers.  The loop that fills [encryptionKeysMap] reads
    [*encKey.Key] for every entry of the metadata: it panics at the first
    entry whose field is nil, when nothing has been changed yet.  The
    assignment [msgMetadata.EncryptionKeys = encryptionKeys] after the loop
    over [encKeys] panics when [msgMetadata] is nil; the getter before the
    loops reads a nil message as one without entries, and the early return
    inside the loop comes before the assignment. *)
Definition Encrypt (encKeys : list string) (keyReader : option KeyReader)
    (msgMetadata : MessageMetadata) (payload : slice)
  : M (MessageMetadata * (slice * option error)) :=
  if decide (length encKeys = 0) then ret (msgMetadata, (payload, None)) else
  let encryptionKeys := GetEncryptionKeys msgMetadata in
  if negb (keyed encryptionKeys)
  then panic "invalid memory address or nil pointer dereference" else
  let encryptionKeysMap := index_keys 0 encryptionKeys ∅ in
  r <~ Encrypt_keys encKeys keyReader encryptionKeysMap encryptionKeys [] [] ;
  match r with
  | inr (shared, touched, keyName, e) =>
      ret (overwritten (settle keyName touched shared) msgMetadata, (None, Some e))
  | inl (shared, touched, appended) =>
      let final := List.last encKeys "" in
      match msgMetadata with
      | None => panic "invalid memory address or nil pointer dereference"
      | Some msg =>
          let msg :=
            set_EncryptionKeys (settle final touched shared ++ (point_to final <$> appended))
              msg in
          d <~ get_engine ;
          match aes_NewCipher (bytes_of (dataKey d)) with
          | Err e => log (LogErrorMsg errAESCipherCreation) ;~ ret (Some msg, (None, Some e))
          | Ok c =>
              match cipher_NewGCM c with
              | Err e => log (LogErrorMsg errGCMCreation) ;~ ret (Some msg, (None, Some e))
              | Ok gcm =>
                  r <~ with_entropy (rand_Read (NonceSize gcm)) ;
                  match r with
                  | Err _ =>
                      log (LogError errGeneratingNonce) ;~
                      ret (Some msg, (None, Some errGeneratingNonce))
                  | Ok nonce =>
                      ret (Some (set_EncryptionParam (Some nonce) msg),
                           (Some (gcm_Seal (aead_key gcm) nonce (bytes_of payload)), None))
                  end
              end
          end
      end
  end.

(** ** Decrypt *)

(** [gcm.Open(nil, nonce, payload, nil)]: panics on a nonce of the wrong
    size; returns [nil, errOpen] when authentication fails; with a nil
    destination, an empty plaintext comes back as the nil slice. *)
Definition gcm_Open_nil (gcm : cipher_AEAD) (nonce payload : list byte) : M (slice * option error) :=
  if decide (length nonce = NonceSize gcm) then
    match gcm_Open (aead_key gcm) nonce payload with
    | None => ret (None, Some cipher_errOpen)
    | Some [] => ret (None, None)
    | Some (b :: l) => ret (Some (b :: l), None)
    end
  else panic "crypto/cipher: incorrect nonce length given to GCM".

Definition decryptData (dataKeySecret : list byte) (msgMetadata : MessageMetadata)
    (payload : slice) : M (slice * option error) :=
  let nonce := GetEncryptionParam msgMetadata in
  match aes_NewCipher dataKeySecret with
  | Err e => log (LogError e) ;~ ret (None, Some e)
  | Ok c =>
      match cipher_NewGCM c with
      | Err e => ret (None, Some e)
      | Ok gcm =>
          r <~ gcm_Open_nil gcm (bytes_of nonce) (bytes_of payload) ;
          match r.2 with
          | Some e => log (LogError e)
          | None => ret tt
          end ;~
          ret r
      end
  end.

Definition keyDigest (msgDataKey : list byte) : string := hex_string (md5_Sum msgDataKey).

Fixpoint getKeyAndDecryptData_keys (keys : list EncryptionKeys) (msgMetadata : MessageMetadata)
    (payload : slice) : M (slice * option error) :=
  match keys with
  | [] => ret (None, None)
  | k :: rest =>
      d <~ get_engine ;
      match loadingCache d !! keyDigest (Value k) with
      | Some storedSecretKey =>
          r <~ decryptData storedSecretKey msgMetadata payload ;
          match r.2 with
          | Some e => log (LogError e)
          | None => ret tt
          end ;~
          match r.1 with
          | Some decryptedData => ret (Some decryptedData, None)
          | None => getKeyAndDecryptData_keys rest msgMetadata payload
          end
      | None =>
          log (LogDebug (debugNotInCache (logCtx d))) ;~
          getKeyAndDecryptData_keys rest msgMetadata payload
      end
  end.

Definition getKeyAndDecryptData (msgMetadata : MessageMetadata) (payload : slice)
  : M (slice * option error) :=
  getKeyAndDecryptData_keys (GetEncryptionKeys msgMetadata) msgMetadata payload.

Definition keyMeta_of (encKeymeta : list KeyValue) : gmap string string :=
  foldl (fun m k => <[kv_Key k := kv_Value k]> m) ∅ encKeymeta.

(** A nil [keyReader] makes the method call panic.  [rsa.DecryptOAEP] is
    handed [rand.Reader]. *)
Definition decryptDataKey (keyName : string) (encDatakey : list byte)
    (encKeymeta : list KeyValue) (keyReader : option KeyReader) : M bool :=
  let keyMeta := keyMeta_of encKeymeta in
  match keyReader with
  | None => panic "invalid memory address or nil pointer dereference"
  | Some kr =>
      record_call (CallGetPrivateKey keyName keyMeta) ;~
      match GetPrivateKey kr keyName keyMeta with
      | Err e => log (LogError e) ;~ ret false
      | Ok keyInfo =>
          match loadPrivateKey (GetKey keyInfo) with
          | Err e => log (LogError e) ;~ ret false
          | Ok None => log (LogError errParseRSAPriKey) ;~ ret false
          | Ok (Some rsaPriKey) =>
              r <~ with_entropy (fun random =>
                     (rsa_DecryptOAEP rsaPriKey encDatakey,
                      rsa_blinding rsaPriKey encDatakey random)) ;
              match r with
              | Err e => log (LogError e) ;~ ret false
              | Ok decryptedDataKey =>
                  modify_engine (fun d =>
                    set_loadingCache
                      (<[keyDigest encDatakey := decryptedDataKey]> (loadingCache d))
                      (set_dataKey (Some decryptedDataKey) d)) ;~
                  ret true
              end
          end
      end
  end.

Fixpoint decryptDataKeys (encKeys : list EncryptionKeys) (keyReader : option KeyReader)
  : M (list EncryptionKeys) :=
  match encKeys with
  | [] => ret []
  | key :: rest =>
      ok <~ decryptDataKey (Key key) (Value key) (Metadata key) keyReader ;
      encryptionKeys <~ decryptDataKeys rest keyReader ;
      ret (if ok then key :: encryptionKeys else encryptionKeys)
  end.

Definition Decrypt (msgMetadata : MessageMetadata) (payload : slice)
    (keyReader : option KeyReader) : M (slice * option error) :=
  d <~ get_engine ;
  fast <~ match dataKey d with
          | Some _ =>
              r <~ getKeyAndDecryptData msgMetadata payload ;
              match r.2 with
              | Some e => log (LogError e)
              | None => ret tt
              end ;~
              ret r.1
          | None => ret None
          end ;
  match fast with
  | Some decryptedData => ret (Some decryptedData, None)
  | None =>
      encryptionKeys <~ decryptDataKeys (GetEncryptionKeys msgMetadata) keyReader ;
      if decide (length encryptionKeys = 0)
      then ret (None, Some errDataKeyDecryption)
      else getKeyAndDecryptData msgMetadata payload
  end.

End Engine.

Arguments Done {L A} a w.
Arguments Panic {L A} msg w.

Notation "x <~ c1 ; c2" := (bind c1 (fun x => c2))
  (at level 100, c1 at next level, right associativity, only parsing).
Notation "c1 ;~ c2" := (bind c1 (fun _ => c2))
  (at level 100, right associativity, only parsing).

(** ** What the proofs assume of the library *)

Class CryptoLaws (L : CryptoLib) := {
  (** Unwrapping with the private key undoes wrapping with its public key. *)
  rsa_oaep_correct : ∀ priv msg r c r',
    rsa_EncryptOAEP (rsa_PublicKey_of priv) msg r = (Ok c, r') →
    rsa_DecryptOAEP priv c = Ok msg;
  (** Opening a sealed box with the key and nonce that sealed it gives the
      plaintext back. *)
  gcm_correct : ∀ key nonce plaintext,
    aes_key_size_ok (length key) = true →
    length nonce = gcmStandardNonceSize →
    gcm_Open key nonce (gcm_Seal key nonce plaintext) = Some plaintext
}.

(** ** Specification vocabulary *)

Section Vocabulary.
Context `{L : CryptoLib} `{G : GoVersion}.

(** The engine's data key, when present, has the AES-256 length. *)
Definition key_inv (w : World) : Prop :=
  ∀ k, dataKey (engine w) = Some k → length k = 32.

(** [info] is a wrapping of [key] for the recipient [keyName] of reader [kr]. *)
Definition wrapped_by (kr : KeyReader) (keyName : string) (key : list byte)
    (info : EncryptionKeyInfo) : Prop :=
  ∃ pubInfo pub r r',
    GetPublicKey kr keyName ∅ = Ok pubInfo ∧
    loadPublicKey (GetKey pubInfo) = Ok (Some pub) ∧
    rsa_EncryptOAEP pub key r = (Ok (GetKey info), r') ∧
    GetMetadata info = GetMetadata pubInfo.

(** The key list [l] has an entry for [keyName] carrying the wrapped bytes
    that [store] holds under that name. *)
Definition has_entry (store : gmap string EncryptionKeyInfo) (keyName : string)
    (l : list EncryptionKeys) : Prop :=
  ∃ e info, e ∈ l ∧ Key e = keyName ∧ store !! keyName = Some info ∧ Value e = GetKey info.

(** The key list [l], as it reads after the call, has an entry carrying the
    wrapped bytes that [store] holds for [keyName]; the entry bears that
    name when each iteration has its own loop variable. *)
Definition has_wrapped_key (store : gmap string EncryptionKeyInfo) (keyName : string)
    (l : list EncryptionKeys) : Prop :=
  ∃ e info, e ∈ l ∧ store !! keyName = Some info ∧ Value e = GetKey info ∧
    (loopvar_per_iteration = true → Key e = keyName).

(** Asked for [keyName] with the hints [keyMeta], the reader answers with
    the private key [priv]. *)
Definition supplies (kr : KeyReader) (priv : RSAPrivateKey) (keyName : string)
    (keyMeta : gmap string string) : Prop :=
  ∃ privInfo, GetPrivateKey kr keyName keyMeta = Ok privInfo ∧
    loadPrivateKey (GetKey privInfo) = Ok (Some priv).

(** What [decryptDataKey] computes for one entry of the envelope: the lookup
    of the private key, its parsing, and the RSA-OAEP unwrap. *)
Definition unwrapKey (kr : KeyReader) (e : EncryptionKeys) : result (list byte) :=
  match GetPrivateKey kr (Key e) (keyMeta_of (Metadata e)) with
  | Err err => Err err
  | Ok keyInfo =>
      match loadPrivateKey (GetKey keyInfo) with
      | Err err => Err err
      | Ok None => Err errParseRSAPriKey
      | Ok (Some rsaPriKey) => rsa_DecryptOAEP rsaPriKey (Value e)
      end
  end.

Definition is_Ok {A} (r : result A) : bool :=
  match r with
  | Ok _ => true
  | Err _ => false
  end.

(** The engine after the slow path has gone through [keys]: every unwrapped
    key is adopted as the data key and cached under the fingerprint of its
    wrapped form. *)
Definition adopt (encDatakey key : list byte) (d : DefaultMessageCrypto) : DefaultMessageCrypto :=
  set_loadingCache (<[keyDigest encDatakey := key]> (loadingCache d)) (set_dataKey (Some key) d).

Fixpoint unwrap_all (kr : KeyReader) (keys : list EncryptionKeys) (d : DefaultMessageCrypto)
  : DefaultMessageCrypto :=
  match keys with
  | [] => d
  | e :: rest =>
      unwrap_all kr rest
        match unwrapKey kr e with
        | Ok k => adopt (Value e) k d
        | Err _ => d
        end
  end.

Definition private_call_of (e : EncryptionKeys) : reader_call :=
  CallGetPrivateKey (Key e) (keyMeta_of (Metadata e)).

(** What [decryptData] returns when it does not panic. *)
Definition try_open (secret nonce payload : list byte) : slice :=
  if aes_key_size_ok (length secret) then
    match gcm_Open secret nonce payload with
    | Some (b :: l) => Some (b :: l)
    | _ => None
    end
  else None.

(** The fast path: the first entry whose fingerprint is cached and whose
    cached key opens the payload to a non-nil plaintext. *)
Fixpoint open_first (cache : gmap string (list byte)) (nonce payload : list byte)
    (keys : list EncryptionKeys) : slice :=
  match keys with
  | [] => None
  | k :: rest =>
      match cache !! keyDigest (Value k) with
      | Some secret =>
          match try_open secret nonce payload with
          | Some data => Some data
          | None => open_first cache nonce payload rest
          end
      | None => open_first cache nonce payload rest
      end
  end.

(** Every pointer of [encryptionKeysMap] reaches an entry of that name. *)
Definition index_ok (m : gmap string nat) (shared : list EncryptionKeys) : Prop :=
  ∀ n i, m !! n = Some i → ∃ e, shared !! i = Some e ∧ Key e = n.

(** The wrapped-key store only gains entries, each a wrapping of [key]. *)
Definition store_grows (keyReader : option KeyReader) (key : list byte)
    (store store' : gmap string EncryptionKeyInfo) : Prop :=
  store ⊆ store' ∧
  ∀ n info, store' !! n = Some info →
    store !! n = Some info ∨ ∃ kr, keyReader = Some kr ∧ wrapped_by kr n key info.

(** [w'] differs from [w] at most in what was logged. *)
Definition logs_only (w w' : World) : Prop :=
  engine w' = engine w ∧ entropy w' = entropy w ∧ reader_calls w' = reader_calls w.

(** The fast path as [Decrypt] enters it: skipped without a data key. *)
Definition fast_path (d : DefaultMessageCrypto) (msgMetadata : MessageMetadata)
    (payload : slice) : slice :=
  match dataKey d with
  | Some _ =>
      open_first (loadingCache d) (bytes_of (GetEncryptionParam msgMetadata))
        (bytes_of payload) (GetEncryptionKeys msgMetadata)
  | None => None
  end.

(** The Go slice holding a plaintext opened into a nil destination. *)
Definition nonnil (l : list byte) : slice :=
  match l with
  | [] => None
  | _ :: _ => Some l
  end.

Definition unwraps (kr : KeyReader) (keys : list EncryptionKeys) : list EncryptionKeys :=
  filter (fun e => is_Ok (unwrapKey kr e) = true) keys.


(** Number of private-key lookups recorded in a world. *)
Definition private_calls (w : World) : nat :=
  length (filter (fun c => is_private_call c = true) (reader_calls w)).

(** One call on the engine, and the world it leaves behind. *)
Inductive call :=
  | CallAddPublicKeyCipher (keyNames : list string) (keyReader : option KeyReader)
  | CallRemoveKeyCipher (keyName : string)
  | CallEncrypt (encKeys : list string) (keyReader : option KeyReader)
      (msgMetadata : MessageMetadata) (payload : slice)
  | CallDecrypt (msgMetadata : MessageMetadata) (payload : slice) (keyReader : option KeyReader).

Definition exec (w : World) (c : call) : World :=
  match c with
  | CallAddPublicKeyCipher keyNames keyReader => final_world (AddPublicKeyCipher keyNames keyReader w)
  | CallRemoveKeyCipher keyName => final_world (RemoveKeyCipher keyName w)
  | CallEncrypt encKeys keyReader msgMetadata payload =>
      final_world (Encrypt encKeys keyReader msgMetadata payload w)
  | CallDecrypt msgMetadata payload keyReader =>
      final_world (Decrypt msgMetadata payload keyReader w)
  end.

(** The envelope of a decrypt call only unwraps to 32-byte keys. *)
Definition unwraps_to_aes256 (c : call) : Prop :=
  match c with
  | CallDecrypt msgMetadata _ (Some kr) =>
      ∀ e k, e ∈ GetEncryptionKeys msgMetadata → unwrapKey kr e = Ok k → length k = 32
  | _ => True
  end.

(** The relation [I] holds between the world before a computation and the
    world it ends in, for every world it is started in. *)
Definition preserves {A} (I : World → World → Prop) (m : M A) : Prop :=
  ∀ w, I w (final_world (m w)).

(** Calls on the key reader for a public key. *)
Definition public_calls (w : World) : list reader_call :=
  filter (fun c => is_private_call c = false) (reader_calls w).

(** What the producer's operations leave in place: the cache of unwrapped
    keys, the log context, and the count of private-key lookups. *)
Definition producer_frame (w w' : World) : Prop :=
  loadingCache (engine w') = loadingCache (engine w) ∧
  logCtx (engine w') = logCtx (engine w) ∧
  private_calls w' = private_calls w.

(** What [Decrypt] leaves in place: the store of wrapped keys, the log
    context, and the public-key lookups. *)
Definition consumer_frame (w w' : World) : Prop :=
  encryptedDataKeyMap (engine w') = encryptedDataKeyMap (engine w) ∧
  logCtx (engine w') = logCtx (engine w) ∧
  public_calls w' = public_calls w.

(** Every fingerprint cached before is cached after. *)
Definition cache_grows (w w' : World) : Prop :=
  ∀ x, is_Some (loadingCache (engine w) !! x) → is_Some (loadingCache (engine w') !! x).

(** A cache that holds a key belongs to an engine that has a data key. *)
Definition keyed_cache (w : World) : Prop :=
  loadingCache (engine w) = ∅ ∨ is_Some (dataKey (engine w)).

(** The property just stated, as a relation between two worlds. *)
Definition keeps_keyed_cache (w w' : World) : Prop :=
  keyed_cache w → keyed_cache w'.

(** [d] is the authenticated opening of the payload under a key of an AES
    length that [cache] holds under the fingerprint of an entry of the
    envelope, with a nonce of the standard length. *)
Definition authentic (cache : gmap string (list byte)) (msgMetadata : MessageMetadata)
    (payload : slice) (d : list byte) : Prop :=
  ∃ e k, e ∈ GetEncryptionKeys msgMetadata ∧
    cache !! keyDigest (Value e) = Some k ∧
    aes_key_size_ok (length k) = true ∧
    length (bytes_of (GetEncryptionParam msgMetadata)) = gcmStandardNonceSize ∧
    gcm_Open k (bytes_of (GetEncryptionParam msgMetadata)) (bytes_of payload) = Some d.

(** No cached key can be tried: the fast path is skipped, or misses at
    every entry. *)
Definition cold (d : DefaultMessageCrypto) (keys : list EncryptionKeys) : Prop :=
  dataKey d = None ∨ ∀ e, e ∈ keys → loadingCache d !! keyDigest (Value e) = None.

(** The messages of the two panics that the engine can end in. *)
Definition nonce_panic : string := "crypto/cipher: incorrect nonce length given to GCM".
Definition nil_panic : string := "invalid memory address or nil pointer dereference".

(** The head of [Decrypt]: the attempt with the cached keys. *)
Definition Decrypt_fast (msgMetadata : MessageMetadata) (payload : slice) (d : DefaultMessageCrypto)
  : M slice :=
  match dataKey d with
  | Some _ =>
      r <~ getKeyAndDecryptData msgMetadata payload ;
      match r.2 with
      | Some e => log (LogError e)
      | None => ret tt
      end ;~
      ret r.1
  | None => ret None
  end.

(** The error of the early return of [Encrypt]'s loop. *)
Definition is_not_found (err : option error) : bool :=
  match err with
  | Some (errEncryptedDataKeyNotFound _ _) => true
  | _ => false
  end.

(** The requested names, with their repetitions, that name no entry of the
    key list [keys]. *)
Definition absent_names (keys : list EncryptionKeys) (encKeys : list string) : list string :=
  filter (fun n => n ∉ Key <$> keys) encKeys.

(** The requested names that have no wrapped key in [store]. *)
Definition unwrapped_names (store : gmap string EncryptionKeyInfo) (encKeys : list string)
  : list string :=
  filter (fun n => store !! n = None) encKeys.

(** The entries the metadata points to when the loop is left, and the
    positions overwritten. *)
Definition loop_shared
    (r : list EncryptionKeys * list nat * list EncryptionKeys +
         list EncryptionKeys * list nat * string * error) : list EncryptionKeys * list nat :=
  match r with
  | inl (s, t, _) => (s, t)
  | inr (s, t, _, _) => (s, t)
  end.

(** The loop of [Encrypt] over the names [encKeys], as [Encrypt] starts it
    on the entries of [msgMetadata]. *)
Definition Encrypt_loop (encKeys : list string) (keyReader : option KeyReader)
    (msgMetadata : MessageMetadata)
  : M (list EncryptionKeys * list nat * list EncryptionKeys +
       list EncryptionKeys * list nat * string * error) :=
  Encrypt_keys encKeys keyReader (index_keys 0 (GetEncryptionKeys msgMetadata) ∅)
    (GetEncryptionKeys msgMetadata) [] [].



(** Every entry of [l] carries the wrapped bytes that [store] holds under
    some name. *)
Definition carried (store : gmap string EncryptionKeyInfo) (l : list EncryptionKeys) : Prop :=
  ∀ e, e ∈ l → ∃ n info, store !! n = Some info ∧ Value e = GetKey info.

(** The key-value pair that [Encrypt] appends for one pair of the metadata
    of a key. *)
Definition pair_of (kv : string * string) : KeyValue :=
  {| kv_Key := kv.1; kv_Value := kv.2 |}.

End Vocabulary.

(** ** A small executable library

    A library in which every operation computes, used to run the engine on
    concrete inputs.  A key pair is named by one byte; wrapping prefixes the
    message with the key byte and one seed byte; sealing prefixes the
    plaintext with the key and the nonce. *)

Module Toy.

#[global] Instance byte_eq_dec : EqDecision byte := Byte.byte_eq_dec.

Definition next (r : list byte) : option (byte * list byte) :=
  match r with
  | [] => None
  | b :: r' => Some (b, r')
  end.

Definition decode (l : list byte) : option (list byte) :=
  match l with
  | "-"%byte :: rest => Some rest
  | _ => None
  end.

Definition parse_public (l : list byte) : result (option byte) :=
  match l with
  | [b] => Ok (Some b)
  | [_; _] => Ok None
  | _ => Err (lib_error "x509: malformed public key")
  end.

Definition parse_private (l : list byte) : result byte :=
  match l with
  | [b] => Ok b
  | _ => Err (lib_error "x509: malformed private key")
  end.

Definition wrap (pub : byte) (msg : list byte) (r : list byte) : result (list byte) * list byte :=
  match r with
  | [] => (Err (lib_error "rand"), r)
  | seed :: r' => (Ok (pub :: seed :: msg), r')
  end.

Definition unwrap (priv : byte) (c : list byte) : result (list byte) :=
  match c with
  | pub :: _ :: msg => if decide (pub = priv) then Ok msg else Err (lib_error "rsa: decryption error")
  | _ => Err (lib_error "rsa: decryption error")
  end.

Definition seal (key nonce plaintext : list byte) : list byte :=
  key ++ nonce ++ plaintext.

Definition open (key nonce box : list byte) : option (list byte) :=
  if decide (take (length key + length nonce) box = key ++ nonce)
  then Some (drop (length key + length nonce) box)
  else None.

#[global] Instance lib : CryptoLib := {|
  RandState := list byte;
  rand_next := next;
  RSAPublicKey := byte;
  RSAPrivateKey := byte;
  rsa_PublicKey_of := id;
  pem_Decode := decode;
  x509_ParsePKIXPublicKey := parse_public;
  x509_ParsePKCS1PrivateKey := parse_private;
  rsa_EncryptOAEP := wrap;
  rsa_DecryptOAEP := unwrap;
  rsa_blinding := fun _ _ r => r;
  md5_Sum := id;
  gcm_Seal := seal;
  gcm_Open := open
|}.

#[global] Instance per_iteration : GoVersion := {| loopvar_per_iteration := true |}.

Definition per_loop : GoVersion := {| loopvar_per_iteration := false |}.

(** A reader that knows the key pairs ["A"] and ["B"] by name. *)
Definition pem (k : byte) : list byte := ["-"%byte; k].

Definition reader : KeyReader := {|
  GetPublicKey := fun keyName keyMeta =>
    if decide (keyName = "A") then Ok (NewEncryptionKeyInfo (pem "a") keyMeta)
    else if decide (keyName = "B") then Ok (NewEncryptionKeyInfo (pem "b") keyMeta)
    else Err (lib_error "open: no such file");
  GetPrivateKey := fun keyName keyMeta =>
    if decide (keyName = "A") then Ok (NewEncryptionKeyInfo (pem "a") keyMeta)
    else if decide (keyName = "B") then Ok (NewEncryptionKeyInfo (pem "b") keyMeta)
    else Err (lib_error "open: no such file")
|}.

(** The random source is a finite tape of bytes; drawing from the empty
    tape fails. *)
Definition tape : list byte :=
  replicate 32 "1"%byte ++ replicate 20 "2"%byte ++ replicate 32 "3"%byte ++
  replicate 60 "4"%byte.

Definition key1 : list byte := replicate 32 "1"%byte.

Definition fresh (keyGenNeeded : bool) : World :=
  (NewDefaultMessageCrypto "ctx" keyGenNeeded tape).1.

Definition emptyMetadata : MessageMetadata :=
  Some {| pb_EncryptionKeys := []; pb_EncryptionParam := None |}.

Definition hi : list byte := ["h"%byte; "i"%byte].
Definition yo : list byte := ["y"%byte; "o"%byte].

Definition metadata_of (o : Outcome (MessageMetadata * (slice * option error))) : MessageMetadata :=
  match o with
  | Done (md, _) _ => md
  | Panic _ _ => emptyMetadata
  end.

Definition output_of (o : Outcome (MessageMetadata * (slice * option error))) : slice :=
  match o with
  | Done (_, (out, _)) _ => out
  | Panic _ _ => None
  end.

Section Scenarios.
Context `{G : GoVersion}.

(** A producer with a generated key seals ["hi"] and then ["yo"] for the
    recipients A and B, and then rotates its data key. *)
Definition sealedAB : Outcome (MessageMetadata * (slice * option error)) :=
  Encrypt ["A"; "B"] (Some reader) emptyMetadata (Some hi) (fresh true).

Definition sealedAB2 : Outcome (MessageMetadata * (slice * option error)) :=
  Encrypt ["A"; "B"] (Some reader) emptyMetadata (Some yo) (final_world sealedAB).

Definition rotated : Outcome (option error) :=
  AddPublicKeyCipher ["B"] (Some reader) (final_world sealedAB).

(** A producer seals ["hi"] and then ["yo"] for the recipient A alone; the
    same producer seals the empty payload twice. *)
Definition sealedA : Outcome (MessageMetadata * (slice * option error)) :=
  Encrypt ["A"] (Some reader) emptyMetadata (Some hi) (fresh true).

Definition sealedA2 : Outcome (MessageMetadata * (slice * option error)) :=
  Encrypt ["A"] (Some reader) emptyMetadata (Some yo) (final_world sealedA).

Definition sealedEmpty : Outcome (MessageMetadata * (slice * option error)) :=
  Encrypt ["A"] (Some reader) emptyMetadata (Some []) (fresh true).

Definition sealedEmpty2 : Outcome (MessageMetadata * (slice * option error)) :=
  Encrypt ["A"] (Some reader) emptyMetadata (Some []) (final_world sealedEmpty).

(** A producer built without a data key tries to seal for A. *)
Definition unkeyed : Outcome (MessageMetadata * (slice * option error)) :=
  Encrypt ["A"] (Some reader) emptyMetadata (Some hi) (fresh false).

End Scenarios.

(** The private-key lookups made by two decrypts in a row on a consumer
    built without a data key. *)
Definition lookups_of_two (m1 m2 : Outcome (MessageMetadata * (slice * option error))) : nat :=
  private_calls
    (final_world
       (Decrypt (metadata_of m2) (output_of m2) (Some reader)
          (final_world (Decrypt (metadata_of m1) (output_of m1) (Some reader) (fresh false))))).

(** A property of the code under both readings of its range loops. *)
Definition both (P : GoVersion → Prop) : Prop := P per_iteration ∧ P per_loop.

(** A ciphertext whose first byte has been overwritten. *)
Definition tamper (ct : slice) : slice :=
  match ct with
  | Some (_ :: l) => Some ("X"%byte :: l)
  | _ => ct
  end.

End Toy.

(** More scenarios over the executable library. *)
Module ToyMore.

(** Files holding the two halves of the key pair ["a"]. *)
Definition files : gmap string (list byte) :=
  {[ "pub.pem" := Toy.pem "a"; "priv.pem" := Toy.pem "a" ]}.

(** A file-backed reader over a file system with no file. *)
Definition lost : KeyReader := NewDefaultKeyReader ∅ "pub.pem" "priv.pem".

Definition error_of (o : Outcome (MessageMetadata * (slice * option error))) : option error :=
  match o with
  | Done (_, (_, err)) _ => err
  | Panic _ _ => None
  end.

(** The envelope of the message sealed for A and B, its nonce removed. *)
Definition nonceless : MessageMetadata :=
  Some {| pb_EncryptionKeys := GetEncryptionKeys (Toy.metadata_of Toy.sealedAB);
          pb_EncryptionParam := None |}.

(** A metadata that already has an entry, for a recipient Z. *)
Definition entryZ : EncryptionKeys :=
  {| pb_Key := Some "Z"; Value := Toy.hi; Metadata := [] |}.

Definition withZ : MessageMetadata :=
  Some {| pb_EncryptionKeys := [entryZ]; pb_EncryptionParam := None |}.

Definition sealedZA : Outcome (MessageMetadata * (slice * option error)) :=
  Encrypt ["A"] (Some Toy.reader) withZ (Some Toy.hi) (Toy.fresh true).

(** After the rotation over B alone, the producer seals for A with the
    wrapped key it has in store; then it removes A and seals for A again. *)
Definition sealedStale : Outcome (MessageMetadata * (slice * option error)) :=
  Encrypt ["A"] None Toy.emptyMetadata (Some Toy.yo) (final_world Toy.rotated).

Definition removedA : Outcome bool := RemoveKeyCipher "A" (final_world Toy.rotated).

Definition resealed : Outcome (MessageMetadata * (slice * option error)) :=
  Encrypt ["A"] (Some Toy.reader) Toy.emptyMetadata (Some Toy.yo) (final_world removedA).

(** A producer with the file-backed reader seals for two names. *)
Definition sealedFiles : Outcome (MessageMetadata * (slice * option error)) :=
  Encrypt ["A"; "B"] (Some (NewDefaultKeyReader files "pub.pem" "")) Toy.emptyMetadata
    (Some Toy.hi) (Toy.fresh true).

(** A message with an entry whose key name is nil. *)
Definition entryNil : EncryptionKeys :=
  {| pb_Key := None; Value := Toy.hi; Metadata := [] |}.

Definition withNil : MessageMetadata :=
  Some {| pb_EncryptionKeys := [entryNil]; pb_EncryptionParam := None |}.


Definition entryA : EncryptionKeys :=
  {| pb_Key := Some "A"; Value := "a"%byte :: "2"%byte :: Toy.key1; Metadata := [] |}.

Definition entryB : EncryptionKeys :=
  {| pb_Key := Some "B"; Value := "b"%byte :: "2"%byte :: Toy.key1; Metadata := [] |}.

End ToyMore.

(** ** Proofs *)

Ltac munfold :=
  unfold bind, ret, panic, get_engine, modify_engine, with_entropy, log, record_call in *.

Section Proofs.
Context `{L : CryptoLib} `{G : GoVersion}.

Lemma rand_Read_length n : ∀ r l r', rand_Read n r = (Ok l, r') → length l = n.
Proof.
  induction n as [|n IH]; intros r l r' H; simpl in H.
  - by inversion H.
  - destruct (rand_next r) as [[b r1]|]; [|done].
    destruct (rand_Read n r1) as [[l1|e] r2] eqn:E; [|done].
    inversion H; subst. simpl. f_equal. by eapply IH.
Qed.

Lemma generateDataKey_spec w :
  ∃ r w', generateDataKey w = Done r w' ∧
    engine w' = engine w ∧ logged w' = logged w ∧ reader_calls w' = reader_calls w ∧
    (∀ key, r = Ok key → length key = 32).
Proof.
  unfold generateDataKey, with_entropy.
  destruct (rand_Read 32 (entropy w)) as [r e] eqn:E.
  eexists _, _; split; [done|]. simpl. repeat split; try done.
  intros key ->. by eapply rand_Read_length.
Qed.

(** The frame of one wrap: only the wrapped-key store and the record of calls
    change, and the store changes only on success, at [keyName]. *)
Lemma addPublicKeyCipher_spec keyName keyReader w :
  ∃ err w', addPublicKeyCipher keyName keyReader w = Done err w' ∧
    dataKey (engine w') = dataKey (engine w) ∧
    loadingCache (engine w') = loadingCache (engine w) ∧
    logCtx (engine w') = logCtx (engine w) ∧
    logged w' = logged w ∧
    match err with
    | Some _ => encryptedDataKeyMap (engine w') = encryptedDataKeyMap (engine w)
    | None =>
        ∃ kr info, keyReader = Some kr ∧
          wrapped_by kr keyName (bytes_of (dataKey (engine w))) info ∧
          encryptedDataKeyMap (engine w') = <[keyName := info]> (encryptedDataKeyMap (engine w))
    end.
Proof.
  unfold addPublicKeyCipher.
  destruct keyReader as [kr|]; [|by eexists _, _].
  case_decide; [by eexists _, _|].
  munfold. simpl.
  destruct (GetPublicKey kr keyName ∅) as [keyInfo|e] eqn:Hpub; [|by eexists _, _].
  destruct (loadPublicKey (GetKey keyInfo)) as [[pub|]|e] eqn:Hload; [|by eexists _, _..].
  simpl.
  destruct (rsa_EncryptOAEP pub (bytes_of (dataKey (engine w))) (entropy w)) as [[c|e] r'] eqn:Henc;
    [|by eexists _, _].
  eexists _, _; split; [done|]. simpl. repeat split; try done.
  eexists kr, _. split; [done|]. split; [|done].
  exists keyInfo, pub, (entropy w), r'. by rewrite Henc.
Qed.

(** The file-backed reader answers with the private key in its file,
    whatever name it is asked for. *)
Lemma DefaultKeyReader_supplies files publicKeyPath privateKeyPath key priv keyName keyMeta :
  files !! privateKeyPath = Some key →
  loadPrivateKey key = Ok (Some priv) →
  supplies (NewDefaultKeyReader files publicKeyPath privateKeyPath) priv keyName keyMeta.
Proof.
  intros Hfile Hload. exists (NewEncryptionKeyInfo key keyMeta).
  split; [|done]. simpl. unfold readKey. by rewrite Hfile.
Qed.

(** *** AddPublicKeyCipher *)

Lemma addPublicKeyCipher_failure keyName keyReader w e w' :
  addPublicKeyCipher keyName keyReader w = Done (Some e) w' →
  engine w' = engine w ∧ logged w' = logged w.
Proof.
  unfold addPublicKeyCipher.
  destruct keyReader as [kr|]; [|by inversion 1].
  case_decide; [by inversion 1|].
  munfold. simpl.
  destruct (GetPublicKey kr keyName ∅) as [keyInfo|e0]; [|by inversion 1].
  destruct (loadPublicKey (GetKey keyInfo)) as [[pub|]|e0]; [|by inversion 1..].
  simpl.
  destruct (rsa_EncryptOAEP pub (bytes_of (dataKey (engine w))) (entropy w)) as [[c|e0] r'];
    by inversion 1.
Qed.

Lemma addPublicKeyCiphers_keeps keyReader n : ∀ keyNames w err w',
  addPublicKeyCiphers keyNames keyReader w = Done err w' →
  n ∉ keyNames →
  encryptedDataKeyMap (engine w') !! n = encryptedDataKeyMap (engine w) !! n.
Proof.
  induction keyNames as [|keyName rest IH]; intros w err w' Hrun Hn.
  { by inversion Hrun. }
  cbn [addPublicKeyCiphers] in Hrun. unfold bind at 1 in Hrun.
  destruct (addPublicKeyCipher_spec keyName keyReader w)
    as (err1 & w1 & Hadd & _ & _ & _ & _ & Hstore).
  rewrite Hadd in Hrun. apply not_elem_of_cons in Hn as [Hne Hn].
  destruct err1 as [e|].
  { inversion Hrun; subst. by rewrite Hstore. }
  rewrite (IH w1 err w' Hrun Hn).
  destruct Hstore as (kr & info & _ & _ & ->). by rewrite lookup_insert_ne.
Qed.

(** The loop of [AddPublicKeyCipher]: it keeps the data key, stops at the
    first name whose wrap fails, and on success has stored a wrapping of the
    data key for every name. *)
Lemma addPublicKeyCiphers_spec keyReader : ∀ keyNames w,
  ∃ err w', addPublicKeyCiphers keyNames keyReader w = Done err w' ∧
    dataKey (engine w') = dataKey (engine w) ∧
    loadingCache (engine w') = loadingCache (engine w) ∧
    logCtx (engine w') = logCtx (engine w) ∧
    logged w' = logged w ∧
    (err = None → ∀ n, n ∈ keyNames →
       ∃ kr info, keyReader = Some kr ∧
         encryptedDataKeyMap (engine w') !! n = Some info ∧
         wrapped_by kr n (bytes_of (dataKey (engine w))) info).
Proof.
  induction keyNames as [|keyName rest IH]; intros w.
  { eexists _, _; split; [done|]. split_and!; try done.
    intros _ n Hn. by apply not_elem_of_nil in Hn. }
  destruct (addPublicKeyCipher_spec keyName keyReader w)
    as (err & w1 & Hadd & Hdk & Hc & Hctx & Hlog & Hstore).
  cbn [addPublicKeyCiphers]. unfold bind at 1. rewrite Hadd.
  destruct err as [e|].
  { eexists _, _; split; [done|]. split_and!; done. }
  destruct (IH w1) as (err & w' & Hrun & Hdk' & Hc' & Hctx' & Hlog' & Hall).
  exists err, w'. split; [done|]. split_and!; [congruence..|].
  intros -> n Hn. destruct (decide (n ∈ rest)) as [Hin|Hnotin].
  { rewrite <-Hdk. by apply Hall. }
  apply elem_of_cons in Hn as [->|Hn]; [|done].
  destruct Hstore as (kr & info & -> & Hw & Hstore).
  exists kr, info. split_and!; [done| |done].
  rewrite (addPublicKeyCiphers_keeps (Some kr) keyName rest w1 None w' Hrun Hnotin).
  rewrite Hstore. apply lookup_insert_eq.
Qed.

Lemma addPublicKeyCiphers_app keyReader post : ∀ pre w,
  addPublicKeyCiphers (pre ++ post) keyReader w =
  match addPublicKeyCiphers pre keyReader w with
  | Done None w1 => addPublicKeyCiphers post keyReader w1
  | o => o
  end.
Proof.
  induction pre as [|keyName pre IH]; intros w; [done|].
  cbn [app addPublicKeyCiphers]. unfold bind.
  destruct (addPublicKeyCipher keyName keyReader w) as [[e|] w1|msg w1]; [done| |done].
  apply IH.
Qed.

(** *** The merge of wrapped keys into the metadata *)

Lemma index_keys_ok_from l : ∀ pre m,
  index_ok m pre → index_ok (index_keys (length pre) l m) (pre ++ l).
Proof.
  induction l as [|e l IH]; intros pre m Hm; simpl.
  - by rewrite app_nil_r.
  - replace (pre ++ e :: l) with ((pre ++ [e]) ++ l) by by rewrite <-app_assoc.
    replace (S (length pre)) with (length (pre ++ [e])) by (rewrite length_app; simpl; lia).
    apply IH. intros n i Hn.
    destruct (decide (Key e = n)) as [<-|Hne].
    + rewrite lookup_insert_eq in Hn. inversion Hn; subst.
      exists e. split; [|done].
      rewrite lookup_app_r; [|lia]. by rewrite Nat.sub_diag.
    + rewrite lookup_insert_ne in Hn; [|done].
      destruct (Hm n i Hn) as (e' & He' & Hk). exists e'. split; [|done].
      by apply lookup_app_l_Some.
Qed.

Lemma index_keys_ok l : index_ok (index_keys 0 l ∅) l.
Proof.
  apply (index_keys_ok_from l [] ∅). intros n i Hn. by rewrite lookup_empty in Hn.
Qed.

Lemma index_ok_insert m shared n i info :
  index_ok m shared → m !! n = Some i →
  index_ok m (<[i := newEncryptionKey n info]> shared).
Proof.
  intros Hm Hn n' j Hn'.
  destruct (Hm n' j Hn') as (e' & He' & Hk').
  destruct (decide (i = j)) as [->|Hij].
  - destruct (Hm n j Hn) as (e & He & Hk).
    exists (newEncryptionKey n info). split.
    + apply list_lookup_insert_eq. by eapply lookup_lt_Some.
    + change (n = n'). congruence.
  - exists e'. split; [|done]. by rewrite list_lookup_insert_ne.
Qed.

Lemma has_entry_insert_same store m shared appended n i info :
  index_ok m shared → m !! n = Some i → store !! n = Some info →
  has_entry store n (<[i := newEncryptionKey n info]> shared ++ appended).
Proof.
  intros Hm Hn Hs. destruct (Hm n i Hn) as (e & He & Hk).
  exists (newEncryptionKey n info), info. split; [|done].
  apply elem_of_app. left. apply list_elem_of_lookup. exists i.
  apply list_lookup_insert_eq. by eapply lookup_lt_Some.
Qed.

Lemma has_entry_insert_other store m shared appended n n' i info :
  index_ok m shared → m !! n = Some i → store !! n = Some info →
  has_entry store n' (shared ++ appended) →
  has_entry store n' (<[i := newEncryptionKey n info]> shared ++ appended).
Proof.
  intros Hm Hn Hs (e & info' & Hin & Hk & Hs' & Hv).
  destruct (decide (n' = n)) as [->|Hne].
  { by eapply has_entry_insert_same. }
  exists e, info'. split; [|done].
  apply elem_of_app in Hin as [Hin|Hin]; apply elem_of_app; [left|by right].
  apply list_elem_of_lookup in Hin as [j Hj]. apply list_elem_of_lookup. exists j.
  rewrite list_lookup_insert_ne; [done|].
  intros ->. destruct (Hm n j Hn) as (e0 & He0 & Hk0). congruence.
Qed.

Lemma has_entry_append store shared appended n x :
  has_entry store n (shared ++ appended) →
  has_entry store n (shared ++ appended ++ [x]).
Proof.
  intros (e & info & Hin & Hrest). exists e, info. split; [|done].
  rewrite app_assoc. apply elem_of_app. by left.
Qed.

Lemma has_entry_appended store shared appended n info :
  store !! n = Some info →
  has_entry store n (shared ++ appended ++ [newEncryptionKey n info]).
Proof.
  intros Hs. exists (newEncryptionKey n info), info. split; [|done].
  rewrite app_assoc. apply elem_of_app. right. by apply list_elem_of_singleton.
Qed.

Lemma has_entry_mono store store' n l :
  store ⊆ store' → has_entry store n l → has_entry store' n l.
Proof.
  intros Hsub (e & info & Hin & Hk & Hs & Hv). exists e, info.
  repeat split; try done. by eapply lookup_weaken.
Qed.

Lemma store_grows_refl keyReader key store : store_grows keyReader key store store.
Proof. split; [done|]. intros n info Hn. by left. Qed.

Lemma store_grows_trans keyReader key s1 s2 s3 :
  store_grows keyReader key s1 s2 → store_grows keyReader key s2 s3 →
  store_grows keyReader key s1 s3.
Proof.
  intros [Hsub1 Hnew1] [Hsub2 Hnew2]. split; [by etrans|].
  intros n info Hn. destruct (Hnew2 n info Hn) as [Hold|Hw]; [|by right].
  by apply Hnew1.
Qed.

Lemma store_grows_insert kr key store n info :
  store !! n = None → wrapped_by kr n key info →
  store_grows (Some kr) key store (<[n := info]> store).
Proof.
  intros Hnone Hw. split; [by apply insert_subseteq|].
  intros n' info' Hn'. destruct (decide (n = n')) as [->|Hne].
  - rewrite lookup_insert_eq in Hn'. inversion Hn'; subst. right. by exists kr.
  - rewrite lookup_insert_ne in Hn'; [|done]. by left.
Qed.

Lemma loadIfAbsent_spec keyName keyReader w :
  ∃ w1, loadIfAbsent keyName keyReader w = Done tt w1 ∧
    dataKey (engine w1) = dataKey (engine w) ∧
    loadingCache (engine w1) = loadingCache (engine w) ∧
    logCtx (engine w1) = logCtx (engine w) ∧
    store_grows keyReader (bytes_of (dataKey (engine w)))
      (encryptedDataKeyMap (engine w)) (encryptedDataKeyMap (engine w1)) ∧
    (encryptedDataKeyMap (engine w1) !! keyName = None →
     ∃ e w0, addPublicKeyCipher keyName keyReader w = Done (Some e) w0).
Proof.
  unfold loadIfAbsent. unfold bind at 1. unfold get_engine at 1.
  destruct (encryptedDataKeyMap (engine w) !! keyName) as [info0|] eqn:Hs0.
  - exists w. split; [done|]. split_and!; try done; [apply store_grows_refl|].
    by rewrite Hs0.
  - destruct (addPublicKeyCipher_spec keyName keyReader w)
      as (err & w0 & Hadd & Hdk & Hc & Hctx & Hlog & Hstore).
    unfold bind. rewrite Hadd. destruct err as [e|].
    + eexists. split; [reflexivity|].
      simpl. split_and!; try done; [rewrite Hstore; apply store_grows_refl|].
      intros _. by eexists _, _.
    + destruct Hstore as (kr & info & -> & Hw & Hstore).
      exists w0. split; [done|].
      split_and!; try done; [rewrite Hstore; by apply store_grows_insert|].
      by rewrite Hstore, lookup_insert_eq.
Qed.

(** The loop of [Encrypt] over the requested names: it never panics, leaves
    the data key and the cache alone, only adds wrapped keys to the store,
    and ends either with an entry for every requested name or with the
    key-not-found error for a name still absent from the store. *)
Lemma Encrypt_keys_spec keyReader m : ∀ encKeys shared touched appended w,
  index_ok m shared →
  ∃ res w', Encrypt_keys encKeys keyReader m shared touched appended w = Done res w' ∧
    dataKey (engine w') = dataKey (engine w) ∧
    loadingCache (engine w') = loadingCache (engine w) ∧
    logCtx (engine w') = logCtx (engine w) ∧
    store_grows keyReader (bytes_of (dataKey (engine w)))
      (encryptedDataKeyMap (engine w)) (encryptedDataKeyMap (engine w')) ∧
    match res with
    | inl (s', t', a') =>
        index_ok m s' ∧
        (∀ n, has_entry (encryptedDataKeyMap (engine w)) n (shared ++ appended) →
              has_entry (encryptedDataKeyMap (engine w')) n (s' ++ a')) ∧
        (∀ n, n ∈ encKeys → has_entry (encryptedDataKeyMap (engine w')) n (s' ++ a'))
    | inr (s', t', n, e) =>
        n ∈ encKeys ∧ e = errEncryptedDataKeyNotFound (logCtx (engine w)) n ∧
        encryptedDataKeyMap (engine w') !! n = None ∧
        ∃ wn e0 wn', dataKey (engine wn) = dataKey (engine w) ∧
          addPublicKeyCipher n keyReader wn = Done (Some e0) wn'
    end.
Proof.
  induction encKeys as [|keyName rest IH]; intros shared touched appended w Hm.
  { simpl. eexists _, _; split; [done|]. split_and!; try done.
    - apply store_grows_refl.
    - intros n Hn. by apply not_elem_of_nil in Hn. }
  destruct (loadIfAbsent_spec keyName keyReader w)
    as (w1 & Hstep & Hdk1 & Hc1 & Hctx1 & Hg1 & Hfail1).
  cbn [Encrypt_keys]. unfold bind at 1. rewrite Hstep.
  unfold bind at 1. unfold get_engine at 1.
  destruct (encryptedDataKeyMap (engine w1) !! keyName) as [keyInfo|] eqn:Hs1.
  - pose proof Hg1 as [Hsub1 Hnew1].
    destruct (m !! keyName) as [i|] eqn:Hmi.
    + destruct (IH (<[i := newEncryptionKey keyName keyInfo]> shared) (i :: touched) appended w1)
        as (res & w' & Hrun & Hdk & Hc & Hctx & Hg & Hres).
      { by apply index_ok_insert. }
      exists res, w'. split; [done|].
      rewrite Hdk1 in Hg. split_and!; [congruence..| |].
      { by eapply store_grows_trans. }
      destruct res as [[[s' t'] a']|[[[s' t'] n] e]].
      * destruct Hres as (Hm' & Hkeep & Hall). split_and!; [done|..].
        -- intros n Hn. apply Hkeep. eapply has_entry_insert_other; [done..|].
           by eapply has_entry_mono.
        -- intros n Hn. apply elem_of_cons in Hn as [->|Hn]; [|by apply Hall].
           apply Hkeep. by eapply has_entry_insert_same.
      * destruct Hres as (Hn & -> & Hnone & wn & e0 & wn' & Hdkn & Hfail).
        split_and!; [by apply elem_of_cons; right|by rewrite Hctx1|done|].
        exists wn, e0, wn'. split; [congruence|done].
    + destruct (IH shared touched (appended ++ [newEncryptionKey keyName keyInfo]) w1 Hm)
        as (res & w' & Hrun & Hdk & Hc & Hctx & Hg & Hres).
      exists res, w'. split; [done|].
      rewrite Hdk1 in Hg. split_and!; [congruence..| |].
      { by eapply store_grows_trans. }
      destruct res as [[[s' t'] a']|[[[s' t'] n] e]].
      * destruct Hres as (Hm' & Hkeep & Hall). split_and!; [done|..].
        -- intros n Hn. apply Hkeep. apply has_entry_append. by eapply has_entry_mono.
        -- intros n Hn. apply elem_of_cons in Hn as [->|Hn]; [|by apply Hall].
           apply Hkeep. by apply has_entry_appended.
      * destruct Hres as (Hn & -> & Hnone & wn & e0 & wn' & Hdkn & Hfail).
        split_and!; [by apply elem_of_cons; right|by rewrite Hctx1|done|].
        exists wn, e0, wn'. split; [congruence|done].
  - destruct (Hfail1 eq_refl) as (e0 & w0 & Hfail).
    munfold. simpl. eexists _, _; split; [done|]. simpl.
    split_and!; try done; [by apply elem_of_cons; left|by rewrite Hctx1|].
    by exists w, e0, w0.
Qed.

(** *** Reading the entries after the loop *)

Lemma point_to_Value final e : Value (point_to final e) = Value e.
Proof. unfold point_to. by destruct loopvar_per_iteration. Qed.

Lemma point_to_same final e : loopvar_per_iteration = true → point_to final e = e.
Proof. unfold point_to. by intros ->. Qed.

Lemma settle_lookup final i : ∀ touched shared e,
  shared !! i = Some e →
  ∃ e', settle final touched shared !! i = Some e' ∧ Value e' = Value e ∧
        (loopvar_per_iteration = true → e' = e).
Proof.
  induction touched as [|j touched IH]; intros shared e He; [by exists e|].
  destruct (IH shared e He) as (e1 & He1 & Hv1 & Hs1).
  cbn [settle foldr]. fold (settle final touched shared).
  destruct (decide (j = i)) as [->|Hne].
  - exists (point_to final e1). split_and!.
    + by rewrite list_lookup_alter, decide_True, He1.
    + by rewrite point_to_Value.
    + intros Hg. rewrite point_to_same; [|done]. by apply Hs1.
  - exists e1. split_and!; [|done..].
    by rewrite list_lookup_alter, decide_False.
Qed.

Lemma has_entry_settled store n final touched shared appended :
  has_entry store n (shared ++ appended) →
  has_wrapped_key store n (settle final touched shared ++ (point_to final <$> appended)).
Proof.
  intros (e & info & Hin & Hk & Hs & Hv).
  apply elem_of_app in Hin as [Hin|Hin].
  - apply list_elem_of_lookup in Hin as [i Hi].
    destruct (settle_lookup final i touched shared e Hi) as (e' & He' & Hv' & Hsame).
    exists e', info. split_and!; [|done|congruence|].
    + apply elem_of_app. left. apply list_elem_of_lookup. by exists i.
    + intros Hg. by rewrite (Hsame Hg).
  - exists (point_to final e), info. split_and!; [|done|by rewrite point_to_Value|].
    + apply elem_of_app. right. by apply list_elem_of_fmap_2.
    + intros Hg. by rewrite point_to_same.
Qed.

(** The three ways an [Encrypt] over a non-empty list of names returns. *)
Inductive Encrypt_result (encKeys : list string) (keyReader : option KeyReader)
    (msgMetadata : MessageMetadata) (payload : slice) (w : World)
  : MessageMetadata → slice * option error → World → Prop :=
  | Encrypt_not_found md' w' n wn e0 wn' :
      n ∈ encKeys →
      encryptedDataKeyMap (engine w') !! n = None →
      dataKey (engine wn) = dataKey (engine w) →
      addPublicKeyCipher n keyReader wn = Done (Some e0) wn' →
      GetEncryptionParam md' = GetEncryptionParam msgMetadata →
      Encrypt_result encKeys keyReader msgMetadata payload w md'
        (None, Some (errEncryptedDataKeyNotFound (logCtx (engine w)) n)) w'
  | Encrypt_no_cipher md' w' e :
      (aes_NewCipher (bytes_of (dataKey (engine w))) = Err e ∨
       (aes_key_size_ok (length (bytes_of (dataKey (engine w)))) = true ∧ e = errGeneratingNonce)) →
      GetEncryptionParam md' = GetEncryptionParam msgMetadata →
      (∀ n, n ∈ encKeys → has_wrapped_key (encryptedDataKeyMap (engine w')) n (GetEncryptionKeys md')) →
      Encrypt_result encKeys keyReader msgMetadata payload w md' (None, Some e) w'
  | Encrypt_sealed md' w' nonce :
      aes_key_size_ok (length (bytes_of (dataKey (engine w)))) = true →
      length nonce = gcmStandardNonceSize →
      GetEncryptionParam md' = Some nonce →
      (∀ n, n ∈ encKeys → has_wrapped_key (encryptedDataKeyMap (engine w')) n (GetEncryptionKeys md')) →
      Encrypt_result encKeys keyReader msgMetadata payload w md'
        (Some (gcm_Seal (bytes_of (dataKey (engine w))) nonce (bytes_of payload)), None) w'.

Lemma GetEncryptionParam_overwritten l msgMetadata :
  GetEncryptionParam (overwritten l msgMetadata) = GetEncryptionParam msgMetadata.
Proof. by destruct msgMetadata. Qed.

Lemma GetEncryptionKeys_overwritten l msgMetadata :
  GetEncryptionKeys (overwritten l msgMetadata) =
  match msgMetadata with
  | Some _ => l
  | None => []
  end.
Proof. by destruct msgMetadata. Qed.

(** What an [Encrypt] over a non-empty list of names leaves of the engine,
    whether it returns or panics, and how it ends: it returns in one of the
    three ways above, and then no entry of the metadata had a nil key name;
    or it panics on a nil pointer, the key name of an entry or the message
    itself. *)
Lemma Encrypt_outcome encKeys keyReader msgMetadata payload w o :
  encKeys ≠ [] →
  Encrypt encKeys keyReader msgMetadata payload w = o →
  dataKey (engine (final_world o)) = dataKey (engine w) ∧
  loadingCache (engine (final_world o)) = loadingCache (engine w) ∧
  store_grows keyReader (bytes_of (dataKey (engine w)))
    (encryptedDataKeyMap (engine w)) (encryptedDataKeyMap (engine (final_world o))) ∧
  match o with
  | Done (md', res) w' =>
      keyed (GetEncryptionKeys msgMetadata) = true ∧
      Encrypt_result encKeys keyReader msgMetadata payload w md' res w'
  | Panic msg w' =>
      msg = nil_panic ∧
      (keyed (GetEncryptionKeys msgMetadata) = false ∨ msgMetadata = None)
  end.
Proof.
  intros Hne. unfold Encrypt.
  case_decide as Hlen; [by destruct encKeys|].
  destruct (keyed (GetEncryptionKeys msgMetadata)) eqn:Hkeyed; cbn [negb].
  2:{ unfold panic. intros <-. cbn [final_world].
      split_and!; [done|done|apply store_grows_refl|done|by left]. }
  destruct (Encrypt_keys_spec keyReader (index_keys 0 (GetEncryptionKeys msgMetadata) ∅)
              encKeys (GetEncryptionKeys msgMetadata) [] [] w (index_keys_ok _))
    as (res & w1 & Hrun & Hdk & Hc & Hctx & Hg & Hres).
  unfold bind at 1. rewrite Hrun.
  destruct res as [[[s' t'] a']|[[[s' t'] n] e]].
  - destruct Hres as (_ & _ & Hall).
    destruct msgMetadata as [msg|].
    2:{ unfold panic. intros <-. cbn [final_world].
        split_and!; [done|done|done|done|by right]. }
    assert (∀ n, n ∈ encKeys →
              has_wrapped_key (encryptedDataKeyMap (engine w1)) n
                (settle (List.last encKeys "") t' s' ++ (point_to (List.last encKeys "") <$> a')))
      as Hall'.
    { intros n Hn. apply has_entry_settled. by apply Hall. }
    clear Hall. rename Hall' into Hall.
    unfold bind at 1. unfold get_engine at 1. rewrite Hdk.
    unfold aes_NewCipher.
    destruct (aes_key_size_ok (length (bytes_of (dataKey (engine w))))) eqn:Hsize.
    + cbn [cipher_NewGCM BlockSize Nat.eqb NonceSize aead_key block_key].
      unfold bind at 1, with_entropy.
      destruct (rand_Read gcmStandardNonceSize (entropy w1)) as [[nonce|e] r'] eqn:Hrand.
      * unfold ret. intros <-. cbn [final_world engine].
        split_and!; try done.
        apply Encrypt_sealed; try done. by eapply rand_Read_length.
      * munfold. intros <-. cbn [final_world engine].
        split_and!; try done.
        apply Encrypt_no_cipher; try done. by right.
    + munfold. intros <-. cbn [final_world engine].
      split_and!; try done.
      apply Encrypt_no_cipher; try done. left.
      unfold aes_NewCipher. by rewrite Hsize.
  - destruct Hres as (Hn & -> & Hnone & wn & e0 & wn' & Hdkn & Hfail).
    munfold. intros <-. cbn [final_world].
    split_and!; try done. eapply Encrypt_not_found; try done.
    apply GetEncryptionParam_overwritten.
Qed.

(** An [Encrypt] that returns. *)
Lemma Encrypt_spec encKeys keyReader msgMetadata payload w md' res w' :
  encKeys ≠ [] →
  Encrypt encKeys keyReader msgMetadata payload w = Done (md', res) w' →
  dataKey (engine w') = dataKey (engine w) ∧
  loadingCache (engine w') = loadingCache (engine w) ∧
  store_grows keyReader (bytes_of (dataKey (engine w)))
    (encryptedDataKeyMap (engine w)) (encryptedDataKeyMap (engine w')) ∧
  Encrypt_result encKeys keyReader msgMetadata payload w md' res w'.
Proof.
  intros Hne Hrun.
  destruct (Encrypt_outcome _ _ _ _ _ _ Hne Hrun) as (Hdk & Hc & Hg & _ & Hres).
  done.
Qed.

(** [Encrypt] returns when it is given a message, none of whose entries has
    a nil key name. *)
Lemma Encrypt_returns encKeys keyReader msgMetadata payload w :
  keyed (GetEncryptionKeys msgMetadata) = true →
  msgMetadata ≠ None →
  ∃ md' res w', Encrypt encKeys keyReader msgMetadata payload w = Done (md', res) w'.
Proof.
  intros Hkeyed Hmsg.
  destruct (decide (encKeys = [])) as [->|Hne]; [by eexists _, _, _|].
  destruct (Encrypt encKeys keyReader msgMetadata payload w) as [[md' res] w'|msg w'] eqn:Hrun;
    [by eexists _, _, _|].
  destruct (Encrypt_outcome _ _ _ _ _ _ Hne Hrun) as (_ & _ & _ & _ & [Hk|Hm]); congruence.
Qed.

(** *** Computations that leave the engine alone, panics included *)

Definition keeps_engine {A} (m : M A) : Prop :=
  ∀ w, engine (final_world (m w)) = engine w.

Lemma keeps_engine_ret {A} (a : A) : keeps_engine (ret a).
Proof. done. Qed.

Lemma keeps_engine_panic {A} msg : keeps_engine (panic (A:=A) msg).
Proof. done. Qed.

Lemma keeps_engine_log e : keeps_engine (log e).
Proof. done. Qed.

Lemma keeps_engine_bind {A B} (m : M A) (k : A → M B) :
  keeps_engine m → (∀ a, keeps_engine (k a)) → keeps_engine (bind m k).
Proof.
  intros Hm Hk w. unfold bind. specialize (Hm w).
  destruct (m w) as [a w1|msg w1]; simpl in *; [|done].
  by rewrite Hk.
Qed.

Lemma keeps_engine_log_error (err : option error) :
  keeps_engine (match err with Some e => log (LogError e) | None => ret tt end).
Proof. destruct err; [apply keeps_engine_log|apply keeps_engine_ret]. Qed.

Lemma decryptData_keeps_engine secret msgMetadata payload :
  keeps_engine (decryptData secret msgMetadata payload).
Proof.
  unfold decryptData.
  destruct (aes_NewCipher secret) as [c|e].
  - destruct (cipher_NewGCM c) as [gcm|e]; [|apply keeps_engine_ret].
    apply keeps_engine_bind.
    + unfold gcm_Open_nil. case_decide; [|apply keeps_engine_panic].
      destruct (gcm_Open _ _ _) as [[|b l]|]; apply keeps_engine_ret.
    + intros r. apply keeps_engine_bind; [apply keeps_engine_log_error|].
      intros _. apply keeps_engine_ret.
  - apply keeps_engine_bind; [apply keeps_engine_log|]. intros _. apply keeps_engine_ret.
Qed.

Lemma getKeyAndDecryptData_keeps_engine msgMetadata payload keys :
  keeps_engine (getKeyAndDecryptData_keys keys msgMetadata payload).
Proof.
  induction keys as [|k rest IH]; [apply keeps_engine_ret|].
  cbn [getKeyAndDecryptData_keys]. intros w. unfold bind at 1. unfold get_engine at 1.
  destruct (loadingCache (engine w) !! keyDigest (Value k)) as [secret|].
  - apply keeps_engine_bind; [apply decryptData_keeps_engine|].
    intros r. apply keeps_engine_bind; [apply keeps_engine_log_error|].
    intros _. destruct r.1; [apply keeps_engine_ret|apply IH].
  - apply keeps_engine_bind; [apply keeps_engine_log|]. intros _. apply IH.
Qed.

(** *** Decrypt: the monadic code against its functional reading *)

Lemma logs_only_refl w : logs_only w w.
Proof. done. Qed.

Lemma logs_only_trans w1 w2 w3 : logs_only w1 w2 → logs_only w2 w3 → logs_only w1 w3.
Proof. unfold logs_only. intros (?&?&?) (?&?&?). split_and!; congruence. Qed.

Lemma log_logs_only e w : ∃ w', log e w = Done tt w' ∧ logs_only w w'.
Proof. by eexists. Qed.

Lemma decryptData_spec secret msgMetadata payload w :
  length (bytes_of (GetEncryptionParam msgMetadata)) = gcmStandardNonceSize →
  ∃ err w', decryptData secret msgMetadata payload w =
      Done (try_open secret (bytes_of (GetEncryptionParam msgMetadata)) (bytes_of payload), err) w' ∧
    logs_only w w'.
Proof.
  intros Hnonce. unfold decryptData, try_open, aes_NewCipher.
  destruct (aes_key_size_ok (length secret)).
  - cbn [cipher_NewGCM BlockSize Nat.eqb]. unfold gcm_Open_nil.
    cbn [NonceSize aead_key block_key]. case_decide; [|done].
    destruct (gcm_Open secret _ _) as [[|b l]|]; munfold; cbn [snd]. all: eexists _, _; (split; [reflexivity|done]).
  - munfold. eexists _, _; (split; [reflexivity|done]).
Qed.

Lemma getKeyAndDecryptData_keys_spec msgMetadata payload : ∀ keys w,
  length (bytes_of (GetEncryptionParam msgMetadata)) = gcmStandardNonceSize →
  ∃ w', getKeyAndDecryptData_keys keys msgMetadata payload w =
      Done (open_first (loadingCache (engine w)) (bytes_of (GetEncryptionParam msgMetadata))
              (bytes_of payload) keys, None) w' ∧
    logs_only w w'.
Proof.
  intros keys w Hnonce. revert w.
  induction keys as [|k rest IH]; intros w; [by eexists|].
  cbn [getKeyAndDecryptData_keys open_first].
  unfold bind at 1. unfold get_engine at 1.
  destruct (loadingCache (engine w) !! keyDigest (Value k)) as [secret|].
  - destruct (decryptData_spec secret msgMetadata payload w Hnonce)
      as (err & w1 & Hrun & Hw1).
    unfold bind at 1. rewrite Hrun. cbn [fst snd].
    assert (∃ w2, (match err with Some e => log (LogError e) | None => ret tt end) w1 = Done tt w2
                  ∧ logs_only w w2) as (w2 & Hlog & Hw2).
    { destruct err; eexists; (split; [reflexivity|]); [|done].
      eapply logs_only_trans; [done|]. done. }
    unfold bind at 1. rewrite Hlog.
    destruct (try_open secret _ _) as [data|].
    + by eexists.
    + destruct (IH w2) as (w' & Hrest & Hw'). pose proof Hw2 as (He & _ & _).
      rewrite He in Hrest. exists w'. split; [done|]. by eapply logs_only_trans.
  - unfold bind at 1. unfold log at 1.
    match goal with |- context [getKeyAndDecryptData_keys rest _ _ ?w0] =>
      destruct (IH w0) as (w' & Hrest & Hw') end.
    exists w'. split; [done|]. eapply logs_only_trans; [|done]. done.
Qed.

Lemma decryptDataKey_spec kr e w :
  ∃ w', decryptDataKey (Key e) (Value e) (Metadata e) (Some kr) w =
      Done (is_Ok (unwrapKey kr e)) w' ∧
    engine w' = match unwrapKey kr e with
                | Ok k => adopt (Value e) k (engine w)
                | Err _ => engine w
                end ∧
    reader_calls w' = reader_calls w ++ [private_call_of e].
Proof.
  unfold decryptDataKey, unwrapKey. munfold.
  destruct (GetPrivateKey kr (Key e) (keyMeta_of (Metadata e))) as [keyInfo|err];
    [|by eexists].
  destruct (loadPrivateKey (GetKey keyInfo)) as [[priv|]|err]; [|by eexists..].
  cbn [engine entropy logged reader_calls].
  destruct (rsa_DecryptOAEP priv (Value e)) as [k|err]; by eexists.
Qed.

Lemma decryptDataKeys_spec kr : ∀ keys w,
  ∃ w', decryptDataKeys keys (Some kr) w = Done (unwraps kr keys) w' ∧
    engine w' = unwrap_all kr keys (engine w) ∧
    reader_calls w' = reader_calls w ++ (private_call_of <$> keys).
Proof.
  induction keys as [|e rest IH]; intros w.
  { exists w. simpl. by rewrite app_nil_r. }
  destruct (decryptDataKey_spec kr e w) as (w1 & Hrun & He & Hc).
  destruct (IH w1) as (w' & Hrest & He' & Hc').
  exists w'. cbn [decryptDataKeys unwrap_all].
  unfold bind at 1. rewrite Hrun. unfold bind at 1. rewrite Hrest.
  split_and!.
  - unfold ret, unwraps. rewrite filter_cons.
    by destruct (unwrapKey kr e).
  - by rewrite He', He.
  - rewrite Hc', Hc, fmap_cons, <-app_assoc. done.
Qed.

Lemma Decrypt_spec msgMetadata payload kr w :
  length (bytes_of (GetEncryptionParam msgMetadata)) = gcmStandardNonceSize →
  ∃ res w', Decrypt msgMetadata payload (Some kr) w = Done res w' ∧
    match fast_path (engine w) msgMetadata payload with
    | Some data =>
        res = (Some data, None) ∧ engine w' = engine w ∧ reader_calls w' = reader_calls w
    | None =>
        engine w' = unwrap_all kr (GetEncryptionKeys msgMetadata) (engine w) ∧
        reader_calls w' =
          reader_calls w ++ (private_call_of <$> GetEncryptionKeys msgMetadata) ∧
        res = if decide (length (unwraps kr (GetEncryptionKeys msgMetadata)) = 0)
              then (None, Some errDataKeyDecryption)
              else (open_first
                      (loadingCache (unwrap_all kr (GetEncryptionKeys msgMetadata) (engine w)))
                      (bytes_of (GetEncryptionParam msgMetadata)) (bytes_of payload)
                      (GetEncryptionKeys msgMetadata), None)
    end.
Proof.
  intros Hnonce. unfold Decrypt.
  unfold bind at 1. unfold get_engine at 1.
  assert (∃ w1, (match dataKey (engine w) with
                 | Some _ =>
                     r <~ getKeyAndDecryptData msgMetadata payload ;
                     match r.2 with
                     | Some e => log (LogError e)
                     | None => ret tt
                     end ;~
                     ret r.1
                 | None => ret None
                 end) w = Done (fast_path (engine w) msgMetadata payload) w1 ∧ logs_only w w1)
    as (w1 & Hfast & He1 & Hr1 & Hc1).
  { unfold fast_path. destruct (dataKey (engine w)); [|by eexists].
    destruct (getKeyAndDecryptData_keys_spec msgMetadata payload
                (GetEncryptionKeys msgMetadata) w Hnonce) as (w1 & Hrun & Hw1).
    unfold getKeyAndDecryptData. unfold bind at 1. rewrite Hrun. by eexists. }
  unfold bind at 1. rewrite Hfast.
  destruct (fast_path (engine w) msgMetadata payload) as [data|].
  { eexists _, _; split; [reflexivity|]. done. }
  destruct (decryptDataKeys_spec kr (GetEncryptionKeys msgMetadata) w1)
    as (w2 & Hrun & He2 & Hc2).
  unfold bind at 1. rewrite Hrun. rewrite He1 in He2. rewrite Hc1 in Hc2.
  case_decide.
  - eexists _, _; split; [reflexivity|]. split_and!; congruence.
  - destruct (getKeyAndDecryptData_keys_spec msgMetadata payload
                (GetEncryptionKeys msgMetadata) w2 Hnonce) as (w3 & Hrun3 & He3 & Hr3 & Hc3).
    unfold getKeyAndDecryptData. rewrite Hrun3.
    eexists _, _; split; [reflexivity|]. rewrite He2. split_and!; congruence.
Qed.

(** *** The slow path, functionally *)

Lemma bytes_of_nonnil l : bytes_of (nonnil l) = l.
Proof. by destruct l. Qed.

Lemma unwrap_all_frame kr : ∀ keys d,
  encryptedDataKeyMap (unwrap_all kr keys d) = encryptedDataKeyMap d ∧
  logCtx (unwrap_all kr keys d) = logCtx d.
Proof.
  induction keys as [|e rest IH]; intros d; [done|]. simpl.
  destruct (IH (match unwrapKey kr e with Ok k => adopt (Value e) k d | Err _ => d end))
    as [-> ->].
  by destruct (unwrapKey kr e).
Qed.

Lemma unwrap_all_cache_from kr x k : ∀ keys d,
  loadingCache (unwrap_all kr keys d) !! x = Some k →
  loadingCache d !! x = Some k ∨
  ∃ e, e ∈ keys ∧ unwrapKey kr e = Ok k ∧ keyDigest (Value e) = x.
Proof.
  induction keys as [|e rest IH]; intros d Hx; [by left|].
  simpl in Hx. apply IH in Hx as [Hx|(e' & Hin & Hu & Hd)].
  - destruct (unwrapKey kr e) as [k'|err] eqn:Hu; [|by left].
    simpl in Hx. destruct (decide (keyDigest (Value e) = x)) as [Heq|Hne].
    + rewrite Heq, lookup_insert_eq in Hx. inversion Hx; subst k'.
      right. exists e. split; [by apply elem_of_cons; left|done].
    + rewrite lookup_insert_ne in Hx; [|done]. by left.
  - right. exists e'. split; [by apply elem_of_cons; right|done].
Qed.

Lemma unwrap_all_cache_keeps kr x : ∀ keys d,
  is_Some (loadingCache d !! x) → is_Some (loadingCache (unwrap_all kr keys d) !! x).
Proof.
  induction keys as [|e rest IH]; intros d Hx; [done|].
  simpl. apply IH. destruct (unwrapKey kr e) as [k|err]; [|done].
  simpl. destruct (decide (keyDigest (Value e) = x)) as [Heq|Hne].
  - by rewrite Heq, lookup_insert_eq.
  - by rewrite lookup_insert_ne.
Qed.

Lemma unwrap_all_cache_hit kr e k : ∀ keys d,
  e ∈ keys → unwrapKey kr e = Ok k →
  is_Some (loadingCache (unwrap_all kr keys d) !! keyDigest (Value e)).
Proof.
  induction keys as [|e' rest IH]; intros d Hin Hu.
  { by apply not_elem_of_nil in Hin. }
  apply elem_of_cons in Hin as [<-|Hin]; [|by apply IH].
  simpl. apply unwrap_all_cache_keeps. rewrite Hu. simpl.
  by rewrite lookup_insert_eq.
Qed.

Lemma unwrap_all_dataKey kr : ∀ keys d,
  dataKey (unwrap_all kr keys d) = dataKey d ∨
  ∃ e k, e ∈ keys ∧ unwrapKey kr e = Ok k ∧ dataKey (unwrap_all kr keys d) = Some k.
Proof.
  induction keys as [|e rest IH]; intros d; [by left|].
  simpl.
  destruct (IH (match unwrapKey kr e with Ok k => adopt (Value e) k d | Err _ => d end))
    as [Hsame|(e' & k' & Hin & Hu & Hk)].
  - destruct (unwrapKey kr e) as [k|err] eqn:Hu; [|by left].
    right. exists e, k. split; [by apply elem_of_cons; left|done].
  - right. exists e', k'. split; [by apply elem_of_cons; right|done].
Qed.

Lemma unwraps_elem kr e keys : e ∈ unwraps kr keys ↔ e ∈ keys ∧ ∃ k, unwrapKey kr e = Ok k.
Proof.
  unfold unwraps. rewrite list_elem_of_filter. split.
  - intros [Hok Hin]. split; [done|]. destruct (unwrapKey kr e); [by eexists|done].
  - intros [Hin [k Hk]]. split; [by rewrite Hk|done].
Qed.

Lemma unwraps_nil kr : ∀ keys d, unwraps kr keys = [] → unwrap_all kr keys d = d.
Proof.
  induction keys as [|e rest IH]; intros d Hnil; [done|].
  unfold unwraps in Hnil. rewrite filter_cons in Hnil. simpl.
  destruct (unwrapKey kr e) as [k|err]; simpl in Hnil; [done|].
  by apply IH.
Qed.

Lemma unwraps_some_key kr : ∀ keys d, unwraps kr keys ≠ [] → is_Some (dataKey (unwrap_all kr keys d)).
Proof.
  intros keys d Hne.
  destruct (unwraps kr keys) as [|e l] eqn:Hu; [done|].
  assert (e ∈ unwraps kr keys) as [Hin [k Hk]]%unwraps_elem by (rewrite Hu; apply elem_of_cons; by left).
  clear Hu Hne. revert d. induction keys as [|e' rest IH]; intros d.
  { by apply not_elem_of_nil in Hin. }
  simpl. apply elem_of_cons in Hin as [<-|Hin]; [|by apply IH].
  rewrite Hk.
  destruct (unwrap_all_dataKey kr rest (adopt (Value e) k d)) as [->|(?&?&?&?&->)]; by eexists.
Qed.

(** *** The fast path, functionally *)

Lemma open_first_uniform cache nonce payload T : ∀ keys,
  (∀ e k, e ∈ keys → cache !! keyDigest (Value e) = Some k → try_open k nonce payload = T) →
  open_first cache nonce payload keys = None ∨ open_first cache nonce payload keys = T.
Proof.
  induction keys as [|e rest IH]; intros Hall; [by left|].
  simpl. destruct (cache !! keyDigest (Value e)) as [k|] eqn:Hhit.
  - rewrite (Hall e k); [|by apply elem_of_cons; left|done].
    destruct T as [data|]; [by right|].
    apply IH. intros e' k' Hin. apply Hall. by apply elem_of_cons; right.
  - apply IH. intros e' k' Hin. apply Hall. by apply elem_of_cons; right.
Qed.

Lemma open_first_hit cache nonce payload T : ∀ keys,
  (∀ e k, e ∈ keys → cache !! keyDigest (Value e) = Some k → try_open k nonce payload = T) →
  (∃ e, e ∈ keys ∧ is_Some (cache !! keyDigest (Value e))) →
  open_first cache nonce payload keys = T.
Proof.
  induction keys as [|e rest IH]; intros Hall (e0 & Hin & Hhit0).
  { by apply not_elem_of_nil in Hin. }
  assert (∀ e' k', e' ∈ rest → cache !! keyDigest (Value e') = Some k' →
                   try_open k' nonce payload = T) as Hrest.
  { intros e' k' Hin'. apply Hall. by apply elem_of_cons; right. }
  simpl. destruct (cache !! keyDigest (Value e)) as [k|] eqn:Hhit.
  - rewrite (Hall e k); [|by apply elem_of_cons; left|done].
    destruct T as [data|]; [done|].
    by destruct (open_first_uniform cache nonce payload None rest Hrest).
  - apply IH; [done|]. apply elem_of_cons in Hin as [->|Hin].
    + rewrite Hhit in Hhit0. by destruct Hhit0.
    + by exists e0.
Qed.

Lemma open_first_miss cache nonce payload : ∀ keys,
  (∀ e, e ∈ keys → cache !! keyDigest (Value e) = None) →
  open_first cache nonce payload keys = None.
Proof.
  induction keys as [|e rest IH]; intros Hall; [done|].
  simpl. rewrite (Hall e); [|by apply elem_of_cons; left].
  apply IH. intros e' Hin. apply Hall. by apply elem_of_cons; right.
Qed.

(** The data key that a [Decrypt] leaves behind, whether it returns or
    panics: the one it found, or one unwrapped from the envelope. *)
Lemma Decrypt_dataKey msgMetadata payload keyReader w w' :
  final_world (Decrypt msgMetadata payload keyReader w) = w' →
  dataKey (engine w') = dataKey (engine w) ∨
  ∃ kr e k, keyReader = Some kr ∧ e ∈ GetEncryptionKeys msgMetadata ∧
    unwrapKey kr e = Ok k ∧ dataKey (engine w') = Some k.
Proof.
  unfold Decrypt. unfold bind at 1. unfold get_engine at 1.
  set (fast := match dataKey (engine w) with
               | Some _ =>
                   r <~ getKeyAndDecryptData msgMetadata payload ;
                   match r.2 with
                   | Some e => log (LogError e)
                   | None => ret tt
                   end ;~
                   ret r.1
               | None => ret None
               end).
  assert (keeps_engine fast) as Hfast.
  { unfold fast. destruct (dataKey (engine w)); [|apply keeps_engine_ret].
    apply keeps_engine_bind; [apply getKeyAndDecryptData_keeps_engine|].
    intros r. apply keeps_engine_bind; [apply keeps_engine_log_error|].
    intros _. apply keeps_engine_ret. }
  unfold bind at 1. specialize (Hfast w).
  destruct (fast w) as [[data|] w1|msg w1]; simpl in Hfast;
    [intros <-; left; by rewrite <-Hfast| |intros <-; left; by rewrite <-Hfast].
  destruct keyReader as [kr|].
  - destruct (decryptDataKeys_spec kr (GetEncryptionKeys msgMetadata) w1)
      as (w2 & Hrun & He2 & _).
    unfold bind at 1. rewrite Hrun.
    assert (dataKey (engine w2) = dataKey (engine w) ∨
            ∃ e k, e ∈ GetEncryptionKeys msgMetadata ∧ unwrapKey kr e = Ok k ∧
                   dataKey (engine w2) = Some k) as Hkey.
    { rewrite He2, Hfast. apply unwrap_all_dataKey. }
    assert (engine w' = engine w2 → dataKey (engine w') = dataKey (engine w) ∨
            ∃ kr0 e k, Some kr = Some kr0 ∧ e ∈ GetEncryptionKeys msgMetadata ∧
              unwrapKey kr0 e = Ok k ∧ dataKey (engine w') = Some k) as Hend.
    { intros ->. destruct Hkey as [Hkey|(e & k & Hin & Hu & Hkey)]; [by left|].
      right. by exists kr, e, k. }
    cbv beta. case_decide.
    + intros <-. by apply Hend.
    + intros <-. apply Hend. apply getKeyAndDecryptData_keeps_engine.
  - destruct (GetEncryptionKeys msgMetadata) as [|e rest]; simpl;
      intros <-; left; by rewrite <-Hfast.
Qed.

Lemma AddPublicKeyCipher_spec keyNames keyReader w :
  ∃ err w', AddPublicKeyCipher keyNames keyReader w = Done err w' ∧
    loadingCache (engine w') = loadingCache (engine w) ∧
    match generateDataKey w with
    | Done (Ok key) _ => dataKey (engine w') = Some key ∧ length key = 32
    | _ => dataKey (engine w') = dataKey (engine w)
    end.
Proof.
  unfold AddPublicKeyCipher. unfold bind at 1.
  destruct (generateDataKey_spec w) as (r & w0 & Hgen & He & _ & _ & Hlen).
  rewrite Hgen. destruct r as [key|e].
  - unfold bind at 1. unfold modify_engine at 1.
    match goal with |- context [addPublicKeyCiphers _ _ ?w1] =>
      destruct (addPublicKeyCiphers_spec keyReader keyNames w1)
        as (err & w' & Hrun & Hdk & Hc & _) end.
    exists err, w'. split; [done|]. simpl in Hdk, Hc. rewrite He in Hc.
    split_and!; [done|done|by apply Hlen].
  - exists (Some e), w0. split; [done|]. by rewrite He.
Qed.

Lemma Encrypt_keys_present keyReader m rest : ∀ pre shared touched appended w,
  (∀ p, p ∈ pre → is_Some (encryptedDataKeyMap (engine w) !! p)) →
  ∃ shared' touched' appended',
    Encrypt_keys (pre ++ rest) keyReader m shared touched appended w =
    Encrypt_keys rest keyReader m shared' touched' appended' w.
Proof.
  induction pre as [|p pre IH]; intros shared touched appended w Hall; [by eexists _, _, _|].
  destruct (Hall p) as [info Hp]; [by apply elem_of_cons; left|].
  assert (∀ q, q ∈ pre → is_Some (encryptedDataKeyMap (engine w) !! q)) as Hpre.
  { intros q Hq. apply Hall. by apply elem_of_cons; right. }
  cbn [app Encrypt_keys]. unfold loadIfAbsent.
  unfold bind at 1. unfold bind at 1. unfold get_engine at 1. rewrite Hp.
  unfold ret at 1. unfold bind at 1. unfold get_engine at 1. rewrite Hp.
  destruct (m !! p); by apply IH.
Qed.

End Proofs.

(** *** The loop of [Encrypt], step by step *)

Section LoopSteps.
Context `{L : CryptoLib} `{G : GoVersion}.

Lemma settle_length final touched shared :
  length (settle final touched shared) = length shared.
Proof.
  unfold settle. induction touched as [|i t IH]; simpl; [done|]. by rewrite length_alter.
Qed.

Lemma settle_lookup_untouched final i shared : ∀ touched,
  i ∉ touched → settle final touched shared !! i = shared !! i.
Proof.
  unfold settle. induction touched as [|j t IH]; intros Hi; simpl; [done|].
  apply not_elem_of_cons in Hi as [Hne Hi].
  rewrite list_lookup_alter_ne; [by apply IH|done].
Qed.

Lemma settled_Value final touched shared appended e :
  e ∈ settle final touched shared ++ (point_to final <$> appended) →
  ∃ e0, e0 ∈ shared ++ appended ∧ Value e = Value e0.
Proof.
  intros [Hin|Hin]%elem_of_app.
  - apply list_elem_of_lookup in Hin as [i Hi].
    assert (is_Some (shared !! i)) as [e0 He0].
    { apply lookup_lt_is_Some. rewrite <-(settle_length final touched shared).
      by eapply lookup_lt_Some. }
    destruct (settle_lookup final i touched shared e0 He0) as (e' & He' & Hv & _).
    exists e0. split; [|congruence].
    apply elem_of_app. left. apply list_elem_of_lookup. by exists i.
  - apply list_elem_of_fmap in Hin as (e0 & -> & Hin).
    exists e0. split; [apply elem_of_app; by right|apply point_to_Value].
Qed.

(** A wrap that succeeds has asked the reader once, for the name at hand. *)
Lemma addPublicKeyCipher_wrapped keyName keyReader w w' :
  addPublicKeyCipher keyName keyReader w = Done None w' →
  keyName ≠ "" ∧
  reader_calls w' = reader_calls w ++ [CallGetPublicKey keyName] ∧
  ∃ info, encryptedDataKeyMap (engine w') = <[keyName := info]> (encryptedDataKeyMap (engine w)).
Proof.
  unfold addPublicKeyCipher.
  destruct keyReader as [kr|]; [|by inversion 1].
  case_decide; [by inversion 1|].
  munfold. simpl.
  destruct (GetPublicKey kr keyName ∅) as [keyInfo|e0]; [|by inversion 1].
  destruct (loadPublicKey (GetKey keyInfo)) as [[pub|]|e0]; [|by inversion 1..].
  simpl.
  destruct (rsa_EncryptOAEP pub (bytes_of (dataKey (engine w))) (entropy w)) as [[c|e0] r'];
    [|by inversion 1].
  intros [= <-]. simpl. split_and!; [done..|]. by eexists.
Qed.

(** One step of the loop, when the name has a wrapped key in the store. *)
Lemma loadIfAbsent_present keyName keyReader w info :
  encryptedDataKeyMap (engine w) !! keyName = Some info →
  loadIfAbsent keyName keyReader w = Done tt w.
Proof.
  intros Hin. unfold loadIfAbsent. unfold bind at 1. unfold get_engine at 1.
  by rewrite Hin.
Qed.

(** One step of the loop, when the name has none: the wrap is attempted. *)
Lemma loadIfAbsent_absent keyName keyReader w :
  encryptedDataKeyMap (engine w) !! keyName = None →
  ∃ err w0, addPublicKeyCipher keyName keyReader w = Done err w0 ∧
    loadIfAbsent keyName keyReader w =
    match err with
    | Some e => log (LogError e) w0
    | None => Done tt w0
    end.
Proof.
  intros Hnone.
  destruct (addPublicKeyCipher_spec keyName keyReader w) as (err & w0 & Hadd & _).
  exists err, w0. split; [done|].
  unfold loadIfAbsent. unfold bind at 1. unfold get_engine at 1.
  rewrite Hnone. unfold bind. rewrite Hadd. by destruct err.
Qed.

Lemma Encrypt_keys_step keyName rest keyReader m shared touched appended w w1 :
  loadIfAbsent keyName keyReader w = Done tt w1 →
  Encrypt_keys (keyName :: rest) keyReader m shared touched appended w =
  match encryptedDataKeyMap (engine w1) !! keyName with
  | Some keyInfo =>
      match m !! keyName with
      | Some i =>
          Encrypt_keys rest keyReader m
            (<[i := newEncryptionKey keyName keyInfo]> shared) (i :: touched) appended w1
      | None =>
          Encrypt_keys rest keyReader m
            shared touched (appended ++ [newEncryptionKey keyName keyInfo]) w1
      end
  | None =>
      Done (inr (shared, touched, keyName,
                 errEncryptedDataKeyNotFound (logCtx (engine w1)) keyName))
        (final_world
           (log (LogError (errEncryptedDataKeyNotFound (logCtx (engine w1)) keyName)) w1))
  end.
Proof.
  intros Hstep. cbn [Encrypt_keys]. unfold bind at 1. rewrite Hstep.
  unfold bind at 1. unfold get_engine at 1.
  destruct (encryptedDataKeyMap (engine w1) !! keyName); [|reflexivity].
  by destruct (m !! keyName).
Qed.

Lemma Encrypt_keys_length keyReader m : ∀ encKeys shared touched appended w r w',
  Encrypt_keys encKeys keyReader m shared touched appended w = Done r w' →
  length (loop_shared r).1 = length shared ∧
  match r with
  | inl (_, _, a) => length a = length appended + length (filter (fun n => m !! n = None) encKeys)
  | inr _ => True
  end.
Proof.
  induction encKeys as [|keyName rest IH]; intros shared touched appended w r w' Hrun.
  { inversion Hrun; subst. simpl. split; [done|lia]. }
  destruct (loadIfAbsent_spec keyName keyReader w) as (w1 & Hstep & _).
  rewrite (Encrypt_keys_step _ _ _ _ _ _ _ _ _ Hstep) in Hrun.
  destruct (encryptedDataKeyMap (engine w1) !! keyName) as [keyInfo|].
  - destruct (m !! keyName) as [i|] eqn:Hm.
    + apply IH in Hrun as [Hs Ha]. rewrite length_insert in Hs. split; [done|].
      destruct r as [[[s t] a]|]; [|done].
      rewrite filter_cons_False; [done|]. by rewrite Hm.
    + apply IH in Hrun as [Hs Ha]. split; [done|].
      destruct r as [[[s t] a]|]; [|done].
      rewrite filter_cons_True by done. rewrite length_app in Ha. simpl in *. lia.
  - inversion Hrun; subst. done.
Qed.

(** The loop, as [Encrypt] runs it, and what [Encrypt] makes of its
    result. *)
Lemma Encrypt_inv encKeys keyReader msgMetadata payload w md' res w' :
  encKeys ≠ [] →
  Encrypt encKeys keyReader msgMetadata payload w = Done (md', res) w' →
  ∃ r w1,
    Encrypt_keys encKeys keyReader (index_keys 0 (GetEncryptionKeys msgMetadata) ∅)
      (GetEncryptionKeys msgMetadata) [] [] w = Done r w1 ∧
    engine w' = engine w1 ∧ reader_calls w' = reader_calls w1 ∧
    match r with
    | inl (s, t, a) =>
        GetEncryptionKeys md' =
          settle (List.last encKeys "") t s ++ (point_to (List.last encKeys "") <$> a) ∧
        is_not_found res.2 = false ∧
        (res.2 = None →
         ∃ nonce, rand_Read gcmStandardNonceSize (entropy w1) = (Ok nonce, entropy w') ∧
           GetEncryptionParam md' = Some nonce)
    | inr (s, t, n, e) =>
        GetEncryptionKeys md' = settle n t s ∧ is_not_found res.2 = true
    end.
Proof.
  intros Hne. unfold Encrypt. rewrite decide_False by (by destruct encKeys).
  destruct (keyed (GetEncryptionKeys msgMetadata)); [|done]. cbn [negb].
  unfold bind at 1.
  destruct (Encrypt_keys_spec keyReader (index_keys 0 (GetEncryptionKeys msgMetadata) ∅)
              encKeys (GetEncryptionKeys msgMetadata) [] [] w (index_keys_ok _))
    as (r & w1 & Hrun & _ & _ & _ & _ & Hres).
  rewrite Hrun. exists r, w1. split; [done|].
  destruct r as [[[s t] a]|[[[s t] n] e]].
  - destruct msgMetadata as [msg|]; [|done].
    revert H. unfold bind at 1. unfold get_engine at 1. unfold aes_NewCipher.
    destruct (aes_key_size_ok (length (bytes_of (dataKey (engine w1))))).
    + cbn [cipher_NewGCM BlockSize Nat.eqb NonceSize aead_key block_key].
      unfold bind at 1, with_entropy.
      destruct (rand_Read gcmStandardNonceSize (entropy w1)) as [[nonce|e] r'] eqn:Hrand.
      * munfold. intros [= <- <- <-]. cbn. split_and!; try done.
        intros _. by exists nonce.
      * munfold. intros [= <- <- <-]. cbn. split_and!; done.
    + munfold. intros [= <- <- <-]. cbn. split_and!; done.
  - destruct Hres as (_ & -> & _). revert H. munfold. intros [= <- <- <-].
    split_and!; [done|done| |done].
    rewrite GetEncryptionKeys_overwritten. destruct msgMetadata as [msg|]; [done|].
    apply Encrypt_keys_length in Hrun as [Hlen _]. cbn in Hlen.
    symmetry. apply nil_length_inv. by rewrite settle_length.
Qed.

(** *** The entries made by one call *)




(** The loop over [pre ++ rest], when the loop over [pre] runs to its end,
    goes on over [rest] from where that one ends. *)
Lemma Encrypt_keys_app keyReader m rest : ∀ pre shared touched appended w s t a w1,
  Encrypt_keys pre keyReader m shared touched appended w = Done (inl (s, t, a)) w1 →
  Encrypt_keys (pre ++ rest) keyReader m shared touched appended w =
  Encrypt_keys rest keyReader m s t a w1.
Proof.
  induction pre as [|p pre IH]; intros shared touched appended w s t a w1 Hrun.
  { by inversion Hrun. }
  destruct (loadIfAbsent_spec p keyReader w) as (w0 & Hstep & _).
  cbn [app]. rewrite (Encrypt_keys_step p pre _ _ _ _ _ _ _ Hstep) in Hrun.
  rewrite (Encrypt_keys_step p (pre ++ rest) _ _ _ _ _ _ _ Hstep).
  destruct (encryptedDataKeyMap (engine w0) !! p); [|done].
  destruct (m !! p); by apply IH.
Qed.



End LoopSteps.

(** ** The claims that need nothing of the library *)

Section Claims.
Context `{L : CryptoLib} `{G : GoVersion}.

(** C10: for every envelope whose key list is empty, the nil message
    included, [Decrypt] fails with the data-key decryption error, whatever
    the nonce, the ciphertext, the key reader and the state of the engine;
    nothing is passed through and the world is left as it was. *)
Theorem Decrypt_empty_key_list (msgMetadata : MessageMetadata) (payload : slice)
    (keyReader : option KeyReader) (w : World) :
  GetEncryptionKeys msgMetadata = [] →
  Decrypt msgMetadata payload keyReader w = Done (None, Some errDataKeyDecryption) w.
Proof.
  intros Hkeys. unfold Decrypt, getKeyAndDecryptData. rewrite Hkeys. munfold. simpl.
  by destruct (dataKey (engine w)).
Qed.

(** C6: when key generation succeeds with [key], every [AddPublicKeyCipher]
    call leaves [key] as the data key; and if the names [pre] wrap and the
    wrap of the next name [n] fails with [e], the call on [pre ++ n :: post]
    returns [e] in the state reached after [pre] and the failed wrap of [n]:
    the store still holds a wrapping of [key] for every name of [pre], and
    the names of [post] play no part. *)
Theorem AddPublicKeyCipher_rotates_no_rollback
    (keyReader : option KeyReader) (w w0 : World) (key : list byte) :
  generateDataKey w = Done (Ok key) w0 →
  (∀ keyNames, ∃ err w',
      AddPublicKeyCipher keyNames keyReader w = Done err w' ∧
      dataKey (engine w') = Some key) ∧
  (∀ pre n post w1 e w2,
      AddPublicKeyCipher pre keyReader w = Done None w1 →
      addPublicKeyCipher n keyReader w1 = Done (Some e) w2 →
      AddPublicKeyCipher (pre ++ n :: post) keyReader w = Done (Some e) w2 ∧
      dataKey (engine w2) = Some key ∧
      encryptedDataKeyMap (engine w2) = encryptedDataKeyMap (engine w1) ∧
      ∀ p, p ∈ pre →
        ∃ kr info, keyReader = Some kr ∧
          encryptedDataKeyMap (engine w2) !! p = Some info ∧
          wrapped_by kr p key info).
Proof.
  intros Hgen. split.
  - intros keyNames.
    destruct (AddPublicKeyCipher_spec keyNames keyReader w) as (err & w' & Hrun & _ & Hkey).
    rewrite Hgen in Hkey. exists err, w'. by destruct Hkey.
  - intros pre n post w1 e w2 Hpre Hn.
    unfold AddPublicKeyCipher in *. unfold bind at 1 in Hpre. unfold bind at 1.
    rewrite Hgen in *. unfold bind at 1 in Hpre. unfold bind at 1.
    unfold modify_engine at 1 in Hpre. unfold modify_engine at 1.
    destruct (addPublicKeyCipher_failure _ _ _ _ _ Hn) as [He2 _].
    match type of Hpre with addPublicKeyCiphers _ _ ?wk = _ =>
      destruct (addPublicKeyCiphers_spec keyReader pre wk)
        as (err & w1' & Hrun & Hdk & _ & _ & _ & Hall) end.
    rewrite Hpre in Hrun. inversion Hrun; subst err w1'. simpl in Hdk, Hall.
    split_and!.
    + rewrite addPublicKeyCiphers_app, Hpre.
      cbn [addPublicKeyCiphers]. unfold bind. by rewrite Hn.
    + by rewrite He2.
    + by rewrite He2.
    + intros p Hp. rewrite He2. by apply Hall.
Qed.

Lemma NewDefaultMessageCrypto_key_inv ctx keyGenNeeded r :
  key_inv (NewDefaultMessageCrypto ctx keyGenNeeded r).1.
Proof.
  unfold NewDefaultMessageCrypto. destruct keyGenNeeded; [|by intros k].
  match goal with |- context [generateDataKey ?w0] =>
    destruct (generateDataKey_spec w0) as (res & w' & Hgen & He & _ & _ & Hlen);
    rewrite Hgen end.
  destruct res as [key|e]; intros k; simpl.
  - intros [= <-]. by apply Hlen.
  - by rewrite He.
Qed.

Lemma exec_key_inv w c : key_inv w → unwraps_to_aes256 c → key_inv (exec w c).
Proof.
  intros Hinv Hc. destruct c as [keyNames kr|keyName|encKeys kr md payload|md payload kr];
    cbn [exec].
  - destruct (AddPublicKeyCipher_spec keyNames kr w) as (err & w' & -> & _ & Hkey).
    cbn [final_world]. intros k Hk.
    destruct (generateDataKey w) as [[key|e] w0|msg w0].
    + destruct Hkey as [Hkey Hlen]. congruence.
    + rewrite Hkey in Hk. by apply Hinv.
    + rewrite Hkey in Hk. by apply Hinv.
  - unfold RemoveKeyCipher. case_decide; [done|]. by munfold.
  - destruct encKeys as [|n encKeys]; [done|].
    destruct (Encrypt_outcome (n :: encKeys) kr md payload w _ ltac:(done) eq_refl)
      as (Hdk & _).
    intros k Hk. rewrite Hdk in Hk. by apply Hinv.
  - intros k Hk.
    destruct (Decrypt_dataKey md payload kr w _ eq_refl)
      as [Hsame|(kr0 & e & k0 & -> & Hin & Hu & Hkey)].
    + rewrite Hsame in Hk. by apply Hinv.
    + rewrite Hkey in Hk. inversion Hk; subst k0. by eapply Hc.
Qed.

(** C5 (amended): in every state reached from a new engine by calls of
    [AddPublicKeyCipher], [RemoveKeyCipher], [Encrypt] and [Decrypt], a data
    key that is present is 32 bytes long, provided every envelope handed to
    [Decrypt] only unwraps to 32-byte keys: key generation and rotation set
    32-byte keys, while the key adopted at decrypt time is whatever RSA-OAEP
    yields, its length unchecked. *)
Theorem dataKey_length_invariant (ctx : string) (keyGenNeeded : bool) (r : RandState)
    (calls : list call) :
  Forall unwraps_to_aes256 calls →
  key_inv (foldl exec (NewDefaultMessageCrypto ctx keyGenNeeded r).1 calls).
Proof.
  intros Hcalls.
  pose proof (NewDefaultMessageCrypto_key_inv ctx keyGenNeeded r) as Hinv.
  revert Hinv. generalize (NewDefaultMessageCrypto ctx keyGenNeeded r).1.
  induction Hcalls as [|c calls Hc Hcalls IH]; intros w Hinv; [done|].
  simpl. apply IH. by apply exec_key_inv.
Qed.

(** C4 (amended): when [Encrypt] fails because the AES or GCM cipher cannot
    be built or because the nonce cannot be drawn, it returns no ciphertext,
    and the nonce field of the metadata and the engine's data key are as
    before the call; the key list of the metadata, however, has already been
    replaced by the merged list, which carries the stored wrapped key of
    every requested name. *)
Theorem Encrypt_cipher_failure_frame (encKeys : list string) (keyReader : option KeyReader)
    (msgMetadata md' : MessageMetadata) (payload out : slice) (e : error) (w w' : World) :
  Encrypt encKeys keyReader msgMetadata payload w = Done (md', (out, Some e)) w' →
  (e = errGeneratingNonce ∨ e = cipher_errBlockSize ∨ ∃ n, e = aes_KeySizeError n) →
  out = None ∧
  GetEncryptionParam md' = GetEncryptionParam msgMetadata ∧
  dataKey (engine w') = dataKey (engine w) ∧
  ∀ n, n ∈ encKeys →
    has_wrapped_key (encryptedDataKeyMap (engine w')) n (GetEncryptionKeys md').
Proof.
  intros Hrun Hcause.
  destruct encKeys as [|k encKeys]; [by inversion Hrun|].
  destruct (Encrypt_spec (k :: encKeys) keyReader msgMetadata payload w _ _ _
              ltac:(done) Hrun) as (Hdk & _ & _ & Hres).
  inversion Hres; subst.
  - destruct Hcause as [?|[?|[? ?]]]; done.
  - done.
Qed.

(** C3 (amended): in an [Encrypt] over several names, given a metadata
    none of whose entries has a nil key name: when the loop has run over
    the names [pre], wrapping the data key for those that had no wrapped key
    in the store, and the next name [n] has none and its wrap fails with
    [e], the failure is logged and the call fails at once with the
    key-not-found error for [n], although the names of [pre] have usable
    wrapped keys: nothing is sealed, the later names are not processed (no
    lookup is made and nothing is drawn after the failed wrap), and the
    engine is left as the loop over [pre] left it.  And whenever an
    [Encrypt] on this engine returns without error, every name it was asked
    for has a wrapped key in the store. *)
Theorem Encrypt_aborts_on_missing_key (pre post : list string) (n : string)
    (keyReader : option KeyReader) (msgMetadata : MessageMetadata) (payload : slice)
    (w w1 w2 : World) (e : error)
    (merged : list EncryptionKeys * list nat * list EncryptionKeys) :
  keyed (GetEncryptionKeys msgMetadata) = true →
  Encrypt_loop pre keyReader msgMetadata w = Done (inl merged) w1 →
  encryptedDataKeyMap (engine w1) !! n = None →
  addPublicKeyCipher n keyReader w1 = Done (Some e) w2 →
  (∃ md' w',
     Encrypt (pre ++ n :: post) keyReader msgMetadata payload w =
       Done (md', (None, Some (errEncryptedDataKeyNotFound (logCtx (engine w)) n))) w' ∧
     logged w' =
       logged w1 ++ [LogError e; LogError (errEncryptedDataKeyNotFound (logCtx (engine w)) n)] ∧
     engine w' = engine w1 ∧
     entropy w' = entropy w2 ∧
     reader_calls w' = reader_calls w2 ∧
     GetEncryptionParam md' = GetEncryptionParam msgMetadata ∧
     ∀ p, p ∈ pre → is_Some (encryptedDataKeyMap (engine w') !! p)) ∧
  (∀ encKeys md' out w',
     Encrypt encKeys keyReader msgMetadata payload w = Done (md', (out, None)) w' →
     ∀ k, k ∈ encKeys → is_Some (encryptedDataKeyMap (engine w') !! k)).
Proof.
  intros Hkeyed Hpre Hnone Hadd. split.
  - destruct (addPublicKeyCipher_failure _ _ _ _ _ Hadd) as [He1 Hlog1].
    destruct merged as [[s t] a]. unfold Encrypt_loop in Hpre.
    destruct (Encrypt_keys_spec keyReader (index_keys 0 (GetEncryptionKeys msgMetadata) ∅)
                pre (GetEncryptionKeys msgMetadata) [] [] w (index_keys_ok _))
      as (res & w1' & Hrun & _ & _ & Hctx & _ & Hres).
    rewrite Hpre in Hrun. inversion Hrun; subst res w1'. clear Hrun.
    destruct Hres as (_ & _ & Hall).
    unfold Encrypt. rewrite decide_False; [|rewrite length_app; simpl; lia].
    rewrite Hkeyed. cbn [negb]. unfold bind at 1.
    rewrite (Encrypt_keys_app _ _ _ _ _ _ _ _ _ _ _ _ Hpre).
    cbn [Encrypt_keys]. unfold loadIfAbsent.
    unfold bind at 1. unfold bind at 1. unfold get_engine at 1.
    rewrite Hnone. unfold bind at 1. rewrite Hadd.
    unfold log at 1. unfold bind at 1. unfold get_engine at 1. cbn [engine].
    rewrite He1, Hnone, Hctx. munfold. cbn [engine logged].
    eexists _, _. split; [reflexivity|]. cbn [engine logged entropy reader_calls].
    split_and!; [by rewrite Hlog1, <-app_assoc|done|done|done| |].
    + apply GetEncryptionParam_overwritten.
    + intros p Hp. destruct (Hall p Hp) as (e' & info & _ & _ & Hin & _). by exists info.
  - intros encKeys md' out w' Hrun k Hk.
    assert (encKeys ≠ []) as Hne by (intros ->; by apply not_elem_of_nil in Hk).
    destruct (Encrypt_spec encKeys keyReader msgMetadata payload w _ _ _ Hne Hrun)
      as (_ & _ & _ & Hres).
    inversion Hres as [| |? ? nonce _ _ _ Hall]; subst.
    destruct (Hall k Hk) as (e' & info & _ & Hin & _). by exists info.
Qed.


(** C1: when the slow path unwraps at least one data key and the
    authenticated open then fails under every key the envelope leads to
    (cached under an entry's fingerprint, or unwrapped from an entry),
    [Decrypt] returns the nil slice together with a nil error: the failed
    opens are logged and no error is raised. *)
Theorem Decrypt_open_failure_is_silent (msgMetadata : MessageMetadata) (payload : slice)
    (kr : KeyReader) (w : World) :
  length (bytes_of (GetEncryptionParam msgMetadata)) = gcmStandardNonceSize →
  unwraps kr (GetEncryptionKeys msgMetadata) ≠ [] →
  (∀ e k, e ∈ GetEncryptionKeys msgMetadata →
     (loadingCache (engine w) !! keyDigest (Value e) = Some k ∨ unwrapKey kr e = Ok k) →
     gcm_Open k (bytes_of (GetEncryptionParam msgMetadata)) (bytes_of payload) = None) →
  ∃ w', Decrypt msgMetadata payload (Some kr) w = Done (None, None) w'.
Proof.
  intros Hnonce Hsome Hfail.
  assert (∀ e k, e ∈ GetEncryptionKeys msgMetadata →
     (loadingCache (engine w) !! keyDigest (Value e) = Some k ∨ unwrapKey kr e = Ok k) →
     try_open k (bytes_of (GetEncryptionParam msgMetadata)) (bytes_of payload) = None) as Hopen.
  { intros e k Hin Hk. unfold try_open. rewrite (Hfail e k Hin Hk).
    by destruct (aes_key_size_ok (length k)). }
  destruct (Decrypt_spec msgMetadata payload kr w Hnonce) as (res & w' & Hrun & Hres).
  exists w'. rewrite Hrun. f_equal.
  assert (fast_path (engine w) msgMetadata payload = None) as Hfast.
  { unfold fast_path. destruct (dataKey (engine w)); [|done].
    destruct (open_first_uniform (loadingCache (engine w))
                (bytes_of (GetEncryptionParam msgMetadata)) (bytes_of payload) None
                (GetEncryptionKeys msgMetadata)) as [Hn|Hn]; try done.
    intros e k Hin Hhit. apply (Hopen e k Hin). by left. }
  rewrite Hfast in Hres. destruct Hres as (_ & _ & ->).
  rewrite decide_False; [|by intros ?%length_zero_iff_nil].
  f_equal.
  destruct (open_first_uniform
              (loadingCache (unwrap_all kr (GetEncryptionKeys msgMetadata) (engine w)))
              (bytes_of (GetEncryptionParam msgMetadata)) (bytes_of payload) None
              (GetEncryptionKeys msgMetadata)) as [Hn|Hn]; try done.
  intros e k Hin Hhit.
  apply unwrap_all_cache_from in Hhit as [Hhit|(e' & Hin' & Hu' & _)].
  - apply (Hopen e k Hin). by left.
  - apply (Hopen e' k Hin'). by right.
Qed.

End Claims.

Section WithLaws.
Context `{L : CryptoLib} {HL : CryptoLaws L} `{G : GoVersion}.

Lemma try_open_sealed key nonce plaintext :
  aes_key_size_ok (length key) = true →
  length nonce = gcmStandardNonceSize →
  try_open key nonce (gcm_Seal key nonce plaintext) = nonnil plaintext.
Proof.
  intros Hk Hn. unfold try_open. rewrite Hk, gcm_correct; [|done..].
  by destruct plaintext.
Qed.

(** A sealed message whose envelope the reader unwraps to the sealing key,
    and to no other key, decrypts to the plaintext that was sealed, whatever
    the engine's current data key is. *)
Lemma Decrypt_sealed msgMetadata nonce key plaintext kr w eR :
  GetEncryptionParam msgMetadata = Some nonce →
  length nonce = gcmStandardNonceSize →
  aes_key_size_ok (length key) = true →
  eR ∈ GetEncryptionKeys msgMetadata →
  unwrapKey kr eR = Ok key →
  (∀ e k, e ∈ GetEncryptionKeys msgMetadata → unwrapKey kr e = Ok k → k = key) →
  (∀ e k, e ∈ GetEncryptionKeys msgMetadata →
          loadingCache (engine w) !! keyDigest (Value e) = Some k → k = key) →
  ∃ w', Decrypt msgMetadata (Some (gcm_Seal key nonce plaintext)) (Some kr) w =
          Done (nonnil plaintext, None) w'.
Proof.
  intros Hparam Hnonce Hkey HeR HuR Hu Hc.
  destruct (Decrypt_spec msgMetadata (Some (gcm_Seal key nonce plaintext)) kr w)
    as (res & w' & Hrun & Hres).
  { by rewrite Hparam. }
  exists w'. rewrite Hrun. f_equal.
  rewrite Hparam in Hres. cbn [bytes_of] in Hres.
  destruct (fast_path (engine w) msgMetadata (Some (gcm_Seal key nonce plaintext)))
    as [data|] eqn:Hfast.
  - destruct Hres as (-> & _). f_equal.
    unfold fast_path in Hfast. rewrite Hparam in Hfast. cbn [bytes_of] in Hfast.
    destruct (dataKey (engine w)); [|done].
    destruct (open_first_uniform (loadingCache (engine w)) nonce
                (gcm_Seal key nonce plaintext) (nonnil plaintext)
                (GetEncryptionKeys msgMetadata)) as [Hn|Hn].
    + intros e k Hin Hhit. rewrite (Hc e k Hin Hhit). by apply try_open_sealed.
    + congruence.
    + congruence.
  - destruct Hres as (_ & _ & ->).
    rewrite decide_False.
    + f_equal. apply open_first_hit.
      * intros e k Hin Hhit.
        apply unwrap_all_cache_from in Hhit as [Hhit|(e' & Hin' & Hu' & _)].
        -- rewrite (Hc e k Hin Hhit). by apply try_open_sealed.
        -- rewrite (Hu e' k Hin' Hu'). by apply try_open_sealed.
      * exists eR. split; [done|]. by eapply unwrap_all_cache_hit.
    + intros Hlen. apply length_zero_iff_nil in Hlen.
      assert (eR ∈ unwraps kr (GetEncryptionKeys msgMetadata)) as Hin.
      { apply unwraps_elem. split; [done|]. by exists key. }
      rewrite Hlen in Hin. by apply not_elem_of_nil in Hin.
Qed.



(** C8 (amended): two envelopes, each with a single entry, carry the same
    wrapped bytes; the reader unwraps them to [key]; the fingerprint is not
    yet cached; the second message is a non-empty payload sealed under
    [key].  Then the first [Decrypt] makes exactly one private-key lookup and
    caches [key] under the fingerprint, and the second [Decrypt] returns the
    payload from the cache, with no lookup: one lookup across both calls. *)
Theorem Decrypt_unwraps_once (md1 md2 : MessageMetadata) (ct1 : slice)
    (nonce2 p2 : list byte) (kr : KeyReader) (w : World) (e1 e2 : EncryptionKeys)
    (key : list byte) :
  GetEncryptionKeys md1 = [e1] →
  GetEncryptionKeys md2 = [e2] →
  Value e2 = Value e1 →
  length (bytes_of (GetEncryptionParam md1)) = gcmStandardNonceSize →
  GetEncryptionParam md2 = Some nonce2 →
  length nonce2 = gcmStandardNonceSize →
  loadingCache (engine w) !! keyDigest (Value e1) = None →
  unwrapKey kr e1 = Ok key →
  aes_key_size_ok (length key) = true →
  p2 ≠ [] →
  ∃ res1 w1 w2,
    Decrypt md1 ct1 (Some kr) w = Done res1 w1 ∧
    reader_calls w1 = reader_calls w ++ [private_call_of e1] ∧
    loadingCache (engine w1) !! keyDigest (Value e1) = Some key ∧
    Decrypt md2 (Some (gcm_Seal key nonce2 p2)) (Some kr) w1 = Done (Some p2, None) w2 ∧
    reader_calls w2 = reader_calls w1 ∧
    private_calls w2 = private_calls w + 1.
Proof.
  intros Hk1 Hk2 Hv Hn1 Hp2 Hn2 Hmiss Hu Hsize Hp.
  destruct (Decrypt_spec md1 ct1 kr w Hn1) as (res1 & w1 & Hrun1 & Hres1).
  assert (fast_path (engine w) md1 ct1 = None) as Hfast1.
  { unfold fast_path. rewrite Hk1. simpl. rewrite Hmiss. by destruct (dataKey (engine w)). }
  rewrite Hfast1, Hk1 in Hres1. cbn [unwrap_all fmap list_fmap] in Hres1.
  rewrite Hu in Hres1. destruct Hres1 as (He1 & Hc1 & _).
  destruct (Decrypt_spec md2 (Some (gcm_Seal key nonce2 p2)) kr w1)
    as (res2 & w2 & Hrun2 & Hres2).
  { by rewrite Hp2. }
  assert (fast_path (engine w1) md2 (Some (gcm_Seal key nonce2 p2)) = Some p2) as Hfast2.
  { unfold fast_path. rewrite He1, Hk2, Hp2. cbn [adopt dataKey set_loadingCache set_dataKey
      loadingCache bytes_of open_first]. rewrite Hv, lookup_insert_eq.
    rewrite try_open_sealed; [|done..]. by destruct p2. }
  rewrite Hfast2 in Hres2. destruct Hres2 as (-> & _ & Hc2).
  exists res1, w1, w2. split_and!; try done.
  - rewrite He1. simpl. apply lookup_insert_eq.
  - unfold private_calls. rewrite Hc2, Hc1, filter_app, length_app. done.
Qed.

End WithLaws.

(** ** The executable library satisfies the laws *)

Lemma toy_rsa_oaep_correct (priv : byte) (msg r c r' : list byte) :
  Toy.wrap priv msg r = (Ok c, r') → Toy.unwrap priv c = Ok msg.
Proof.
  destruct r as [|seed r0]; simpl; [done|].
  intros [= <- <-]. simpl. by rewrite decide_True.
Qed.

Lemma toy_gcm_correct (key nonce plaintext : list byte) :
  Toy.open key nonce (Toy.seal key nonce plaintext) = Some plaintext.
Proof.
  unfold Toy.open, Toy.seal.
  rewrite app_assoc, <-length_app, take_app_length, drop_app_length.
  by rewrite decide_True.
Qed.

#[global] Instance toy_laws : CryptoLaws Toy.lib.
Proof.
  split.
  - intros priv msg r c r'. apply toy_rsa_oaep_correct.
  - intros key nonce plaintext _ _. apply toy_gcm_correct.
Qed.

(** ** The scenarios, evaluated *)

Lemma toy_sealedAB :
  Toy.sealedAB =
  Done (Toy.metadata_of Toy.sealedAB, (Toy.output_of Toy.sealedAB, None))
       (final_world Toy.sealedAB).
Proof. vm_compute. reflexivity. Qed.

Lemma toy_sealedAB_unwraps (e : EncryptionKeys) (k : list byte) :
  e ∈ GetEncryptionKeys (Toy.metadata_of Toy.sealedAB) →
  unwrapKey Toy.reader e = Ok k → k = Toy.key1.
Proof.
  intros Hin Hu. vm_compute in Hin.
  repeat (apply elem_of_cons in Hin as [->|Hin]); [..|by apply not_elem_of_nil in Hin];
    vm_compute in Hu; by inversion Hu.
Qed.

Lemma toy_sealedA_unwraps (e : EncryptionKeys) :
  GetEncryptionKeys (Toy.metadata_of Toy.sealedA) = [e] →
  unwrapKey Toy.reader e = Ok Toy.key1.
Proof. vm_compute. by intros [= <-]. Qed.

Lemma toy_fresh_cache (keyGenNeeded : bool) (x : string) :
  loadingCache (engine (Toy.fresh keyGenNeeded)) !! x = None.
Proof. destruct keyGenNeeded; apply lookup_empty. Qed.

(** ** The theorems at concrete inputs *)

(** C10 at a concrete input: the nil message. *)
Lemma Decrypt_empty_key_list_witness :
  GetEncryptionKeys None = [] ∧
  Decrypt None (Some Toy.hi) (Some Toy.reader) (Toy.fresh true) =
    Done (None, Some errDataKeyDecryption) (Toy.fresh true).
Proof.
  split; [reflexivity|].
  apply (Decrypt_empty_key_list None (Some Toy.hi) (Some Toy.reader) (Toy.fresh true)).
  reflexivity.
Defined.



(** C8 at a concrete input: two messages sealed for A alone share their
    wrapped bytes; a new consumer decrypts both with one private-key
    lookup. *)
Lemma Decrypt_unwraps_once_witness :
  ∃ res1 w1 w2,
    Decrypt (Toy.metadata_of Toy.sealedA) (Toy.output_of Toy.sealedA) (Some Toy.reader)
      (Toy.fresh false) = Done res1 w1 ∧
    Decrypt (Toy.metadata_of Toy.sealedA2) (Toy.output_of Toy.sealedA2) (Some Toy.reader) w1 =
      Done (Some Toy.yo, None) w2 ∧
    private_calls w2 = 1.
Proof.
  destruct (Decrypt_unwraps_once (Toy.metadata_of Toy.sealedA) (Toy.metadata_of Toy.sealedA2)
              (Toy.output_of Toy.sealedA) (replicate 7 "2"%byte ++ replicate 5 "3"%byte) Toy.yo
              Toy.reader
              (Toy.fresh false)
              ToyMore.entryA ToyMore.entryA Toy.key1)
    as (res1 & w1 & w2 & Hrun1 & _ & _ & Hrun2 & _ & Hcalls).
  - vm_compute. reflexivity.
  - vm_compute. reflexivity.
  - reflexivity.
  - vm_compute. reflexivity.
  - vm_compute. reflexivity.
  - reflexivity.
  - apply toy_fresh_cache.
  - vm_compute. reflexivity.
  - reflexivity.
  - discriminate.
  - exists res1, w1, w2. split; [exact Hrun1|]. split; [exact Hrun2|exact Hcalls].
Defined.

(** C1 at a concrete input: the message sealed for A and B, its first
    ciphertext byte overwritten, is handed to a new consumer whose reader
    unwraps both entries. *)
Lemma Decrypt_open_failure_is_silent_witness :
  ∃ w',
    Decrypt (Toy.metadata_of Toy.sealedAB) (Toy.tamper (Toy.output_of Toy.sealedAB))
      (Some Toy.reader) (Toy.fresh false) = Done (None, None) w'.
Proof.
  apply (Decrypt_open_failure_is_silent (Toy.metadata_of Toy.sealedAB)
           (Toy.tamper (Toy.output_of Toy.sealedAB)) Toy.reader (Toy.fresh false)).
  - vm_compute. reflexivity.
  - vm_compute. discriminate.
  - intros e k Hin [Hhit|Hu].
    + by rewrite toy_fresh_cache in Hhit.
    + rewrite (toy_sealedAB_unwraps e k Hin Hu). vm_compute. reflexivity.
Defined.

(** C3 at a concrete input: on a new engine, the call wraps the data key
    for A and then finds that the reader knows no key C. *)
Lemma Encrypt_aborts_on_missing_key_witness :
  ∃ md' w',
    Encrypt ["A"; "C"; "B"] (Some Toy.reader) Toy.emptyMetadata (Some Toy.hi) (Toy.fresh true) =
      Done (md', (None, Some (errEncryptedDataKeyNotFound "ctx" "C"))) w' ∧
    is_Some (encryptedDataKeyMap (engine w') !! "A") ∧
    reader_calls w' = [CallGetPublicKey "A"; CallGetPublicKey "C"].
Proof.
  destruct (Encrypt_aborts_on_missing_key ["A"] ["B"] "C" (Some Toy.reader) Toy.emptyMetadata
              (Some Toy.hi) (Toy.fresh true)
              (final_world (Encrypt_loop ["A"] (Some Toy.reader) Toy.emptyMetadata
                              (Toy.fresh true)))
              (final_world
                 (addPublicKeyCipher "C" (Some Toy.reader)
                    (final_world (Encrypt_loop ["A"] (Some Toy.reader) Toy.emptyMetadata
                                    (Toy.fresh true)))))
              (lib_error "open: no such file")
              ([], [], [ToyMore.entryA]))
    as [(md' & w' & Hrun & _ & _ & _ & Hcalls & _ & Hpre) _].
  - reflexivity.
  - vm_compute. reflexivity.
  - vm_compute. reflexivity.
  - vm_compute. reflexivity.
  - exists md', w'. split; [exact Hrun|]. split.
    + apply Hpre. apply elem_of_cons. by left.
    + rewrite Hcalls. vm_compute. reflexivity.
Defined.

(** C4 and C9 at a concrete input: a producer built without a data key
    encrypts for A. *)
Lemma Encrypt_cipher_failure_frame_witness :
  Toy.output_of Toy.unkeyed = None ∧
  GetEncryptionParam (Toy.metadata_of Toy.unkeyed) = GetEncryptionParam Toy.emptyMetadata ∧
  dataKey (engine (final_world Toy.unkeyed)) = dataKey (engine (Toy.fresh false)) ∧
  ∀ n, n ∈ ["A"] →
    has_wrapped_key (encryptedDataKeyMap (engine (final_world Toy.unkeyed))) n
      (GetEncryptionKeys (Toy.metadata_of Toy.unkeyed)).
Proof.
  apply (Encrypt_cipher_failure_frame ["A"] (Some Toy.reader) Toy.emptyMetadata
           (Toy.metadata_of Toy.unkeyed) (Some Toy.hi) (Toy.output_of Toy.unkeyed)
           (aes_KeySizeError 0) (Toy.fresh false) (final_world Toy.unkeyed)).
  - vm_compute. reflexivity.
  - right. right. by exists 0.
Defined.


(** C5 at a concrete input: a new engine rotates its key, seals, and
    decrypts the message sealed for A and B. *)
Lemma dataKey_length_invariant_witness :
  key_inv
    (foldl exec (NewDefaultMessageCrypto "ctx" true Toy.tape).1
       [CallAddPublicKeyCipher ["A"] (Some Toy.reader);
        CallEncrypt ["A"] (Some Toy.reader) Toy.emptyMetadata (Some Toy.hi);
        CallRemoveKeyCipher "A";
        CallDecrypt (Toy.metadata_of Toy.sealedAB) (Toy.output_of Toy.sealedAB)
          (Some Toy.reader)]).
Proof.
  apply dataKey_length_invariant.
  do 3 (constructor; [exact I|]). constructor; [|constructor].
  intros e k Hin Hu. by rewrite (toy_sealedAB_unwraps e k Hin Hu).
Defined.

(** C6 at a concrete input: a rotation over A, C, B, where the reader knows
    no key C. *)
Lemma AddPublicKeyCipher_rotates_no_rollback_witness :
  ∃ key w2,
    AddPublicKeyCipher ["A"; "C"; "B"] (Some Toy.reader) (Toy.fresh true) =
      Done (Some (lib_error "open: no such file")) w2 ∧
    dataKey (engine w2) = Some key ∧
    key ≠ Toy.key1 ∧
    is_Some (encryptedDataKeyMap (engine w2) !! "A") ∧
    encryptedDataKeyMap (engine w2) !! "B" = None.
Proof.
  destruct (AddPublicKeyCipher_rotates_no_rollback (Some Toy.reader) (Toy.fresh true)
              (final_world (generateDataKey (Toy.fresh true)))
              (replicate 20 "2"%byte ++ replicate 12 "3"%byte))
    as [_ Habort].
  { vm_compute. reflexivity. }
  destruct (Habort ["A"] "C" ["B"]
              (final_world (AddPublicKeyCipher ["A"] (Some Toy.reader) (Toy.fresh true)))
              (lib_error "open: no such file")
              (final_world (AddPublicKeyCipher ["A"; "C"] (Some Toy.reader) (Toy.fresh true))))
    as (Hrun & Hkey & _ & Hall).
  { vm_compute. reflexivity. }
  { vm_compute. reflexivity. }
  eexists _, _. split; [exact Hrun|]. split; [exact Hkey|].
  split; [vm_compute; discriminate|]. split.
  - destruct (Hall "A") as (kr & info & _ & Hin & _); [apply elem_of_cons; by left|].
    by exists info.
  - vm_compute. reflexivity.
Defined.

(** ** Where the code departs from the specification *)


(** C3, as stated, fails: A has a usable wrapped key, lazily wrapped by this
    very call, and still the call fails and seals nothing. *)
Lemma Encrypt_one_missing_key_counterexample :
  Toy.both (fun G : GoVersion =>
    ∃ md' w',
      Encrypt ["A"; "C"] (Some Toy.reader) Toy.emptyMetadata (Some Toy.hi) (Toy.fresh true) =
        Done (md', (None, Some (errEncryptedDataKeyNotFound "ctx" "C"))) w' ∧
      is_Some (encryptedDataKeyMap (engine w') !! "A")).
Proof.
  split.
  - exists (Toy.metadata_of
              (Encrypt (G:=Toy.per_iteration) ["A"; "C"] (Some Toy.reader) Toy.emptyMetadata
                 (Some Toy.hi) (Toy.fresh true))),
           (final_world
              (Encrypt (G:=Toy.per_iteration) ["A"; "C"] (Some Toy.reader) Toy.emptyMetadata
                 (Some Toy.hi) (Toy.fresh true))).
    split; [vm_compute; reflexivity|]. vm_compute. eexists. reflexivity.
  - exists (Toy.metadata_of
              (Encrypt (G:=Toy.per_loop) ["A"; "C"] (Some Toy.reader) Toy.emptyMetadata
                 (Some Toy.hi) (Toy.fresh true))),
           (final_world
              (Encrypt (G:=Toy.per_loop) ["A"; "C"] (Some Toy.reader) Toy.emptyMetadata
                 (Some Toy.hi) (Toy.fresh true))).
    split; [vm_compute; reflexivity|]. vm_compute. eexists. reflexivity.
Qed.

(** C4, as stated, fails: the call fails at the construction of the AES
    cipher, and the key list of the metadata is no longer what it was. *)
Lemma Encrypt_cipher_failure_counterexample :
  Toy.both (fun G : GoVersion =>
    ∃ md' w',
      Encrypt ["A"] (Some Toy.reader) Toy.emptyMetadata (Some Toy.hi) (Toy.fresh false) =
        Done (md', (None, Some (aes_KeySizeError 0))) w' ∧
      GetEncryptionKeys md' ≠ GetEncryptionKeys Toy.emptyMetadata).
Proof.
  split.
  - exists (Toy.metadata_of (Toy.unkeyed (G:=Toy.per_iteration))),
           (final_world (Toy.unkeyed (G:=Toy.per_iteration))).
    split; [vm_compute; reflexivity|]. vm_compute. discriminate.
  - exists (Toy.metadata_of (Toy.unkeyed (G:=Toy.per_loop))),
           (final_world (Toy.unkeyed (G:=Toy.per_loop))).
    split; [vm_compute; reflexivity|]. vm_compute. discriminate.
Qed.

(** C5, as stated, fails: a consumer that decrypts the envelope written by
    the producer without a data key adopts a data key of length 0. *)
Lemma dataKey_length_counterexample :
  Toy.both (fun G : GoVersion =>
    ¬ key_inv
        (foldl exec (NewDefaultMessageCrypto "ctx" false Toy.tape).1
           [CallDecrypt (Toy.metadata_of Toy.unkeyed) (Some Toy.hi) (Some Toy.reader)])).
Proof.
  split; intros Hinv; specialize (Hinv []); vm_compute in Hinv;
    specialize (Hinv eq_refl); discriminate.
Qed.


(** C8, as stated, fails twice: two messages with an empty payload sealed
    for A alone cost two private-key lookups, since the empty plaintext
    comes back as the nil slice and the fast path takes it for a failure;
    and two messages sealed for A and B cost two lookups, one per entry of
    the first envelope. *)
Lemma Decrypt_unwraps_twice_counterexample :
  Toy.both (fun G : GoVersion =>
    (Value <$> GetEncryptionKeys (Toy.metadata_of Toy.sealedEmpty) =
     Value <$> GetEncryptionKeys (Toy.metadata_of Toy.sealedEmpty2) ∧
     length (GetEncryptionKeys (Toy.metadata_of Toy.sealedEmpty)) = 1 ∧
     Toy.lookups_of_two Toy.sealedEmpty Toy.sealedEmpty2 = 2) ∧
    (Value <$> GetEncryptionKeys (Toy.metadata_of Toy.sealedAB) =
     Value <$> GetEncryptionKeys (Toy.metadata_of Toy.sealedAB2) ∧
     Toy.lookups_of_two Toy.sealedAB Toy.sealedAB2 = 2)).
Proof. vm_compute. done. Qed.

(** ** Further properties of the code *)

(** *** What a computation leaves in place

    A relation [I] between the world before and the world after holds of a
    computation when it holds of each primitive step the computation is made
    of, whether the computation returns or panics. *)

Section Frames.
Context `{L : CryptoLib} `{G : GoVersion}.

Section Preserved.
Variable I : World → World → Prop.
Hypothesis I_refl : ∀ w, I w w.
Hypothesis I_trans : ∀ w1 w2 w3, I w1 w2 → I w2 w3 → I w1 w3.

Lemma preserves_ret {A} (a : A) : preserves I (ret a).
Proof. intros w. apply I_refl. Qed.

Lemma preserves_panic {A} msg : preserves I (panic (A:=A) msg).
Proof. intros w. apply I_refl. Qed.

Lemma preserves_get_engine : preserves I get_engine.
Proof. intros w. apply I_refl. Qed.

Lemma preserves_bind {A B} (m : M A) (k : A → M B) :
  preserves I m → (∀ a, preserves I (k a)) → preserves I (bind m k).
Proof.
  intros Hm Hk w. unfold bind. specialize (Hm w).
  destruct (m w) as [a w1|msg w1]; simpl in *; [|done].
  eapply I_trans; [exact Hm|apply Hk].
Qed.

Hypothesis I_log : ∀ e, preserves I (log e).

Lemma preserves_log_error (err : option error) :
  preserves I (match err with Some e => log (LogError e) | None => ret tt end).
Proof. destruct err; [apply I_log|apply preserves_ret]. Qed.

Lemma decryptData_preserves secret msgMetadata payload :
  preserves I (decryptData secret msgMetadata payload).
Proof.
  unfold decryptData.
  destruct (aes_NewCipher secret) as [c|e].
  - destruct (cipher_NewGCM c) as [gcm|e]; [|apply preserves_ret].
    apply preserves_bind.
    + unfold gcm_Open_nil. case_decide; [|apply preserves_panic].
      destruct (gcm_Open _ _ _) as [[|b l]|]; apply preserves_ret.
    + intros r. apply preserves_bind; [apply preserves_log_error|].
      intros _. apply preserves_ret.
  - apply preserves_bind; [apply I_log|]. intros _. apply preserves_ret.
Qed.

Lemma getKeyAndDecryptData_keys_preserves msgMetadata payload keys :
  preserves I (getKeyAndDecryptData_keys keys msgMetadata payload).
Proof.
  induction keys as [|k rest IH]; [apply preserves_ret|].
  cbn [getKeyAndDecryptData_keys].
  apply preserves_bind; [apply preserves_get_engine|]. intros d.
  destruct (loadingCache d !! keyDigest (Value k)) as [secret|].
  - apply preserves_bind; [apply decryptData_preserves|].
    intros r. apply preserves_bind; [apply preserves_log_error|].
    intros _. destruct r.1; [apply preserves_ret|apply IH].
  - apply preserves_bind; [apply I_log|]. intros _. apply IH.
Qed.

(** The consumer's side. *)

Hypothesis I_private : ∀ n m, preserves I (record_call (CallGetPrivateKey n m)).
Hypothesis I_adopt : ∀ c k,
  preserves I (modify_engine (fun d =>
    set_loadingCache (<[keyDigest c := k]> (loadingCache d)) (set_dataKey (Some k) d))).
Hypothesis I_entropy : ∀ A (f : RandState → A * RandState), preserves I (with_entropy f).

Lemma decryptDataKey_preserves keyName encDatakey encKeymeta keyReader :
  preserves I (decryptDataKey keyName encDatakey encKeymeta keyReader).
Proof.
  unfold decryptDataKey. destruct keyReader as [kr|]; [|apply preserves_panic].
  apply preserves_bind; [apply I_private|]. intros _.
  assert (∀ e, preserves I (log (LogError e) ;~ ret false)) as Hfail.
  { intros e. apply preserves_bind; [apply I_log|]. intros _. apply preserves_ret. }
  destruct (GetPrivateKey kr keyName _) as [keyInfo|e]; [|apply Hfail].
  destruct (loadPrivateKey (GetKey keyInfo)) as [[priv|]|e]; [|apply Hfail..].
  apply preserves_bind; [apply I_entropy|]. intros [k|e]; [|apply Hfail].
  apply preserves_bind; [apply I_adopt|]. intros _. apply preserves_ret.
Qed.

Lemma decryptDataKeys_preserves keyReader encKeys :
  preserves I (decryptDataKeys encKeys keyReader).
Proof.
  induction encKeys as [|key rest IH]; [apply preserves_ret|].
  cbn [decryptDataKeys].
  apply preserves_bind; [apply decryptDataKey_preserves|]. intros ok.
  apply preserves_bind; [apply IH|]. intros l. apply preserves_ret.
Qed.

Lemma Decrypt_preserves msgMetadata payload keyReader :
  preserves I (Decrypt msgMetadata payload keyReader).
Proof.
  unfold Decrypt, getKeyAndDecryptData.
  apply preserves_bind; [apply preserves_get_engine|]. intros d.
  apply preserves_bind.
  { destruct (dataKey d); [|apply preserves_ret].
    apply preserves_bind; [apply getKeyAndDecryptData_keys_preserves|].
    intros r. apply preserves_bind; [apply preserves_log_error|].
    intros _. apply preserves_ret. }
  intros [data|]; [apply preserves_ret|].
  apply preserves_bind; [apply decryptDataKeys_preserves|]. intros l.
  case_decide; [apply preserves_ret|apply getKeyAndDecryptData_keys_preserves].
Qed.

(** The producer's side. *)

Hypothesis I_public : ∀ n, preserves I (record_call (CallGetPublicKey n)).
Hypothesis I_store : ∀ g : DefaultMessageCrypto → gmap string EncryptionKeyInfo,
  preserves I (modify_engine (fun d => set_encryptedDataKeyMap (g d) d)).
Hypothesis I_key : ∀ key, preserves I (modify_engine (set_dataKey (Some key))).

Lemma addPublicKeyCipher_preserves keyName keyReader :
  preserves I (addPublicKeyCipher keyName keyReader).
Proof.
  unfold addPublicKeyCipher. destruct keyReader as [kr|]; [|apply preserves_ret].
  case_decide; [apply preserves_ret|].
  apply preserves_bind; [apply I_public|]. intros _.
  destruct (GetPublicKey kr keyName ∅) as [keyInfo|e]; [|apply preserves_ret].
  destruct (loadPublicKey (GetKey keyInfo)) as [[pub|]|e]; [|apply preserves_ret..].
  apply preserves_bind; [apply preserves_get_engine|]. intros d.
  apply preserves_bind; [apply I_entropy|]. intros [c|e]; [|apply preserves_ret].
  apply preserves_bind; [|intros _; apply preserves_ret].
  apply (I_store (fun d =>
    <[keyName := NewEncryptionKeyInfo c (GetMetadata keyInfo)]> (encryptedDataKeyMap d))).
Qed.

Lemma addPublicKeyCiphers_preserves keyReader keyNames :
  preserves I (addPublicKeyCiphers keyNames keyReader).
Proof.
  induction keyNames as [|keyName rest IH]; [apply preserves_ret|].
  cbn [addPublicKeyCiphers].
  apply preserves_bind; [apply addPublicKeyCipher_preserves|].
  intros [e|]; [apply preserves_ret|apply IH].
Qed.

Lemma AddPublicKeyCipher_preserves keyNames keyReader :
  preserves I (AddPublicKeyCipher keyNames keyReader).
Proof.
  unfold AddPublicKeyCipher, generateDataKey.
  apply preserves_bind; [apply I_entropy|]. intros [key|e]; [|apply preserves_ret].
  apply preserves_bind; [apply I_key|]. intros _. apply addPublicKeyCiphers_preserves.
Qed.

Lemma RemoveKeyCipher_preserves keyName : preserves I (RemoveKeyCipher keyName).
Proof.
  unfold RemoveKeyCipher. case_decide; [apply preserves_ret|].
  apply preserves_bind; [|intros _; apply preserves_ret].
  apply (I_store (fun d => delete keyName (encryptedDataKeyMap d))).
Qed.

Lemma loadIfAbsent_preserves keyName keyReader :
  preserves I (loadIfAbsent keyName keyReader).
Proof.
  unfold loadIfAbsent.
  apply preserves_bind; [apply preserves_get_engine|]. intros d.
  destruct (encryptedDataKeyMap d !! keyName); [apply preserves_ret|].
  apply preserves_bind; [apply addPublicKeyCipher_preserves|].
  intros [e|]; [apply I_log|apply preserves_ret].
Qed.

Lemma Encrypt_keys_preserves keyReader m encKeys : ∀ shared touched appended,
  preserves I (Encrypt_keys encKeys keyReader m shared touched appended).
Proof.
  induction encKeys as [|keyName rest IH]; intros shared touched appended;
    [apply preserves_ret|].
  cbn [Encrypt_keys].
  apply preserves_bind; [apply loadIfAbsent_preserves|]. intros _.
  apply preserves_bind; [apply preserves_get_engine|]. intros d.
  destruct (encryptedDataKeyMap d !! keyName) as [keyInfo|].
  - destruct (m !! keyName); apply IH.
  - apply preserves_bind; [apply I_log|]. intros _. apply preserves_ret.
Qed.

Lemma Encrypt_preserves encKeys keyReader msgMetadata payload :
  preserves I (Encrypt encKeys keyReader msgMetadata payload).
Proof.
  unfold Encrypt. case_decide; [apply preserves_ret|].
  destruct (negb (keyed (GetEncryptionKeys msgMetadata))); [apply preserves_panic|].
  apply preserves_bind; [apply Encrypt_keys_preserves|].
  intros [[[s t] a]|[[[s t] n] e]]; [|apply preserves_ret].
  destruct msgMetadata as [message|]; [|apply preserves_panic].
  apply preserves_bind; [apply preserves_get_engine|]. intros d.
  assert (∀ msg (r : MessageMetadata * (slice * option error)),
            preserves I (log (LogErrorMsg msg) ;~ ret r)) as Hfail.
  { intros msg r. apply preserves_bind; [apply I_log|]. intros _. apply preserves_ret. }
  destruct (aes_NewCipher (bytes_of (dataKey d))) as [c|e]; [|apply Hfail].
  destruct (cipher_NewGCM c) as [gcm|e]; [|apply Hfail].
  apply preserves_bind; [apply I_entropy|]. intros [nonce|e]; [apply preserves_ret|].
  apply preserves_bind; [apply I_log|]. intros _. apply preserves_ret.
Qed.

Lemma exec_preserves (c : call) (w : World) : I w (exec w c).
Proof.
  destruct c; cbn [exec].
  - apply AddPublicKeyCipher_preserves.
  - apply RemoveKeyCipher_preserves.
  - apply Encrypt_preserves.
  - apply Decrypt_preserves.
Qed.

Lemma foldl_exec_preserves (calls : list call) : ∀ w, I w (foldl exec w calls).
Proof.
  induction calls as [|c calls IH]; intros w; [apply I_refl|].
  simpl. eapply I_trans; [apply exec_preserves|apply IH].
Qed.

End Preserved.

(** *** The frames are reflexive and transitive *)

Lemma filter_calls_app (P : reader_call → bool) (l : list reader_call) (c : reader_call) :
  filter (fun c => P c = true) (l ++ [c]) =
  filter (fun c => P c = true) l ++ (if P c then [c] else []).
Proof.
  rewrite filter_app. f_equal. rewrite filter_cons. by destruct (P c).
Qed.

Lemma producer_frame_refl w : producer_frame w w.
Proof. done. Qed.

Lemma producer_frame_trans w1 w2 w3 :
  producer_frame w1 w2 → producer_frame w2 w3 → producer_frame w1 w3.
Proof. unfold producer_frame. intros (?&?&?) (?&?&?). split_and!; congruence. Qed.

Lemma consumer_frame_refl w : consumer_frame w w.
Proof. done. Qed.

Lemma consumer_frame_trans w1 w2 w3 :
  consumer_frame w1 w2 → consumer_frame w2 w3 → consumer_frame w1 w3.
Proof. unfold consumer_frame. intros (?&?&?) (?&?&?). split_and!; congruence. Qed.

Lemma cache_grows_refl w : cache_grows w w.
Proof. by intros x. Qed.

Lemma cache_grows_trans w1 w2 w3 : cache_grows w1 w2 → cache_grows w2 w3 → cache_grows w1 w3.
Proof. intros H1 H2 x Hx. by apply H2, H1. Qed.

Lemma cache_grows_same w w' :
  loadingCache (engine w') = loadingCache (engine w) → cache_grows w w'.
Proof. intros Hc x. by rewrite Hc. Qed.

End Frames.

Section FrameTheorems.
Context `{L : CryptoLib} `{G : GoVersion}.

Lemma private_calls_snoc w c :
  private_calls
    {| engine := engine w; entropy := entropy w; logged := logged w;
       reader_calls := reader_calls w ++ [c] |} =
  private_calls w + (if is_private_call c then 1 else 0).
Proof.
  unfold private_calls. cbn [reader_calls].
  rewrite filter_app, length_app, filter_cons. by destruct (is_private_call c).
Qed.

Lemma public_calls_snoc w c :
  public_calls
    {| engine := engine w; entropy := entropy w; logged := logged w;
       reader_calls := reader_calls w ++ [c] |} =
  public_calls w ++ (if is_private_call c then [] else [c]).
Proof.
  unfold public_calls. cbn [reader_calls].
  rewrite filter_app, filter_cons. by destruct (is_private_call c).
Qed.

Lemma NewDefaultMessageCrypto_empty ctx keyGenNeeded r :
  loadingCache (engine (NewDefaultMessageCrypto ctx keyGenNeeded r).1) = ∅ ∧
  encryptedDataKeyMap (engine (NewDefaultMessageCrypto ctx keyGenNeeded r).1) = ∅ ∧
  logCtx (engine (NewDefaultMessageCrypto ctx keyGenNeeded r).1) = ctx.
Proof.
  unfold NewDefaultMessageCrypto. destruct keyGenNeeded; [|done].
  match goal with |- context [generateDataKey ?w0] =>
    destruct (generateDataKey_spec w0) as (res & w' & Hgen & He & _);
    rewrite Hgen end.
  destruct res as [key|e]; simpl; by rewrite He.
Qed.

(** X1: the cache of unwrapped keys never loses a fingerprint.  Whatever
    sequence of [AddPublicKeyCipher], [RemoveKeyCipher], [Encrypt] and
    [Decrypt] calls is made, with whatever arguments and whether a call
    returns or panics, every fingerprint cached before the calls is still
    cached after them: the code stores into the cache and never deletes. *)
Theorem cache_only_grows (calls : list call) (w : World) :
  cache_grows w (foldl exec w calls).
Proof.
  apply foldl_exec_preserves.
  - apply cache_grows_refl.
  - apply cache_grows_trans.
  - intros e w0. by apply cache_grows_same.
  - intros n m w0. by apply cache_grows_same.
  - intros c k w0 x Hx. cbn.
    destruct (decide (keyDigest c = x)) as [<-|Hne].
    + by rewrite lookup_insert_eq.
    + by rewrite lookup_insert_ne.
  - intros A f w0. apply cache_grows_same. unfold with_entropy.
    by destruct (f (entropy w0)).
  - intros n w0. by apply cache_grows_same.
  - intros g w0. by apply cache_grows_same.
  - intros key w0. by apply cache_grows_same.
Qed.

(** X2: the producer's and the consumer's halves of the engine are
    separate.  [Decrypt] never changes the store of wrapped keys and never
    asks the reader for a public key; [AddPublicKeyCipher],
    [RemoveKeyCipher] and [Encrypt] never change the cache of unwrapped keys
    and never ask the reader for a private key; and no call changes the log
    context.  This holds whether the call returns or panics. *)
Theorem producer_consumer_separation (c : call) (w : World) :
  match c with
  | CallDecrypt _ _ _ => consumer_frame w (exec w c)
  | _ => producer_frame w (exec w c)
  end.
Proof.
  assert (∀ A (f : RandState → A * RandState), preserves producer_frame (with_entropy f))
    as Hentropy.
  { intros A f w0. unfold with_entropy. by destruct (f (entropy w0)). }
  assert (∀ n, preserves producer_frame (record_call (CallGetPublicKey n))) as Hpublic.
  { intros n w0. split_and!; [done..|]. unfold record_call. cbn [final_world].
    by rewrite private_calls_snoc, Nat.add_0_r. }
  destruct c as [keyNames kr|keyName|encKeys kr md payload|md payload kr]; cbn [exec].
  - apply AddPublicKeyCipher_preserves;
      [apply producer_frame_refl|apply producer_frame_trans|done..].
  - apply RemoveKeyCipher_preserves;
      [apply producer_frame_refl|apply producer_frame_trans|done].
  - apply Encrypt_preserves;
      [apply producer_frame_refl|apply producer_frame_trans|done..].
  - apply Decrypt_preserves;
      [apply consumer_frame_refl|apply consumer_frame_trans|done| |done|].
    + intros n m w0. split_and!; [done..|]. unfold record_call. cbn [final_world].
      by rewrite public_calls_snoc, app_nil_r.
    + intros A f w0. unfold with_entropy. by destruct (f (entropy w0)).
Qed.

(** X3: in every state reached from a new engine, a cache that holds a key
    belongs to an engine that has a data key; so the test [d.dataKey != nil]
    at the head of [Decrypt] never keeps a cached key from being tried: the
    fast path is the search of the cache for the first entry of the envelope
    whose cached key opens the payload. *)
Theorem dataKey_guard_is_redundant (ctx : string) (keyGenNeeded : bool) (r : RandState)
    (calls : list call) (msgMetadata : MessageMetadata) (payload : slice) :
  let w := foldl exec (NewDefaultMessageCrypto ctx keyGenNeeded r).1 calls in
  keyed_cache w ∧
  fast_path (engine w) msgMetadata payload =
  open_first (loadingCache (engine w)) (bytes_of (GetEncryptionParam msgMetadata))
    (bytes_of payload) (GetEncryptionKeys msgMetadata).
Proof.
  intros w.
  assert (keyed_cache w) as Hw.
  { unfold w. apply (foldl_exec_preserves keeps_keyed_cache).
    - intros w0 H0. exact H0.
    - intros w1 w2 w3 H1 H2 H0. by apply H2, H1.
    - intros e w0 H0. exact H0.
    - intros n m w0 H0. exact H0.
    - intros c k w0 _. right. by eexists.
    - intros A f w0 H0. unfold with_entropy. by destruct (f (entropy w0)).
    - intros n w0 H0. exact H0.
    - intros g w0 H0. exact H0.
    - intros key w0 _. right. by eexists.
    - left. apply NewDefaultMessageCrypto_empty. }
  split; [done|]. unfold fast_path.
  destruct Hw as [Hempty|[k Hk]]; [|by rewrite Hk].
  rewrite Hempty. destruct (dataKey (engine w)); [done|].
  symmetry. apply open_first_miss. intros e _. apply lookup_empty.
Qed.

End FrameTheorems.

(** *** What [Decrypt] returns *)

Section DecryptOutcomes.
Context `{L : CryptoLib} `{G : GoVersion}.

Lemma decryptData_done secret msgMetadata payload w r w' :
  decryptData secret msgMetadata payload w = Done r w' →
  logs_only w w' ∧
  ∀ d, r.1 = Some d →
    d ≠ [] ∧
    aes_key_size_ok (length secret) = true ∧
    length (bytes_of (GetEncryptionParam msgMetadata)) = gcmStandardNonceSize ∧
    gcm_Open secret (bytes_of (GetEncryptionParam msgMetadata)) (bytes_of payload) = Some d.
Proof.
  unfold decryptData, aes_NewCipher.
  destruct (aes_key_size_ok (length secret)) eqn:Hsize.
  - cbn [cipher_NewGCM BlockSize Nat.eqb]. unfold gcm_Open_nil.
    cbn [NonceSize aead_key block_key]. case_decide as Hn; [|done].
    destruct (gcm_Open secret _ _) as [[|b l]|] eqn:Ho; munfold; cbn [snd];
      intros [= <- <-]; (split; [done|]); intros d; cbn [fst]; intros [= <-].
    done.
  - munfold. intros [= <- <-]. split; [done|]. by intros d [=].
Qed.

Lemma getKeyAndDecryptData_keys_done msgMetadata payload : ∀ keys w r w',
  getKeyAndDecryptData_keys keys msgMetadata payload w = Done r w' →
  logs_only w w' ∧ r.2 = None ∧
  ∀ d, r.1 = Some d →
    d ≠ [] ∧
    ∃ e k, e ∈ keys ∧ loadingCache (engine w) !! keyDigest (Value e) = Some k ∧
      aes_key_size_ok (length k) = true ∧
      length (bytes_of (GetEncryptionParam msgMetadata)) = gcmStandardNonceSize ∧
      gcm_Open k (bytes_of (GetEncryptionParam msgMetadata)) (bytes_of payload) = Some d.
Proof.
  induction keys as [|k rest IH]; intros w r w'.
  { simpl. intros [= <- <-]. split_and!; [done..|]. by intros d [=]. }
  cbn [getKeyAndDecryptData_keys]. unfold bind at 1. unfold get_engine at 1.
  destruct (loadingCache (engine w) !! keyDigest (Value k)) as [secret|] eqn:Hhit.
  - unfold bind at 1.
    destruct (decryptData secret msgMetadata payload w) as [r1 w1|msg w1] eqn:Hd; [|done].
    apply decryptData_done in Hd as [Hw1 Hs1].
    assert (∃ w2, (match r1.2 with Some e => log (LogError e) | None => ret tt end) w1 =
                    Done tt w2 ∧ logs_only w w2) as (w2 & Hlog & Hw2).
    { destruct r1.2; eexists; (split; [reflexivity|]); [|done].
      eapply logs_only_trans; [done|]. done. }
    unfold bind at 1. rewrite Hlog.
    destruct r1.1 as [d1|] eqn:Hr1.
    + intros [= <- <-]. split_and!; [done..|]. intros d [= <-].
      destruct (Hs1 d1 eq_refl) as (Hne & Hsize & Hn & Ho). split; [done|].
      exists k, secret. split_and!; try done. apply elem_of_cons. by left.
    + intros Hrest. apply IH in Hrest as (Hw' & Herr & Hs).
      split_and!; [by eapply logs_only_trans|done|].
      intros d Hd. destruct (Hs d Hd) as (Hne & e & k0 & Hin & Hc & Hrest).
      split; [done|]. exists e, k0. split; [by apply elem_of_cons; right|].
      split; [|done]. destruct Hw2 as (He2 & _). by rewrite <-He2.
  - unfold bind at 1. unfold log at 1.
    intros Hrest. apply IH in Hrest as (Hw' & Herr & Hs).
    split_and!; [|done|].
    + eapply logs_only_trans; [|done]. done.
    + intros d Hd. destruct (Hs d Hd) as (Hne & e & k0 & Hin & Hc & Hrest).
      split; [done|]. exists e, k0. split; [by apply elem_of_cons; right|]. done.
Qed.

Lemma getKeyAndDecryptData_keys_miss msgMetadata payload : ∀ keys w,
  (∀ e, e ∈ keys → loadingCache (engine w) !! keyDigest (Value e) = None) →
  ∃ w', getKeyAndDecryptData_keys keys msgMetadata payload w = Done (None, None) w' ∧
    logs_only w w'.
Proof.
  induction keys as [|k rest IH]; intros w Hmiss; [by eexists|].
  cbn [getKeyAndDecryptData_keys]. unfold bind at 1. unfold get_engine at 1.
  rewrite (Hmiss k); [|by apply elem_of_cons; left].
  unfold bind at 1. unfold log at 1.
  match goal with |- context [getKeyAndDecryptData_keys rest _ _ ?w0] =>
    destruct (IH w0) as (w' & Hrest & Hw') end.
  { intros e He. apply Hmiss. by apply elem_of_cons; right. }
  exists w'. split; [done|]. eapply logs_only_trans; [|done]. done.
Qed.

Lemma Decrypt_unfold msgMetadata payload keyReader w :
  Decrypt msgMetadata payload keyReader w =
  match Decrypt_fast msgMetadata payload (engine w) w with
  | Done (Some decryptedData) w1 => Done (Some decryptedData, None) w1
  | Done None w1 =>
      match decryptDataKeys (GetEncryptionKeys msgMetadata) keyReader w1 with
      | Done encryptionKeys w2 =>
          if decide (length encryptionKeys = 0)
          then Done (None, Some errDataKeyDecryption) w2
          else getKeyAndDecryptData msgMetadata payload w2
      | Panic msg w2 => Panic msg w2
      end
  | Panic msg w1 => Panic msg w1
  end.
Proof.
  unfold Decrypt. unfold bind at 1. unfold get_engine at 1. unfold bind at 1.
  fold (Decrypt_fast msgMetadata payload (engine w)).
  destruct (Decrypt_fast msgMetadata payload (engine w) w) as [[data|] w1|msg w1]; [done| |done].
  unfold bind at 1.
  destruct (decryptDataKeys (GetEncryptionKeys msgMetadata) keyReader w1) as [l w2|msg w2];
    [|done].
  by case_decide.
Qed.

Lemma Decrypt_fast_done msgMetadata payload w f w1 :
  Decrypt_fast msgMetadata payload (engine w) w = Done f w1 →
  logs_only w w1 ∧
  ∀ d, f = Some d → d ≠ [] ∧ authentic (loadingCache (engine w)) msgMetadata payload d.
Proof.
  unfold Decrypt_fast. destruct (dataKey (engine w)).
  - unfold getKeyAndDecryptData. unfold bind at 1.
    destruct (getKeyAndDecryptData_keys _ _ _ w) as [r w0|msg w0] eqn:Hrun; [|done].
    apply getKeyAndDecryptData_keys_done in Hrun as (Hw0 & Herr & Hs).
    rewrite Herr. munfold. intros [= <- <-]. split; [done|].
    intros d Hd. destruct (Hs d Hd) as (Hne & e & k & Hrest). split; [done|].
    by exists e, k.
  - intros [= <- <-]. split; [done|]. by intros d [=].
Qed.

Lemma Decrypt_fast_cold msgMetadata payload w :
  cold (engine w) (GetEncryptionKeys msgMetadata) →
  ∃ w1, Decrypt_fast msgMetadata payload (engine w) w = Done None w1 ∧ logs_only w w1.
Proof.
  intros Hcold. unfold Decrypt_fast.
  destruct (dataKey (engine w)) as [dk|] eqn:Hdk; [|by eexists].
  destruct Hcold as [?|Hmiss]; [congruence|].
  destruct (getKeyAndDecryptData_keys_miss msgMetadata payload _ w Hmiss) as (w1 & Hrun & Hw1).
  unfold getKeyAndDecryptData. unfold bind at 1. rewrite Hrun. by eexists.
Qed.

(** The outcomes of a [Decrypt] that returns. *)
Lemma Decrypt_done msgMetadata payload keyReader w res w' :
  Decrypt msgMetadata payload keyReader w = Done res w' →
  (∃ d, res = (Some d, None) ∧ d ≠ [] ∧
        authentic (loadingCache (engine w')) msgMetadata payload d) ∨
  (res = (None, None) ∧
   ∃ kr, keyReader = Some kr ∧ unwraps kr (GetEncryptionKeys msgMetadata) ≠ []) ∨
  (res = (None, Some errDataKeyDecryption) ∧ engine w' = engine w ∧
   match keyReader with
   | Some kr => unwraps kr (GetEncryptionKeys msgMetadata) = []
   | None => GetEncryptionKeys msgMetadata = []
   end).
Proof.
  rewrite Decrypt_unfold.
  destruct (Decrypt_fast msgMetadata payload (engine w) w) as [f w1|msg w1] eqn:Hfast; [|done].
  apply Decrypt_fast_done in Hfast as [(He1 & Hr1 & Hc1) Hs1].
  destruct f as [d|].
  { intros [= <- <-]. left. exists d. destruct (Hs1 d eq_refl) as [Hne Hauth].
    split_and!; [done..|]. by rewrite He1. }
  destruct keyReader as [kr|].
  - destruct (decryptDataKeys_spec kr (GetEncryptionKeys msgMetadata) w1)
      as (w2 & Hrun & He2 & _).
    rewrite Hrun. case_decide as Hlen.
    + intros [= <- <-]. right. right. apply length_zero_iff_nil in Hlen.
      split_and!; [done| |done]. by rewrite He2, He1, unwraps_nil.
    + unfold getKeyAndDecryptData. intros Hrun3.
      apply getKeyAndDecryptData_keys_done in Hrun3 as ((He3 & _) & Herr & Hs).
      destruct res as [[d|] err]; cbn [fst snd] in *; subst err.
      * left. exists d. destruct (Hs d eq_refl) as (Hne & e & k & Hrest).
        split_and!; [done..|]. rewrite He3. by exists e, k.
      * right. left. split; [done|]. exists kr. split; [done|].
        by intros ?%(f_equal length).
  - destruct (GetEncryptionKeys msgMetadata) as [|e rest]; [|done].
    simpl. intros [= <- <-]. right. right. done.
Qed.

(** X4: a plaintext returned by [Decrypt] is authentic.  Whatever the
    engine, the envelope, the payload and the key reader, a [Decrypt] that
    returns a non-nil plaintext returns no error with it; the plaintext is
    not empty, the nonce of the envelope has the standard length, and the
    plaintext is the authenticated opening of the payload under a key of 16,
    24 or 32 bytes that the cache then holds under the fingerprint of an
    entry of the envelope. *)
Theorem Decrypt_returns_authentic_plaintext (msgMetadata : MessageMetadata) (payload : slice)
    (keyReader : option KeyReader) (w w' : World) (d : list byte) (err : option error) :
  Decrypt msgMetadata payload keyReader w = Done (Some d, err) w' →
  err = None ∧ d ≠ [] ∧ authentic (loadingCache (engine w')) msgMetadata payload d.
Proof.
  intros Hrun.
  destruct (Decrypt_done _ _ _ _ _ _ Hrun) as [(d' & [= <- <-] & Hne & Hauth)|[[[=] _]|[[=] _]]].
  done.
Qed.

(** X5: the only error [Decrypt] returns is the data-key decryption error.
    Whatever the inputs, a [Decrypt] that returns an error returns
    [errDataKeyDecryption] and no plaintext, has left the engine as it was,
    and no entry of the envelope was unwrapped by the reader (with a nil
    reader, the envelope has no entry); in particular the failures of the
    AES-GCM open are never returned. *)
Theorem Decrypt_only_error (msgMetadata : MessageMetadata) (payload out : slice)
    (keyReader : option KeyReader) (w w' : World) (e : error) :
  Decrypt msgMetadata payload keyReader w = Done (out, Some e) w' →
  e = errDataKeyDecryption ∧ out = None ∧ engine w' = engine w ∧
  match keyReader with
  | Some kr => unwraps kr (GetEncryptionKeys msgMetadata) = []
  | None => GetEncryptionKeys msgMetadata = []
  end.
Proof.
  intros Hrun.
  destruct (Decrypt_done _ _ _ _ _ _ Hrun) as [(d' & [=] & _)|[[[=] _]|([= <- <-] & He & Hu)]].
  done.
Qed.

(** X6: when no cached key can be tried (the engine has no data key, or no
    entry of the envelope has its fingerprint in the cache) and the reader
    unwraps no entry of the envelope, [Decrypt] returns the data-key
    decryption error, whatever the nonce and the payload; it has asked the
    reader once for each entry, in the order of the envelope, and has left
    the engine as it was. *)
Theorem Decrypt_no_key_unwrapped (msgMetadata : MessageMetadata) (payload : slice)
    (kr : KeyReader) (w : World) :
  cold (engine w) (GetEncryptionKeys msgMetadata) →
  unwraps kr (GetEncryptionKeys msgMetadata) = [] →
  ∃ w', Decrypt msgMetadata payload (Some kr) w = Done (None, Some errDataKeyDecryption) w' ∧
    engine w' = engine w ∧
    reader_calls w' = reader_calls w ++ (private_call_of <$> GetEncryptionKeys msgMetadata).
Proof.
  intros Hcold Hnone. rewrite Decrypt_unfold.
  destruct (Decrypt_fast_cold msgMetadata payload w Hcold) as (w1 & -> & He1 & _ & Hc1).
  destruct (decryptDataKeys_spec kr (GetEncryptionKeys msgMetadata) w1)
    as (w2 & -> & He2 & Hc2).
  rewrite Hnone. rewrite decide_True; [|done].
  exists w2. split_and!; [done| |congruence].
  by rewrite He2, He1, unwraps_nil.
Qed.

(** X7: [decryptDataKey] calls the reader without testing it for nil, unlike
    [addPublicKeyCipher].  When no cached key can be tried and the envelope
    has an entry, [Decrypt] with a nil key reader panics; the engine is as
    it was. *)
Theorem Decrypt_nil_reader_panics (msgMetadata : MessageMetadata) (payload : slice) (w : World) :
  cold (engine w) (GetEncryptionKeys msgMetadata) →
  GetEncryptionKeys msgMetadata ≠ [] →
  ∃ w', Decrypt msgMetadata payload None w = Panic nil_panic w' ∧ logs_only w w'.
Proof.
  intros Hcold Hne. rewrite Decrypt_unfold.
  destruct (Decrypt_fast_cold msgMetadata payload w Hcold) as (w1 & -> & Hw1).
  destruct (GetEncryptionKeys msgMetadata) as [|e rest]; [done|].
  by exists w1.
Qed.

Lemma getKeyAndDecryptData_keys_miss_step msgMetadata payload k rest w :
  loadingCache (engine w) !! keyDigest (Value k) = None →
  getKeyAndDecryptData_keys (k :: rest) msgMetadata payload w =
  getKeyAndDecryptData_keys rest msgMetadata payload
    (final_world (log (LogDebug (debugNotInCache (logCtx (engine w)))) w)).
Proof.
  intros Hmiss. cbn [getKeyAndDecryptData_keys]. unfold bind at 1. unfold get_engine at 1.
  by rewrite Hmiss.
Qed.

Lemma getKeyAndDecryptData_keys_bad_nonce msgMetadata payload : ∀ keys w,
  length (bytes_of (GetEncryptionParam msgMetadata)) ≠ gcmStandardNonceSize →
  (∀ e k, e ∈ keys → loadingCache (engine w) !! keyDigest (Value e) = Some k →
     aes_key_size_ok (length k) = true) →
  ∃ w', logs_only w w' ∧
    ((getKeyAndDecryptData_keys keys msgMetadata payload w = Panic nonce_panic w') ∨
     (getKeyAndDecryptData_keys keys msgMetadata payload w = Done (None, None) w' ∧
      ∀ e, e ∈ keys → loadingCache (engine w) !! keyDigest (Value e) = None)).
Proof.
  intros keys w Hnonce. revert w.
  induction keys as [|k rest IH]; intros w Hsize.
  { exists w. split; [done|]. right. split; [done|]. by intros e ?%not_elem_of_nil. }
  destruct (loadingCache (engine w) !! keyDigest (Value k)) as [secret|] eqn:Hhit.
  - exists w. split; [done|]. left.
    cbn [getKeyAndDecryptData_keys]. unfold bind at 1. unfold get_engine at 1.
    rewrite Hhit. unfold bind at 1, decryptData, aes_NewCipher.
    rewrite (Hsize k secret); [|by apply elem_of_cons; left|done].
    cbn [cipher_NewGCM BlockSize Nat.eqb]. unfold gcm_Open_nil.
    cbn [NonceSize aead_key block_key]. by rewrite decide_False.
  - rewrite getKeyAndDecryptData_keys_miss_step by done.
    destruct (IH (final_world (log (LogDebug (debugNotInCache (logCtx (engine w)))) w)))
      as (w' & Hw' & Hrest).
    { intros e k0 He. apply Hsize. by apply elem_of_cons; right. }
    exists w'. split; [eapply logs_only_trans; [|done]; done|].
    destruct Hrest as [Hp|[Hd Hmiss]]; [by left|right]. split; [done|].
    intros e [->|He]%elem_of_cons; [done|by apply Hmiss].
Qed.

(** X8: an envelope whose nonce has not the standard length of 12 bytes
    makes [Decrypt] panic rather than fail.  When the reader unwraps at
    least one entry, and the keys that can be tried (cached under an entry's
    fingerprint, or unwrapped from an entry) have an AES length, [Decrypt]
    ends in the panic of [gcm.Open]. *)
Theorem Decrypt_bad_nonce_panics (msgMetadata : MessageMetadata) (payload : slice)
    (kr : KeyReader) (w : World) :
  length (bytes_of (GetEncryptionParam msgMetadata)) ≠ gcmStandardNonceSize →
  unwraps kr (GetEncryptionKeys msgMetadata) ≠ [] →
  (∀ e k, e ∈ GetEncryptionKeys msgMetadata →
     (loadingCache (engine w) !! keyDigest (Value e) = Some k ∨ unwrapKey kr e = Ok k) →
     aes_key_size_ok (length k) = true) →
  ∃ w', Decrypt msgMetadata payload (Some kr) w = Panic nonce_panic w'.
Proof.
  intros Hnonce Hsome Hsize. rewrite Decrypt_unfold.
  assert (∃ w1, logs_only w w1 ∧
            (Decrypt_fast msgMetadata payload (engine w) w = Panic nonce_panic w1 ∨
             Decrypt_fast msgMetadata payload (engine w) w = Done None w1))
    as (w1 & (He1 & _) & [->| ->]); [|by exists w1|].
  { unfold Decrypt_fast. destruct (dataKey (engine w)); [|by exists w; split; [|right]].
    destruct (getKeyAndDecryptData_keys_bad_nonce msgMetadata payload
                (GetEncryptionKeys msgMetadata) w Hnonce) as (w1 & Hw1 & [Hp|[Hd _]]).
    - intros e k Hin Hhit. apply (Hsize e k Hin). by left.
    - exists w1. split; [done|]. left. unfold getKeyAndDecryptData, bind. by rewrite Hp.
    - exists w1. split; [done|]. right. unfold getKeyAndDecryptData. unfold bind at 1.
      by rewrite Hd. }
  destruct (decryptDataKeys_spec kr (GetEncryptionKeys msgMetadata) w1)
    as (w2 & -> & He2 & _).
  rewrite decide_False; [|by intros ?%length_zero_iff_nil].
  destruct (getKeyAndDecryptData_keys_bad_nonce msgMetadata payload
              (GetEncryptionKeys msgMetadata) w2 Hnonce) as (w3 & Hw3 & [Hp|[_ Hmiss]]).
  - intros e k Hin Hhit. rewrite He2, He1 in Hhit.
    apply unwrap_all_cache_from in Hhit as [Hhit|(e' & Hin' & Hu' & _)].
    + apply (Hsize e k Hin). by left.
    + apply (Hsize e' k Hin'). by right.
  - by exists w3.
  - exfalso. destruct (unwraps kr (GetEncryptionKeys msgMetadata)) as [|e l] eqn:Hu; [done|].
    assert (e ∈ unwraps kr (GetEncryptionKeys msgMetadata)) as [Hin [k Hk]]%unwraps_elem
      by (rewrite Hu; apply elem_of_cons; by left).
    destruct (unwrap_all_cache_hit kr e k (GetEncryptionKeys msgMetadata) (engine w1) Hin Hk)
      as [k' Hk'].
    rewrite <-He2, (Hmiss e Hin) in Hk'. done.
Qed.

End DecryptOutcomes.

(** *** The producer's side: wrapping, merging, sealing *)

Section Producer.
Context `{L : CryptoLib} `{G : GoVersion}.

Lemma filter_ext_in {A} (P Q : A → Prop) `{∀ x, Decision (P x)} `{∀ x, Decision (Q x)}
    (l : list A) :
  (∀ x, x ∈ l → P x ↔ Q x) → filter P l = filter Q l.
Proof.
  induction l as [|x l IH]; intros Hpq; [done|].
  rewrite !filter_cons, IH.
  - destruct (decide (P x)) as [Hp|Hp], (decide (Q x)) as [Hq|Hq]; try done.
    + exfalso. apply Hq, (Hpq x); [by apply elem_of_cons; left|done].
    + exfalso. apply Hp, (Hpq x); [by apply elem_of_cons; left|done].
  - intros y Hy. apply Hpq. by apply elem_of_cons; right.
Qed.

Lemma index_keys_None n : ∀ l i m,
  index_keys i l m !! n = None ↔ m !! n = None ∧ n ∉ Key <$> l.
Proof.
  induction l as [|e l IH]; intros i m; simpl.
  - split; [intros Hm; split; [done|apply not_elem_of_nil]|by intros [Hm _]].
  - rewrite IH, lookup_insert_None, not_elem_of_cons.
    split; [intros [[Hm Hne] Hl]|intros [Hm [Hne Hl]]]; split_and!; try done; congruence.
Qed.

(** X9: how [Encrypt] merges the wrapped keys into the key list of the
    metadata.  When the call ends in the key-not-found error the list keeps
    its length; otherwise, whether the payload is then sealed or not, the
    list has grown by one entry for each requested name, counted with its
    repetitions, that named no entry of the list before the call: a name
    that is requested twice and is new to the metadata is appended twice. *)
Theorem Encrypt_merge_length (encKeys : list string) (keyReader : option KeyReader)
    (msgMetadata md' : MessageMetadata) (payload out : slice) (err : option error)
    (w w' : World) :
  Encrypt encKeys keyReader msgMetadata payload w = Done (md', (out, err)) w' →
  length (GetEncryptionKeys md') =
  length (GetEncryptionKeys msgMetadata) +
  (if is_not_found err then 0
   else length (absent_names (GetEncryptionKeys msgMetadata) encKeys)).
Proof.
  intros Hrun. destruct encKeys as [|k encKeys].
  { inversion Hrun; subst. simpl. lia. }
  destruct (Encrypt_inv (k :: encKeys) _ _ _ _ _ _ _ ltac:(done) Hrun) as (r & w1 & Hloop & _ & _ & Hr).
  apply Encrypt_keys_length in Hloop as [Hs Ha].
  destruct r as [[[s t] a]|[[[s t] n] e]]; cbn [loop_shared fst snd] in *.
  - destruct Hr as (-> & -> & _).
    rewrite length_app, settle_length, length_fmap, Hs, Ha. simpl. f_equal.
    unfold absent_names. f_equal. apply list_filter_iff. intros n.
    rewrite index_keys_None, lookup_empty. split; [by intros [_ Hn]|done].
  - destruct Hr as (-> & ->). rewrite settle_length, Hs. lia.
Qed.

Lemma Encrypt_keys_foreign keyReader m (names : list string) (orig : list EncryptionKeys) :
  ∀ encKeys shared touched appended w r w',
  index_ok m shared →
  (∀ n, n ∈ encKeys → n ∈ names) →
  (∀ i e, orig !! i = Some e → Key e ∉ names → shared !! i = Some e ∧ i ∉ touched) →
  Encrypt_keys encKeys keyReader m shared touched appended w = Done r w' →
  ∀ i e, orig !! i = Some e → Key e ∉ names →
    (loop_shared r).1 !! i = Some e ∧ i ∉ (loop_shared r).2.
Proof.
  induction encKeys as [|keyName rest IH];
    intros shared touched appended w r w' Hm Hnames Hinv Hrun.
  { by inversion Hrun; subst. }
  destruct (loadIfAbsent_spec keyName keyReader w) as (w1 & Hstep & _).
  rewrite (Encrypt_keys_step _ _ _ _ _ _ _ _ _ Hstep) in Hrun.
  assert (∀ n, n ∈ rest → n ∈ names) as Hrest.
  { intros n Hn. apply Hnames. by apply elem_of_cons; right. }
  destruct (encryptedDataKeyMap (engine w1) !! keyName) as [keyInfo|].
  - destruct (m !! keyName) as [j|] eqn:Hmj.
    + eapply IH; [by apply index_ok_insert|done| |done].
      intros i e Hi Hk. destruct (Hinv i e Hi Hk) as [Hs Ht].
      assert (j ≠ i) as Hne.
      { intros ->. destruct (Hm keyName i Hmj) as (e' & He' & Hk').
        apply Hk. rewrite Hs in He'. inversion He'; subst e'. rewrite Hk'.
        apply Hnames. by apply elem_of_cons; left. }
      split; [by rewrite list_lookup_insert_ne|].
      by intros [?|?]%elem_of_cons.
    + by eapply IH.
  - by inversion Hrun; subst.
Qed.

(** X10: [Encrypt] leaves the entries of other recipients in place.  An
    entry of the key list whose name is not among the requested names is,
    after the call, at the same position and unchanged, however the call
    ends. *)
Theorem Encrypt_keeps_foreign_entries (encKeys : list string) (keyReader : option KeyReader)
    (msgMetadata md' : MessageMetadata) (payload : slice) (res : slice * option error)
    (w w' : World) (i : nat) (e : EncryptionKeys) :
  Encrypt encKeys keyReader msgMetadata payload w = Done (md', res) w' →
  GetEncryptionKeys msgMetadata !! i = Some e →
  Key e ∉ encKeys →
  GetEncryptionKeys md' !! i = Some e.
Proof.
  intros Hrun Hi Hk. destruct encKeys as [|k encKeys].
  { by inversion Hrun; subst. }
  destruct (Encrypt_inv (k :: encKeys) _ _ _ _ _ _ _ ltac:(done) Hrun) as (r & w1 & Hloop & _ & _ & Hr).
  assert ((loop_shared r).1 !! i = Some e ∧ i ∉ (loop_shared r).2) as [Hs Ht].
  { eapply (Encrypt_keys_foreign keyReader _ (k :: encKeys) (GetEncryptionKeys msgMetadata));
      [apply index_keys_ok|done| |done..].
    intros j e' Hj _. split; [done|apply not_elem_of_nil]. }
  destruct r as [[[s t] a]|[[[s t] n] e0]]; cbn [loop_shared fst snd] in *.
  - destruct Hr as (-> & _). apply lookup_app_l_Some.
    by rewrite settle_lookup_untouched.
  - destruct Hr as (-> & _). by rewrite settle_lookup_untouched.
Qed.

Lemma carried_mono store store' l : store ⊆ store' → carried store l → carried store' l.
Proof.
  intros Hsub Hl e He. destruct (Hl e He) as (n & info & Hn & Hv).
  exists n, info. split; [by eapply lookup_weaken|done].
Qed.

Lemma Encrypt_keys_carried keyReader m : ∀ encKeys shared touched appended w s t a w',
  carried (encryptedDataKeyMap (engine w)) (shared ++ appended) →
  Encrypt_keys encKeys keyReader m shared touched appended w = Done (inl (s, t, a)) w' →
  carried (encryptedDataKeyMap (engine w')) (s ++ a).
Proof.
  induction encKeys as [|keyName rest IH]; intros shared touched appended w s t a w' Hc Hrun.
  { by inversion Hrun; subst. }
  destruct (loadIfAbsent_spec keyName keyReader w) as (w1 & Hstep & _ & _ & _ & [Hsub _] & _).
  rewrite (Encrypt_keys_step _ _ _ _ _ _ _ _ _ Hstep) in Hrun.
  apply (carried_mono _ _ _ Hsub) in Hc.
  destruct (encryptedDataKeyMap (engine w1) !! keyName) as [keyInfo|] eqn:Hs1; [|done].
  destruct (m !! keyName) as [j|].
  - eapply IH; [|done]. intros e [He|He]%elem_of_app.
    + apply list_elem_of_lookup in He as [i Hi].
      apply list_lookup_insert_Some in Hi as [(_ & <- & _)|[_ Hi]].
      * by exists keyName, keyInfo.
      * apply Hc, elem_of_app. left. apply list_elem_of_lookup. by exists i.
    + apply Hc, elem_of_app. by right.
  - eapply IH; [|done]. intros e He. rewrite app_assoc in He.
    apply elem_of_app in He as [He|He]; [by apply Hc|].
    apply list_elem_of_singleton in He as ->. by exists keyName, keyInfo.
Qed.

Lemma Encrypt_keys_other keyReader m n : ∀ encKeys shared touched appended w r w',
  n ∉ encKeys →
  Encrypt_keys encKeys keyReader m shared touched appended w = Done r w' →
  encryptedDataKeyMap (engine w') !! n = encryptedDataKeyMap (engine w) !! n.
Proof.
  induction encKeys as [|keyName rest IH]; intros shared touched appended w r w' Hn Hrun.
  { by inversion Hrun; subst. }
  apply not_elem_of_cons in Hn as [Hne Hn].
  assert (∃ w1, loadIfAbsent keyName keyReader w = Done tt w1 ∧
            encryptedDataKeyMap (engine w1) !! n = encryptedDataKeyMap (engine w) !! n)
    as (w1 & Hstep & Hsame).
  { destruct (encryptedDataKeyMap (engine w) !! keyName) as [info|] eqn:Hs.
    - exists w. split; [by eapply loadIfAbsent_present|done].
    - destruct (loadIfAbsent_absent keyName keyReader w Hs) as (err & w0 & Hadd & ->).
      destruct err as [e|].
      + eexists. split; [reflexivity|]. cbn.
        apply addPublicKeyCipher_failure in Hadd as [-> _]. done.
      + exists w0. split; [done|].
        apply addPublicKeyCipher_wrapped in Hadd as (_ & _ & info & ->).
        by rewrite lookup_insert_ne. }
  rewrite (Encrypt_keys_step _ _ _ _ _ _ _ _ _ Hstep) in Hrun.
  destruct (encryptedDataKeyMap (engine w1) !! keyName) as [keyInfo|].
  - destruct (m !! keyName); apply IH in Hrun; congruence.
  - inversion Hrun; subst. done.
Qed.

Lemma Encrypt_keys_calls keyReader m : ∀ encKeys shared touched appended w s t a w',
  NoDup encKeys →
  Encrypt_keys encKeys keyReader m shared touched appended w = Done (inl (s, t, a)) w' →
  reader_calls w' =
  reader_calls w ++
  (CallGetPublicKey <$> unwrapped_names (encryptedDataKeyMap (engine w)) encKeys).
Proof.
  induction encKeys as [|keyName rest IH]; intros shared touched appended w s t a w' Hnd Hrun.
  { inversion Hrun; subst. simpl. by rewrite app_nil_r. }
  apply NoDup_cons in Hnd as [Hnotin Hnd]. unfold unwrapped_names in *.
  destruct (encryptedDataKeyMap (engine w) !! keyName) as [info|] eqn:Hs.
  - rewrite (Encrypt_keys_step _ _ _ _ _ _ _ _ w (loadIfAbsent_present _ _ _ _ Hs)), Hs in Hrun.
    rewrite filter_cons_False by (by rewrite Hs).
    destruct (m !! keyName); by apply IH in Hrun.
  - destruct (loadIfAbsent_absent keyName keyReader w Hs) as (err & w0 & Hadd & Hload).
    rewrite filter_cons_True by done.
    destruct err as [e|].
    + apply addPublicKeyCipher_failure in Hadd as [He _].
      rewrite (Encrypt_keys_step _ _ _ _ _ _ _ _ _ Hload) in Hrun.
      cbn in Hrun. rewrite He, Hs in Hrun. done.
    + rewrite (Encrypt_keys_step _ _ _ _ _ _ _ _ _ Hload) in Hrun.
      apply addPublicKeyCipher_wrapped in Hadd as (_ & Hcalls & info & Hstore).
      assert (reader_calls w' =
              reader_calls w0 ++
              (CallGetPublicKey <$>
                 filter (fun n => encryptedDataKeyMap (engine w0) !! n = None) rest)) as ->.
      { destruct (encryptedDataKeyMap (engine w0) !! keyName); [|done].
        destruct (m !! keyName); by apply IH in Hrun. }
      rewrite Hcalls, fmap_cons, <-app_assoc. simpl. do 3 f_equal.
      apply filter_ext_in. intros n Hn. rewrite Hstore, lookup_insert_ne; [done|].
      by intros ->.
Qed.

(** X11: lazy wrapping asks the reader exactly for the names that need it.
    In an [Encrypt] over distinct names that seals its payload, the
    public-key lookups made are those of the requested names that had no
    wrapped key in the store, once each and in the order of the request; and
    the store entry of every name that was not requested is as before. *)
Theorem Encrypt_lookups (encKeys : list string) (keyReader : option KeyReader)
    (msgMetadata md' : MessageMetadata) (payload out : slice) (w w' : World) :
  NoDup encKeys →
  Encrypt encKeys keyReader msgMetadata payload w = Done (md', (out, None)) w' →
  reader_calls w' =
    reader_calls w ++
    (CallGetPublicKey <$> unwrapped_names (encryptedDataKeyMap (engine w)) encKeys) ∧
  ∀ n, n ∉ encKeys →
    encryptedDataKeyMap (engine w') !! n = encryptedDataKeyMap (engine w) !! n.
Proof.
  intros Hnd Hrun. destruct encKeys as [|k encKeys].
  { inversion Hrun; subst. simpl. by rewrite app_nil_r. }
  destruct (Encrypt_inv (k :: encKeys) _ _ _ _ _ _ _ ltac:(done) Hrun) as (r & w1 & Hloop & He & Hc & Hr).
  destruct r as [[[s t] a]|[[[s t] n] e]]; [|by destruct Hr].
  split.
  - rewrite Hc. by eapply Encrypt_keys_calls.
  - intros n Hn. rewrite He. by eapply Encrypt_keys_other.
Qed.

(** X12: what a successful [Encrypt] returns.  With no recipient the
    payload comes back as it is, nil or not, and neither the metadata nor
    the world changes.  With recipients the engine has a data key of 16, 24
    or 32 bytes, which the call leaves in place; the metadata holds a nonce
    of 12 bytes drawn from the random source; and the output is the non-nil
    AES-GCM sealing of the bytes of the payload under that key and nonce. *)
Theorem Encrypt_success_shape (encKeys : list string) (keyReader : option KeyReader)
    (msgMetadata md' : MessageMetadata) (payload out : slice) (w w' : World) :
  Encrypt encKeys keyReader msgMetadata payload w = Done (md', (out, None)) w' →
  (encKeys = [] ∧ out = payload ∧ md' = msgMetadata ∧ w' = w) ∨
  (encKeys ≠ [] ∧
   ∃ key nonce,
     dataKey (engine w) = Some key ∧ dataKey (engine w') = Some key ∧
     aes_key_size_ok (length key) = true ∧
     length nonce = gcmStandardNonceSize ∧
     GetEncryptionParam md' = Some nonce ∧
     out = Some (gcm_Seal key nonce (bytes_of payload))).
Proof.
  intros Hrun. destruct encKeys as [|k encKeys].
  { left. by inversion Hrun; subst. }
  right. split; [done|].
  destruct (Encrypt_spec (k :: encKeys) keyReader msgMetadata payload w _ _ _
              ltac:(done) Hrun) as (Hdk & _ & _ & Hres).
  inversion Hres as [| |? ? nonce Hsize Hnonce Hparam Hall]; subst.
  destruct (dataKey (engine w)) as [key|] eqn:Hkey; [|done].
  exists key, nonce. by rewrite Hdk.
Qed.

Lemma Encrypt_present_frame encKeys keyReader msgMetadata payload w o :
  (∀ n, n ∈ encKeys → is_Some (encryptedDataKeyMap (engine w) !! n)) →
  Encrypt encKeys keyReader msgMetadata payload w = o →
  engine (final_world o) = engine w ∧
  reader_calls (final_world o) = reader_calls w ∧
  ∀ md' out w', o = Done (md', (out, None)) w' →
    encKeys ≠ [] →
    ∃ nonce, rand_Read gcmStandardNonceSize (entropy w) = (Ok nonce, entropy w') ∧
      GetEncryptionParam md' = Some nonce.
Proof.
  intros Hall. unfold Encrypt. case_decide as Hlen.
  { intros <-. split_and!; [done..|]. intros md' out w' _ Hne. by destruct encKeys. }
  destruct (negb (keyed (GetEncryptionKeys msgMetadata))).
  { unfold panic. intros <-. split_and!; [done..|]. by intros md' out w' [=]. }
  destruct (Encrypt_keys_present keyReader (index_keys 0 (GetEncryptionKeys msgMetadata) ∅)
              [] encKeys (GetEncryptionKeys msgMetadata) [] [] w Hall)
    as (s & t & a & Hloop).
  rewrite app_nil_r in Hloop. unfold bind at 1. rewrite Hloop.
  cbn [Encrypt_keys]. unfold ret at 1.
  destruct msgMetadata as [message|].
  2:{ unfold panic. intros <-. split_and!; [done..|]. by intros md' out w' [=]. }
  unfold bind at 1. unfold get_engine at 1. unfold aes_NewCipher.
  destruct (aes_key_size_ok (length (bytes_of (dataKey (engine w))))).
  - cbn [cipher_NewGCM BlockSize Nat.eqb NonceSize aead_key block_key].
    unfold bind at 1, with_entropy.
    destruct (rand_Read gcmStandardNonceSize (entropy w)) as [[nonce|e] r'] eqn:Hrand.
    + munfold. intros <-. split_and!; [done..|].
      intros md' out w' [= <- <- <-] _. by exists nonce.
    + munfold. intros <-. split_and!; [done..|]. by intros md' out w' [=].
  - munfold. intros <-. split_and!; [done..|]. by intros md' out w' [=].
Qed.

(** X13: [Encrypt] does not wrap again for a name that has a wrapped key in
    the store.  When every requested name has one, and the call is given a
    message none of whose entries has a nil key name, the call returns;
    whether with an error or not, it has made no lookup on the key reader
    (which may be nil) and has left the engine as it was; every requested
    name gets, in the key list of the metadata, an entry carrying the stored
    bytes; and when the payload is sealed, the nonce is the next 12 bytes of
    the random source. *)
Theorem Encrypt_uses_stored_keys (encKeys : list string) (keyReader : option KeyReader)
    (msgMetadata : MessageMetadata) (payload : slice) (w : World) :
  encKeys ≠ [] →
  (∀ n, n ∈ encKeys → is_Some (encryptedDataKeyMap (engine w) !! n)) →
  msgMetadata ≠ None →
  keyed (GetEncryptionKeys msgMetadata) = true →
  ∃ md' out err w',
    Encrypt encKeys keyReader msgMetadata payload w = Done (md', (out, err)) w' ∧
    engine w' = engine w ∧
    reader_calls w' = reader_calls w ∧
    (∀ n, n ∈ encKeys →
       has_wrapped_key (encryptedDataKeyMap (engine w)) n (GetEncryptionKeys md')) ∧
    (err = None →
     ∃ nonce, rand_Read gcmStandardNonceSize (entropy w) = (Ok nonce, entropy w') ∧
       GetEncryptionParam md' = Some nonce).
Proof.
  intros Hne Hall Hmsg Hkeyed.
  destruct (Encrypt_returns encKeys keyReader msgMetadata payload w Hkeyed Hmsg)
    as (md' & [out err] & w' & Hrun).
  destruct (Encrypt_spec encKeys keyReader msgMetadata payload w _ _ _ Hne Hrun)
    as (_ & _ & [Hsub _] & Hres).
  destruct (Encrypt_present_frame encKeys keyReader msgMetadata payload w _ Hall Hrun)
    as (He & Hc & Hnonce).
  cbn [final_world] in He, Hc.
  exists md', out, err, w'. split_and!; [done..| |].
  - rewrite <-He.
    inversion Hres as [? ? n wn e0 wn' Hn Hnone| |]; subst; [|done..].
    destruct (Hall n Hn) as [info Hinfo].
    rewrite (lookup_weaken _ _ _ _ Hinfo Hsub) in Hnone. done.
  - intros ->. by eapply Hnonce.
Qed.

Lemma AddPublicKeyCipher_inv keyNames keyReader w err w' key w0 :
  generateDataKey w = Done (Ok key) w0 →
  AddPublicKeyCipher keyNames keyReader w = Done err w' →
  engine w0 = engine w ∧ reader_calls w0 = reader_calls w ∧ length key = 32 ∧
  addPublicKeyCiphers keyNames keyReader
    (final_world (modify_engine (set_dataKey (Some key)) w0)) = Done err w'.
Proof.
  intros Hgen. unfold AddPublicKeyCipher. unfold bind at 1. rewrite Hgen.
  destruct (generateDataKey_spec w) as (r & w0' & Hgen' & He & _ & Hc & Hlen).
  rewrite Hgen in Hgen'. inversion Hgen'; subst r w0'.
  intros Hrun. split_and!; [done|done|by apply Hlen|done].
Qed.

(** X14: a wrapped key that a rotation does not renew goes on being used.
    The store holds a wrapped key for [n]; an [AddPublicKeyCipher] over
    names other than [n] replaces the data key by [key'].  An [Encrypt] that
    then seals for [n] makes no new wrapping: the store still holds the old
    bytes for [n], the envelope carries them, and the payload is sealed
    under [key']. *)
Theorem Encrypt_ships_stale_key (n : string) (info : EncryptionKeyInfo)
    (keyNames2 encKeys : list string) (keyReader2 keyReader : option KeyReader)
    (msgMetadata md' : MessageMetadata) (payload ct : slice)
    (w w0 w1 w2 : World) (err : option error) (key' : list byte) :
  encryptedDataKeyMap (engine w) !! n = Some info →
  n ∉ keyNames2 →
  generateDataKey w = Done (Ok key') w0 →
  AddPublicKeyCipher keyNames2 keyReader2 w = Done err w1 →
  n ∈ encKeys →
  Encrypt encKeys keyReader msgMetadata payload w1 = Done (md', (ct, None)) w2 →
  encryptedDataKeyMap (engine w2) !! n = Some info ∧
  (∃ e, e ∈ GetEncryptionKeys md' ∧ Value e = GetKey info) ∧
  ∃ nonce, GetEncryptionParam md' = Some nonce ∧
    ct = Some (gcm_Seal key' nonce (bytes_of payload)).
Proof.
  intros Hinfo Hn Hgen Hrot HnE Hrun.
  destruct (AddPublicKeyCipher_inv _ _ _ _ _ _ _ Hgen Hrot) as (He0 & _ & _ & Hloop).
  pose proof (addPublicKeyCiphers_keeps keyReader2 n keyNames2 _ _ _ Hloop Hn) as Hkeep.
  destruct (addPublicKeyCiphers_spec keyReader2 keyNames2
              (final_world (modify_engine (set_dataKey (Some key')) w0)))
    as (err' & w1' & Hloop' & Hdk & _).
  rewrite Hloop in Hloop'. inversion Hloop'; subst err' w1'. clear Hloop'.
  cbn in Hkeep, Hdk. rewrite He0, Hinfo in Hkeep.
  assert (encKeys ≠ []) as Hne by (intros ->; by apply not_elem_of_nil in HnE).
  destruct (Encrypt_spec encKeys keyReader msgMetadata payload w1 _ _ _ Hne Hrun)
    as (_ & _ & [Hsub _] & Hres).
  pose proof (lookup_weaken _ _ _ _ Hkeep Hsub) as Hin2.
  inversion Hres as [| |? ? nonce Hsize Hnonce Hparam Hall]; subst.
  split_and!; [done| |].
  - destruct (Hall n HnE) as (e & info' & He & Hin & Hv & _).
    exists e. split; [done|]. congruence.
  - exists nonce. split; [done|]. by rewrite Hdk.
Qed.

(** X15: removing a name makes the next [Encrypt] wrap anew.  After
    [RemoveKeyCipher] of a non-empty name [n], which returns true whether or
    not the store had an entry, an [Encrypt] that seals for [n] has wrapped
    the engine's current data key with the public key the reader gives for
    [n], has stored that wrapping, and carries it in the envelope. *)
Theorem RemoveKeyCipher_then_Encrypt_rewraps (n : string) (encKeys : list string)
    (keyReader : option KeyReader) (msgMetadata md' : MessageMetadata) (payload ct : slice)
    (w w1 w2 : World) (removed : bool) :
  n ≠ "" →
  n ∈ encKeys →
  RemoveKeyCipher n w = Done removed w1 →
  Encrypt encKeys keyReader msgMetadata payload w1 = Done (md', (ct, None)) w2 →
  removed = true ∧
  ∃ kr info, keyReader = Some kr ∧
    encryptedDataKeyMap (engine w2) !! n = Some info ∧
    wrapped_by kr n (bytes_of (dataKey (engine w))) info ∧
    ∃ e, e ∈ GetEncryptionKeys md' ∧ Value e = GetKey info.
Proof.
  intros Hne HnE Hrm Hrun.
  unfold RemoveKeyCipher in Hrm. rewrite decide_False in Hrm by done.
  revert Hrm. munfold. intros [= <- <-]. split; [done|].
  assert (encKeys ≠ []) as HneE by (intros ->; by apply not_elem_of_nil in HnE).
  destruct (Encrypt_spec encKeys keyReader msgMetadata payload _ _ _ _ HneE Hrun)
    as (_ & _ & [_ Hnew] & Hres).
  inversion Hres as [| |? ? nonce Hsize Hnonce Hparam Hall]; subst.
  destruct (Hall n HnE) as (e & info & He & Hin & Hv & _).
  destruct (Hnew n info Hin) as [Hold|(kr & -> & Hw)].
  { cbn in Hold. by rewrite lookup_delete_eq in Hold. }
  exists kr, info. split_and!; [done..|]. by exists e.
Qed.

Lemma addPublicKeyCiphers_calls keyReader : ∀ keyNames w w',
  addPublicKeyCiphers keyNames keyReader w = Done None w' →
  reader_calls w' = reader_calls w ++ (CallGetPublicKey <$> keyNames) ∧
  ∀ n, n ∈ keyNames → n ≠ "".
Proof.
  induction keyNames as [|keyName rest IH]; intros w w' Hrun.
  { inversion Hrun; subst. simpl. rewrite app_nil_r. split; [done|].
    by intros n ?%not_elem_of_nil. }
  cbn [addPublicKeyCiphers] in Hrun. unfold bind at 1 in Hrun.
  destruct (addPublicKeyCipher keyName keyReader w) as [[e|] w1|msg w1] eqn:Hadd; [done| |done].
  apply addPublicKeyCipher_wrapped in Hadd as (Hne & Hc & _).
  apply IH in Hrun as [Hc' Hall]. split.
  - by rewrite Hc', Hc, fmap_cons, <-app_assoc.
  - by intros n [->|Hn]%elem_of_cons; [|apply Hall].
Qed.

(** X16: what a successful [AddPublicKeyCipher] has done.  The engine has a
    new data key of 32 bytes; the reader has been asked once for each name,
    in order; every name, none of them empty, has in the store a wrapping of
    the new key, so that a name added before is overwritten; and the entries
    of the names that were not given are as before, still wrapping the
    previous key. *)
Theorem AddPublicKeyCipher_success (keyNames : list string) (keyReader : option KeyReader)
    (w w' : World) :
  AddPublicKeyCipher keyNames keyReader w = Done None w' →
  ∃ key, dataKey (engine w') = Some key ∧ length key = 32 ∧
    reader_calls w' = reader_calls w ++ (CallGetPublicKey <$> keyNames) ∧
    (∀ n, n ∈ keyNames →
       n ≠ "" ∧
       ∃ kr info, keyReader = Some kr ∧
         encryptedDataKeyMap (engine w') !! n = Some info ∧ wrapped_by kr n key info) ∧
    (∀ n, n ∉ keyNames →
       encryptedDataKeyMap (engine w') !! n = encryptedDataKeyMap (engine w) !! n).
Proof.
  intros Hrun.
  destruct (generateDataKey w) as [[key|e] w0|msg w0] eqn:Hgen.
  2,3: by revert Hrun; unfold AddPublicKeyCipher, bind; rewrite Hgen.
  destruct (AddPublicKeyCipher_inv _ _ _ _ _ _ _ Hgen Hrun) as (He0 & Hc0 & Hlen & Hloop).
  destruct (addPublicKeyCiphers_spec keyReader keyNames
              (final_world (modify_engine (set_dataKey (Some key)) w0)))
    as (err' & w1' & Hloop' & Hdk & _ & _ & _ & Hall).
  rewrite Hloop in Hloop'. inversion Hloop'; subst err' w1'. clear Hloop'.
  destruct (addPublicKeyCiphers_calls _ _ _ _ Hloop) as [Hcalls Hnames].
  exists key. cbn in Hdk, Hcalls, Hall. split_and!; [done|done|congruence| |].
  - intros n Hn. split; [by apply Hnames|]. by apply Hall.
  - intros n Hn. rewrite (addPublicKeyCiphers_keeps _ _ _ _ _ _ Hloop Hn). cbn.
    by rewrite He0.
Qed.

(** X17: [AddPublicKeyCipher] replaces the data key before it looks at its
    arguments.  When the random source delivers a key and the reader is nil
    or the first name is empty, the call fails with the
    empty-name-or-reader error without asking the reader and without
    touching the store; yet the engine has the new data key, while the store
    holds the wrapped keys it held before the call. *)
Theorem AddPublicKeyCipher_rejected_still_rotates (n : string) (rest : list string)
    (keyReader : option KeyReader) (w w0 : World) (key : list byte) :
  generateDataKey w = Done (Ok key) w0 →
  keyReader = None ∨ n = "" →
  ∃ w', AddPublicKeyCipher (n :: rest) keyReader w = Done (Some errEmptyKeyNameOrKeyReader) w' ∧
    dataKey (engine w') = Some key ∧
    encryptedDataKeyMap (engine w') = encryptedDataKeyMap (engine w) ∧
    reader_calls w' = reader_calls w.
Proof.
  intros Hgen Hbad.
  destruct (generateDataKey_spec w) as (r & w0' & Hgen' & He & _ & Hc & _).
  rewrite Hgen in Hgen'. inversion Hgen'; subst r w0'.
  unfold AddPublicKeyCipher. unfold bind at 1. rewrite Hgen.
  unfold bind at 1. unfold modify_engine at 1.
  cbn [addPublicKeyCiphers]. unfold bind at 1.
  assert (∀ w1, addPublicKeyCipher n keyReader w1 = Done (Some errEmptyKeyNameOrKeyReader) w1)
    as Hrej.
  { intros w1. unfold addPublicKeyCipher. destruct keyReader as [kr|]; [|done].
    destruct Hbad as [?|Hn]; [done|]. by rewrite decide_True. }
  rewrite Hrej.
  eexists. split; [reflexivity|]. cbn. by rewrite He.
Qed.

End Producer.

(** *** The consumer's side: hints, adopted keys, missing files *)

Section Consumer.
Context `{L : CryptoLib} `{G : GoVersion}.

Lemma keyMeta_of_pairs_from (l : list (string * string)) : ∀ acc : gmap string string,
  NoDup l.*1 →
  foldl (fun m k => <[kv_Key k := kv_Value k]> m) acc (pair_of <$> l) = list_to_map l ∪ acc.
Proof.
  induction l as [|[k v] l IH]; intros acc Hnd.
  { simpl. by rewrite (left_id_L ∅ (∪)). }
  apply NoDup_cons in Hnd as [Hk Hnd].
  cbn [fmap list_fmap foldl pair_of kv_Key kv_Value fst snd list_to_map foldr].
  fold (@fmap list _ _ _ pair_of l). fold (@list_to_map string string (gmap string string) _ _ l).
  rewrite (IH _ Hnd).
  rewrite <-insert_union_l, insert_union_r; [done|].
  by apply not_elem_of_list_to_map_1.
Qed.

Lemma keyMeta_of_replicate (n : nat) (kv : KeyValue) :
  keyMeta_of (replicate (S n) kv) = {[kv_Key kv := kv_Value kv]}.
Proof.
  unfold keyMeta_of.
  assert (∀ acc : gmap string string,
            foldl (fun m k => <[kv_Key k := kv_Value k]> m) acc (replicate (S n) kv) =
            <[kv_Key kv := kv_Value kv]> acc) as Hfold.
  { induction n as [|n IH]; intros acc; [done|].
    change (replicate (S (S n)) kv) with (kv :: replicate (S n) kv).
    cbn [foldl]. by rewrite IH, insert_insert_eq. }
  by rewrite Hfold, insert_empty.
Qed.

(** X18: the key metadata on its way from the public-key lookup to the
    private-key lookup.  [Encrypt] turns the metadata of a wrapped key into
    key-value pairs that hold the addresses of its two range variables, and
    [decryptDataKey] folds the pairs back into the map it hands to
    [GetPrivateKey] as hints.  When each iteration has its own variables the
    hints are the metadata; when the loop has one pair of variables, all
    pairs read alike and the hints are a single entry of the metadata,
    whatever its size. *)
Theorem hints_round_trip (keyName : string) (keyInfo : EncryptionKeyInfo) :
  let hints := keyMeta_of (Metadata (newEncryptionKey keyName keyInfo)) in
  if loopvar_per_iteration then hints = GetMetadata keyInfo
  else hints ⊆ GetMetadata keyInfo ∧ size hints = size (GetMetadata keyInfo) `min` 1.
Proof.
  cbv zeta. unfold newEncryptionKey. cbn [Metadata].
  generalize (GetMetadata keyInfo). intros m. case_bool_decide as Hsize.
  2:{ assert (m = ∅) as -> by (apply map_size_empty_iff; lia).
      change (keyMeta_of []) with (∅ : gmap string string).
      rewrite map_size_empty. by destruct loopvar_per_iteration. }
  unfold keyMetadata_of. fold pair_of.
  destruct loopvar_per_iteration.
  - unfold keyMeta_of. rewrite keyMeta_of_pairs_from by apply NoDup_fst_map_to_list.
    by rewrite (right_id_L ∅ (∪)), list_to_map_to_list.
  - destruct (last (pair_of <$> map_to_list m)) as [kv|] eqn:Hlast.
    + assert (length (pair_of <$> map_to_list m) = size m) as Hlen.
      { by rewrite length_fmap, length_map_to_list. }
      destruct (length (pair_of <$> map_to_list m)) as [|n]; [lia|].
      rewrite keyMeta_of_replicate, map_size_singleton.
      split; [|lia].
      apply map_singleton_subseteq_l.
      apply last_Some in Hlast as [l' Hl'].
      assert (kv ∈ pair_of <$> map_to_list m) as Hin.
      { rewrite Hl'. apply elem_of_app. right. by apply list_elem_of_singleton. }
      apply list_elem_of_fmap in Hin as ([k v] & -> & Hin).
      by apply elem_of_map_to_list.
    + apply last_None in Hlast. apply fmap_nil_inv in Hlast.
      apply map_to_list_empty_iff in Hlast. rewrite Hlast, map_size_empty in Hsize. lia.
Qed.

Lemma unwrap_all_app kr l2 : ∀ l1 d,
  unwrap_all kr (l1 ++ l2) d = unwrap_all kr l2 (unwrap_all kr l1 d).
Proof. induction l1 as [|e l1 IH]; intros d; [done|]. simpl. apply IH. Qed.

(** The slow path, entered because no cached key can be tried. *)
Lemma Decrypt_cold_run msgMetadata payload kr w :
  cold (engine w) (GetEncryptionKeys msgMetadata) →
  ∃ w2,
    engine w2 = unwrap_all kr (GetEncryptionKeys msgMetadata) (engine w) ∧
    reader_calls w2 = reader_calls w ++ (private_call_of <$> GetEncryptionKeys msgMetadata) ∧
    Decrypt msgMetadata payload (Some kr) w =
    if decide (length (unwraps kr (GetEncryptionKeys msgMetadata)) = 0)
    then Done (None, Some errDataKeyDecryption) w2
    else getKeyAndDecryptData msgMetadata payload w2.
Proof.
  intros Hcold. rewrite Decrypt_unfold.
  destruct (Decrypt_fast_cold msgMetadata payload w Hcold) as (w1 & -> & He1 & _ & Hc1).
  destruct (decryptDataKeys_spec kr (GetEncryptionKeys msgMetadata) w1)
    as (w2 & -> & He2 & Hc2).
  exists w2. split_and!; [congruence|congruence|done].
Qed.

(** X19: the slow path of [Decrypt] replaces the engine's data key by a key
    taken from the message.  When no cached key can be tried, after
    [Decrypt], whether it returns or panics, the data key of the engine is
    the key unwrapped from the last entry of the envelope that the reader
    unwraps, and the cache holds that key under the fingerprint of the
    entry; an engine that also produces seals its next message under this
    key. *)
Theorem Decrypt_adopts_last_key (msgMetadata : MessageMetadata) (payload : slice)
    (kr : KeyReader) (w w' : World) (pre post : list EncryptionKeys) (e : EncryptionKeys)
    (k : list byte) :
  cold (engine w) (GetEncryptionKeys msgMetadata) →
  GetEncryptionKeys msgMetadata = pre ++ e :: post →
  unwrapKey kr e = Ok k →
  unwraps kr post = [] →
  final_world (Decrypt msgMetadata payload (Some kr) w) = w' →
  dataKey (engine w') = Some k ∧
  loadingCache (engine w') !! keyDigest (Value e) = Some k.
Proof.
  intros Hcold Hkeys Hu Hpost Hfinal.
  destruct (Decrypt_cold_run msgMetadata payload kr w Hcold) as (w2 & He2 & _ & Hrun).
  assert (engine w' = engine w2) as ->.
  { rewrite <-Hfinal, Hrun. case_decide; [done|].
    apply getKeyAndDecryptData_keeps_engine. }
  rewrite He2, Hkeys, unwrap_all_app. cbn [unwrap_all]. rewrite Hu.
  rewrite unwraps_nil by done. cbn. by rewrite lookup_insert_eq.
Qed.

Lemma unwraps_none kr keys :
  (∀ e, e ∈ keys → is_Ok (unwrapKey kr e) = false) → unwraps kr keys = [].
Proof.
  induction keys as [|e keys IH]; intros Hall; [done|].
  unfold unwraps. rewrite filter_cons_False.
  - apply IH. intros e' He'. apply Hall. by apply elem_of_cons; right.
  - rewrite (Hall e); [done|]. by apply elem_of_cons; left.
Qed.

(** X20: the file-backed key reader on a path that has no file.  A producer
    whose reader has no public-key file gets from [AddPublicKeyCipher] the
    error of the read, with the store untouched and the data key replaced
    all the same; a consumer whose reader has no private-key file, and for
    which no cached key can be tried, gets from [Decrypt] the data-key
    decryption error, with the engine untouched. *)
Theorem DefaultKeyReader_missing_file (files : gmap string (list byte)) (path other : string) :
  files !! path = None →
  (∀ n rest w w0 key,
     n ≠ "" →
     generateDataKey w = Done (Ok key) w0 →
     ∃ w', AddPublicKeyCipher (n :: rest) (Some (NewDefaultKeyReader files path other)) w =
             Done (Some (lib_error "open: no such file or directory")) w' ∧
       encryptedDataKeyMap (engine w') = encryptedDataKeyMap (engine w) ∧
       dataKey (engine w') = Some key) ∧
  (∀ msgMetadata payload w,
     cold (engine w) (GetEncryptionKeys msgMetadata) →
     ∃ w', Decrypt msgMetadata payload (Some (NewDefaultKeyReader files other path)) w =
             Done (None, Some errDataKeyDecryption) w' ∧
       engine w' = engine w).
Proof.
  intros Hfile. split.
  - intros n rest w w0 key Hne Hgen.
    destruct (generateDataKey_spec w) as (r & w0' & Hgen' & He & _).
    rewrite Hgen in Hgen'. inversion Hgen'; subst r w0'.
    unfold AddPublicKeyCipher. unfold bind at 1. rewrite Hgen.
    unfold bind at 1. unfold modify_engine at 1.
    cbn [addPublicKeyCiphers]. unfold bind at 1.
    unfold addPublicKeyCipher. rewrite decide_False by done.
    unfold bind at 1. unfold record_call at 1.
    cbn [GetPublicKey NewDefaultKeyReader]. unfold readKey. rewrite Hfile.
    eexists. split; [reflexivity|]. cbn. by rewrite He.
  - intros msgMetadata payload w Hcold.
    destruct (Decrypt_cold_run msgMetadata payload
                (NewDefaultKeyReader files other path) w Hcold) as (w2 & He2 & _ & ->).
    assert (unwraps (NewDefaultKeyReader files other path) (GetEncryptionKeys msgMetadata) = [])
      as Hnone.
    { apply unwraps_none. intros e _. unfold unwrapKey.
      cbn [GetPrivateKey NewDefaultKeyReader]. unfold readKey. by rewrite Hfile. }
    rewrite Hnone, decide_True by done.
    exists w2. split; [done|]. by rewrite He2, unwraps_nil.
Qed.

End Consumer.

(** *** Round trip through the file-backed key reader *)

Section FileReader.
Context `{L : CryptoLib} {HL : CryptoLaws L} `{G : GoVersion}.

(** X21: round trip through the file-backed key reader.  The public-key
    file and the private-key file hold the two halves of one RSA key pair.
    A producer whose store is empty seals a payload for any non-empty list
    of names into a metadata without entries; a consumer whose cache is
    empty decrypts the result.  Then [Decrypt] returns the bytes of the
    payload with no error: the reader ignores the key name, so every entry
    of the envelope unwraps to the sealing key, and the names the entries
    bear play no part. *)
Theorem DefaultKeyReader_round_trip (files : gmap string (list byte))
    (publicKeyPath privateKeyPath other1 other2 : string) (pubPem privPem : list byte)
    (priv : RSAPrivateKey) (encKeys : list string) (payload ct : slice)
    (msgMetadata md' : MessageMetadata) (w w1 wc : World) :
  files !! publicKeyPath = Some pubPem →
  loadPublicKey pubPem = Ok (Some (rsa_PublicKey_of priv)) →
  files !! privateKeyPath = Some privPem →
  loadPrivateKey privPem = Ok (Some priv) →
  encryptedDataKeyMap (engine w) = ∅ →
  encKeys ≠ [] →
  GetEncryptionKeys msgMetadata = [] →
  Encrypt encKeys (Some (NewDefaultKeyReader files publicKeyPath other1))
    msgMetadata payload w =
    Done (md', (ct, None)) w1 →
  loadingCache (engine wc) = ∅ →
  ∃ out wc',
    Decrypt md' ct (Some (NewDefaultKeyReader files other2 privateKeyPath)) wc =
      Done (out, None) wc' ∧
    bytes_of out = bytes_of payload.
Proof.
  intros Hpub Hloadpub Hpriv Hloadpriv Hstore Hne Hempty Hrun Hcache.
  set (kr := NewDefaultKeyReader files publicKeyPath other1) in *.
  set (kr2 := NewDefaultKeyReader files other2 privateKeyPath).
  set (key := bytes_of (dataKey (engine w))).
  destruct (Encrypt_spec encKeys (Some kr) msgMetadata payload w _ _ _ Hne Hrun)
    as (_ & _ & [_ Hnew] & Hres).
  inversion Hres as [| |? ? nonce Hsize Hnonce Hparam Hall]; subst.
  fold key in Hsize, Hnew |- *.
  destruct (Encrypt_inv encKeys _ _ _ _ _ _ _ Hne Hrun) as (r & w0 & Hloop & He0 & _ & Hr).
  destruct r as [[[s t] a]|[[[s t] n] e]]; [|by destruct Hr].
  destruct Hr as (Hkeys & _).
  assert (carried (encryptedDataKeyMap (engine w1)) (s ++ a)) as Hcarried.
  { rewrite He0. eapply Encrypt_keys_carried; [|exact Hloop].
    rewrite Hempty. by intros e ?%not_elem_of_nil. }
  assert (∀ e, e ∈ GetEncryptionKeys md' → unwrapKey kr2 e = Ok key) as Hunwrap.
  { intros e He. rewrite Hkeys in He.
    apply settled_Value in He as (e0 & He0' & Hv).
    destruct (Hcarried e0 He0') as (n & info & Hin & Hv0).
    destruct (Hnew n info Hin) as [Hold|(kr0 & [= <-] & pubInfo & pub & r & r' & Hp & Hl & Henc & _)].
    { by rewrite Hstore, lookup_empty in Hold. }
    cbn [kr GetPublicKey NewDefaultKeyReader] in Hp. unfold readKey in Hp.
    rewrite Hpub in Hp. inversion Hp; subst pubInfo. cbn [GetKey] in Hl.
    rewrite Hloadpub in Hl. inversion Hl; subst pub.
    unfold unwrapKey. cbn [kr2 GetPrivateKey NewDefaultKeyReader]. unfold readKey.
    rewrite Hpriv. cbn [GetKey]. rewrite Hloadpriv, Hv, Hv0.
    by eapply rsa_oaep_correct. }
  destruct encKeys as [|n0 encKeys]; [done|].
  destruct (Hall n0) as (eR & _ & HeR & _); [by apply elem_of_cons; left|].
  destruct (Decrypt_sealed md' nonce key (bytes_of payload) kr2 wc eR) as (wc' & Hdec);
    try done.
  - by apply Hunwrap.
  - intros e k He Hu. rewrite (Hunwrap e He) in Hu. by inversion Hu.
  - intros e k _ Hhit. by rewrite Hcache, lookup_empty in Hhit.
  - exists (nonnil (bytes_of payload)), wc'. split; [done|]. apply bytes_of_nonnil.
Qed.

End FileReader.

(** *** The names that the entries of the envelope bear *)

Section EntryNames.
Context `{L : CryptoLib} `{G : GoVersion}.

Lemma Encrypt_keys_names keyReader m : ∀ encKeys shared touched appended w s t a w',
  index_ok m shared →
  Encrypt_keys encKeys keyReader m shared touched appended w = Done (inl (s, t, a)) w' →
  Key <$> s = Key <$> shared ∧
  Key <$> a = (Key <$> appended) ++ filter (fun n => m !! n = None) encKeys.
Proof.
  induction encKeys as [|keyName rest IH]; intros shared touched appended w s t a w' Hm Hrun.
  { inversion Hrun; subst. by rewrite app_nil_r. }
  destruct (loadIfAbsent_spec keyName keyReader w) as (w1 & Hstep & _).
  rewrite (Encrypt_keys_step _ _ _ _ _ _ _ _ _ Hstep) in Hrun.
  destruct (encryptedDataKeyMap (engine w1) !! keyName) as [keyInfo|]; [|done].
  destruct (m !! keyName) as [i|] eqn:Hmi.
  - apply IH in Hrun as [Hs Ha]; [|by apply index_ok_insert].
    rewrite filter_cons_False by (by rewrite Hmi). split; [|done].
    rewrite Hs, list_fmap_insert. apply list_insert_id.
    destruct (Hm keyName i Hmi) as (e & He & Hk).
    by rewrite list_lookup_fmap, He, <-Hk.
  - apply IH in Hrun as [Hs Ha]; [|done].
    rewrite filter_cons_True by done. split; [done|].
    by rewrite Ha, fmap_app, <-app_assoc.
Qed.

Lemma settle_same final touched shared :
  loopvar_per_iteration = true → settle final touched shared = shared.
Proof.
  intros Hg. unfold settle. induction touched as [|i t IH]; simpl; [done|].
  rewrite IH. apply list_alter_id. intros e. by apply point_to_same.
Qed.

(** X22: the names that the entries made by [Encrypt] bear.  The entries
    hold the address of the loop variable [keyName].  When the loop over the
    requested names has run to its end: if each iteration has its own
    variable, the key list reads as the names it had before the call
    followed by the requested names that were new to it; if the loop has one
    variable, every entry appended by the call reads as named by the last
    requested name. *)
Theorem Encrypt_entry_names (encKeys : list string) (keyReader : option KeyReader)
    (msgMetadata md' : MessageMetadata) (payload out : slice) (err : option error)
    (w w' : World) :
  encKeys ≠ [] →
  is_not_found err = false →
  Encrypt encKeys keyReader msgMetadata payload w = Done (md', (out, err)) w' →
  if loopvar_per_iteration
  then Key <$> GetEncryptionKeys md' =
       (Key <$> GetEncryptionKeys msgMetadata) ++
       absent_names (GetEncryptionKeys msgMetadata) encKeys
  else Key <$> drop (length (GetEncryptionKeys msgMetadata)) (GetEncryptionKeys md') =
       replicate (length (absent_names (GetEncryptionKeys msgMetadata) encKeys))
         (List.last encKeys "").
Proof.
  intros Hne Herr Hrun.
  destruct (Encrypt_inv encKeys _ _ _ _ _ _ _ Hne Hrun) as (r & w1 & Hloop & _ & _ & Hr).
  destruct r as [[[s t] a]|[[[s t] n] e]].
  2:{ destruct Hr as [_ Hr]. cbn in Hr. congruence. }
  destruct Hr as (-> & _).
  apply Encrypt_keys_names in Hloop as [Hs Ha]; [|apply index_keys_ok].
  assert (filter (fun n => index_keys 0 (GetEncryptionKeys msgMetadata) ∅ !! n = None) encKeys =
          absent_names (GetEncryptionKeys msgMetadata) encKeys) as Hfilter.
  { apply list_filter_iff. intros n. rewrite index_keys_None, lookup_empty.
    split; [by intros [_ Hn]|done]. }
  rewrite Hfilter in Ha. simpl in Ha.
  destruct loopvar_per_iteration eqn:Hg.
  - rewrite settle_same by done. rewrite fmap_app, Hs. f_equal.
    rewrite <-Ha. f_equal. rewrite <-(list_fmap_id a) at 2.
    apply list_fmap_ext. intros i e _. by apply point_to_same.
  - rewrite drop_app_length'.
    2:{ rewrite settle_length. by rewrite <-(length_fmap Key s), Hs, length_fmap. }
    rewrite <-list_fmap_compose.
    rewrite <-Ha, length_fmap. apply const_fmap. intros i e _.
    unfold point_to. simpl. by rewrite Hg.
Qed.

End EntryNames.

(** *** Returning and panicking *)

Section Returning.
Context `{L : CryptoLib} `{G : GoVersion}.

Lemma Decrypt_fast_spec msgMetadata payload w :
  length (bytes_of (GetEncryptionParam msgMetadata)) = gcmStandardNonceSize →
  ∃ w1, Decrypt_fast msgMetadata payload (engine w) w =
          Done (fast_path (engine w) msgMetadata payload) w1 ∧
    logs_only w w1.
Proof.
  intros Hnonce. unfold Decrypt_fast, fast_path.
  destruct (dataKey (engine w)); [|by eexists].
  destruct (getKeyAndDecryptData_keys_spec msgMetadata payload
              (GetEncryptionKeys msgMetadata) w Hnonce) as (w1 & Hrun & Hw1).
  unfold getKeyAndDecryptData. unfold bind at 1. rewrite Hrun. by eexists.
Qed.

(** X23: the fast path needs no key reader.  When the nonce has the
    standard length and the search of the cache finds a key that opens the
    payload, [Decrypt] returns that plaintext whatever the key reader is,
    nil included: no lookup is made, and apart from the log the world is as
    before. *)
Theorem Decrypt_fast_path_needs_no_reader (msgMetadata : MessageMetadata) (payload : slice)
    (keyReader : option KeyReader) (w : World) (d : list byte) :
  length (bytes_of (GetEncryptionParam msgMetadata)) = gcmStandardNonceSize →
  fast_path (engine w) msgMetadata payload = Some d →
  ∃ w', Decrypt msgMetadata payload keyReader w = Done (Some d, None) w' ∧ logs_only w w'.
Proof.
  intros Hnonce Hfast. rewrite Decrypt_unfold.
  destruct (Decrypt_fast_spec msgMetadata payload w Hnonce) as (w1 & -> & Hw1).
  rewrite Hfast. by exists w1.
Qed.

Lemma getKeyAndDecryptData_keys_panic msgMetadata payload : ∀ keys w msg w',
  getKeyAndDecryptData_keys keys msgMetadata payload w = Panic msg w' →
  msg = nonce_panic ∧
  length (bytes_of (GetEncryptionParam msgMetadata)) ≠ gcmStandardNonceSize.
Proof.
  intros keys w msg w' Hrun.
  destruct (decide (length (bytes_of (GetEncryptionParam msgMetadata)) = gcmStandardNonceSize))
    as [Hnonce|Hnonce].
  { destruct (getKeyAndDecryptData_keys_spec msgMetadata payload keys w Hnonce)
      as (w1 & Hdone & _). by rewrite Hdone in Hrun. }
  split; [|done]. revert w Hrun.
  induction keys as [|k rest IH]; intros w; [done|].
  cbn [getKeyAndDecryptData_keys]. unfold bind at 1. unfold get_engine at 1.
  destruct (loadingCache (engine w) !! keyDigest (Value k)) as [secret|].
  - unfold bind at 1.
    destruct (decryptData secret msgMetadata payload w) as [r w1|msg1 w1] eqn:Hd.
    + unfold bind at 1.
      destruct ((match r.2 with Some e => log (LogError e) | None => ret tt end) w1)
        as [[] w2|msg2 w2] eqn:Hlog.
      * destruct r.1; [done|]. apply IH.
      * by destruct r.2.
    + intros [= <- <-]. revert Hd. unfold decryptData.
      destruct (aes_NewCipher secret) as [c|e]; [|by munfold].
      destruct (cipher_NewGCM c) as [gcm|e]; [|done].
      unfold bind at 1, gcm_Open_nil. case_decide.
      * destruct (gcm_Open _ _ _) as [[|b l]|]; by munfold.
      * by intros [= <- <-].
  - unfold bind at 1. unfold log at 1. apply IH.
Qed.

(** X24: the two ways in which [Decrypt] panics.  A [Decrypt] that panics
    was either given a nil key reader, which it called, or an envelope whose
    nonce has not the standard length, with which it tried to open the
    payload.  With a key reader and a nonce of 12 bytes [Decrypt] returns. *)
Theorem Decrypt_panics_only (msgMetadata : MessageMetadata) (payload : slice)
    (keyReader : option KeyReader) (w w' : World) (msg : string) :
  Decrypt msgMetadata payload keyReader w = Panic msg w' →
  (keyReader = None ∧ msg = nil_panic) ∨
  (length (bytes_of (GetEncryptionParam msgMetadata)) ≠ gcmStandardNonceSize ∧
   msg = nonce_panic).
Proof.
  rewrite Decrypt_unfold.
  destruct (Decrypt_fast msgMetadata payload (engine w) w) as [[d|] w1|msg1 w1] eqn:Hfast;
    [done| |].
  - destruct keyReader as [kr|].
    + destruct (decryptDataKeys_spec kr (GetEncryptionKeys msgMetadata) w1) as (w2 & -> & _).
      case_decide; [done|]. unfold getKeyAndDecryptData.
      intros [-> Hn]%getKeyAndDecryptData_keys_panic. by right.
    + destruct (GetEncryptionKeys msgMetadata) as [|e rest]; [done|].
      cbn. intros [= <- <-]. by left.
  - intros [= <- <-]. right. revert Hfast. unfold Decrypt_fast.
    destruct (dataKey (engine w)); [|done].
    unfold getKeyAndDecryptData. unfold bind at 1.
    destruct (getKeyAndDecryptData_keys _ _ _ w) as [r w0|msg0 w0] eqn:Hrun.
    + unfold bind. by destruct r.2.
    + intros [= <- <-]. apply getKeyAndDecryptData_keys_panic in Hrun as [-> Hn]. done.
Qed.

Lemma Decrypt_fast_keeps_engine msgMetadata payload d :
  keeps_engine (Decrypt_fast msgMetadata payload d).
Proof.
  unfold Decrypt_fast. destruct (dataKey d); [|apply keeps_engine_ret].
  apply keeps_engine_bind; [apply getKeyAndDecryptData_keeps_engine|].
  intros r. apply keeps_engine_bind; [apply keeps_engine_log_error|].
  intros _. apply keeps_engine_ret.
Qed.

(** The engine that a [Decrypt] leaves behind, whether it returns or
    panics. *)
Lemma Decrypt_engine msgMetadata payload keyReader w w' :
  final_world (Decrypt msgMetadata payload keyReader w) = w' →
  engine w' = engine w ∨
  ∃ kr, keyReader = Some kr ∧
    engine w' = unwrap_all kr (GetEncryptionKeys msgMetadata) (engine w).
Proof.
  rewrite Decrypt_unfold.
  pose proof (Decrypt_fast_keeps_engine msgMetadata payload (engine w) w) as He1.
  destruct (Decrypt_fast msgMetadata payload (engine w) w) as [[d|] w1|msg1 w1];
    cbn [final_world] in He1; [by intros <-; left| |by intros <-; left].
  destruct keyReader as [kr|].
  - destruct (decryptDataKeys_spec kr (GetEncryptionKeys msgMetadata) w1)
      as (w2 & -> & He2 & _).
    rewrite He1 in He2. intros Hfinal. right. exists kr. split; [done|].
    rewrite <-He2, <-Hfinal. case_decide; [done|].
    apply getKeyAndDecryptData_keeps_engine.
  - destruct (GetEncryptionKeys msgMetadata) as [|e rest]; cbn; by intros <-; left.
Qed.

(** X25: what the cache holds.  A key that is in the cache after a
    [Decrypt], returned or panicked, and was not there under that
    fingerprint before, is the key that the reader unwrapped from an entry
    of the envelope whose wrapped bytes have that fingerprint. *)
Theorem Decrypt_cache_sound (msgMetadata : MessageMetadata) (payload : slice)
    (keyReader : option KeyReader) (w w' : World) (x : string) (k : list byte) :
  final_world (Decrypt msgMetadata payload keyReader w) = w' →
  loadingCache (engine w') !! x = Some k →
  loadingCache (engine w) !! x = Some k ∨
  ∃ kr e, keyReader = Some kr ∧ e ∈ GetEncryptionKeys msgMetadata ∧
    unwrapKey kr e = Ok k ∧ keyDigest (Value e) = x.
Proof.
  intros Hfinal Hx.
  destruct (Decrypt_engine _ _ _ _ _ Hfinal) as [He|(kr & -> & He)]; rewrite He in Hx.
  - by left.
  - apply unwrap_all_cache_from in Hx as [Hx|(e & Hin & Hu & Hd)]; [by left|].
    right. by exists kr, e.
Qed.

End Returning.

(** *** Output and error of [Encrypt] *)

Section EncryptResult.
Context `{L : CryptoLib} `{G : GoVersion}.

(** X26: of the output and the error of [Encrypt], exactly one is nil,
    except in one case.  An [Encrypt] that returns an output returns no
    error with it; and it returns neither output nor error exactly when it
    is called with no recipient name and a nil payload, which it hands
    back. *)
Theorem Encrypt_output_or_error (encKeys : list string) (keyReader : option KeyReader)
    (msgMetadata md' : MessageMetadata) (payload out : slice) (err : option error)
    (w w' : World) :
  Encrypt encKeys keyReader msgMetadata payload w = Done (md', (out, err)) w' →
  (is_Some out → err = None) ∧
  (out = None ∧ err = None ↔ encKeys = [] ∧ payload = None).
Proof.
  intros Hrun. destruct encKeys as [|n encKeys].
  { inversion Hrun; subst. split; [done|]. split; [by intros [-> _]|by intros [_ ->]]. }
  destruct (Encrypt_spec (n :: encKeys) keyReader msgMetadata payload w _ _ _
              ltac:(done) Hrun) as (_ & _ & _ & Hres).
  inversion Hres; subst.
  - split; [by intros [? ?]|]. split; [by intros [_ ?]|by intros [? _]].
  - split; [by intros [? ?]|]. split; [by intros [_ ?]|by intros [? _]].
  - split; [done|]. split; [by intros [? _]|by intros [? _]].
Qed.

(** X27: when [Encrypt] is bound to succeed.  The call is given a message
    none of whose entries has a nil key name, the engine has a data key of
    an AES length, every requested name has a wrapped key in the store, and
    the random source delivers 12 bytes: then [Encrypt] returns, with no
    error, the sealing of the payload under the data key and those 12 bytes,
    which it stores in the metadata as the nonce; it has drawn nothing else
    from the random source and has left the engine as it was. *)
Theorem Encrypt_succeeds (encKeys : list string) (keyReader : option KeyReader)
    (msgMetadata : MessageMetadata) (payload : slice) (w : World)
    (key nonce : list byte) (r' : RandState) :
  encKeys ≠ [] →
  msgMetadata ≠ None →
  keyed (GetEncryptionKeys msgMetadata) = true →
  (∀ n, n ∈ encKeys → is_Some (encryptedDataKeyMap (engine w) !! n)) →
  dataKey (engine w) = Some key →
  aes_key_size_ok (length key) = true →
  rand_Read gcmStandardNonceSize (entropy w) = (Ok nonce, r') →
  ∃ md' w',
    Encrypt encKeys keyReader msgMetadata payload w =
      Done (md', (Some (gcm_Seal key nonce (bytes_of payload)), None)) w' ∧
    GetEncryptionParam md' = Some nonce ∧
    entropy w' = r' ∧
    engine w' = engine w.
Proof.
  intros Hne Hmsg Hkeyed Hall Hkey Hsize Hrand. unfold Encrypt.
  rewrite decide_False by (by destruct encKeys).
  rewrite Hkeyed. cbn [negb].
  destruct (Encrypt_keys_present keyReader (index_keys 0 (GetEncryptionKeys msgMetadata) ∅)
              [] encKeys (GetEncryptionKeys msgMetadata) [] [] w Hall)
    as (s & t & a & Hloop).
  rewrite app_nil_r in Hloop. unfold bind at 1. rewrite Hloop.
  cbn [Encrypt_keys]. unfold ret at 1.
  destruct msgMetadata as [message|]; [|done].
  unfold bind at 1. unfold get_engine at 1. unfold aes_NewCipher.
  rewrite Hkey. cbn [bytes_of]. rewrite Hsize.
  cbn [cipher_NewGCM BlockSize Nat.eqb NonceSize aead_key block_key].
  unfold bind at 1, with_entropy. rewrite Hrand.
  eexists _, _. split; [reflexivity|]. done.
Qed.

End EncryptResult.

(** *** [Encrypt] and the nil pointers *)

Section NilPointers.
Context `{L : CryptoLib} `{G : GoVersion}.

Lemma keyed_false (l : list EncryptionKeys) (e : EncryptionKeys) :
  e ∈ l → pb_Key e = None → keyed l = false.
Proof.
  induction l as [|e' l IH]; intros Hin Hnil; [by apply not_elem_of_nil in Hin|].
  apply elem_of_cons in Hin as [<-|Hin]; cbn [keyed forallb].
  - by rewrite Hnil.
  - fold (keyed l). rewrite IH by done. by destruct (pb_Key e').
Qed.

(** An [Encrypt] on a nil message that panics has run its loop to the end:
    every requested name has a wrapped key in the store. *)
Lemma Encrypt_nil_message_panic encKeys keyReader payload w msg w' :
  Encrypt encKeys keyReader None payload w = Panic msg w' →
  ∀ n, n ∈ encKeys → is_Some (encryptedDataKeyMap (engine w') !! n).
Proof.
  unfold Encrypt. case_decide; [done|].
  cbn [GetEncryptionKeys keyed forallb negb]. unfold bind at 1.
  destruct (Encrypt_keys_spec keyReader (index_keys 0 [] ∅) encKeys [] [] [] w
              (index_keys_ok _)) as (res & w1 & -> & _ & _ & _ & _ & Hres).
  destruct res as [[[s t] a]|[[[s t] n0] e]]; [|done].
  unfold panic. intros [= _ <-] n Hn.
  destruct Hres as (_ & _ & Hall).
  destruct (Hall n Hn) as (e & info & _ & _ & Hin & _). by exists info.
Qed.

(** X28: the two ways in which [Encrypt] panics.  An [Encrypt] that panics
    was called with at least one recipient name and has read or written
    through a nil pointer.  Either an entry of the metadata has a nil key
    name: then the world is as before the call.  Or the message itself is
    nil and the loop over the names has run to its end: then every requested
    name has a wrapped key in the store, the wraps made by the call
    included. *)
Theorem Encrypt_panics_only (encKeys : list string) (keyReader : option KeyReader)
    (msgMetadata : MessageMetadata) (payload : slice) (w w' : World) (msg : string) :
  Encrypt encKeys keyReader msgMetadata payload w = Panic msg w' →
  msg = nil_panic ∧ encKeys ≠ [] ∧
  ((keyed (GetEncryptionKeys msgMetadata) = false ∧ w' = w) ∨
   (msgMetadata = None ∧
    ∀ n, n ∈ encKeys → is_Some (encryptedDataKeyMap (engine w') !! n))).
Proof.
  intros Hrun.
  assert (encKeys ≠ []) as Hne by (by intros ->).
  destruct (Encrypt_outcome _ _ _ _ _ _ Hne Hrun) as (_ & _ & _ & -> & Hwhy).
  split_and!; [done..|].
  destruct (keyed (GetEncryptionKeys msgMetadata)) eqn:Hkeyed.
  - destruct Hwhy as [?| ->]; [done|]. right. split; [done|].
    by eapply Encrypt_nil_message_panic.
  - left. split; [done|]. revert Hrun. unfold Encrypt.
    rewrite decide_False by (by destruct encKeys). rewrite Hkeyed.
    unfold panic. cbn [negb]. by intros [= <-].
Qed.

(** X29: [Encrypt] on a nil message never seals.  With at least one
    recipient name it either returns the key-not-found error, with no
    output and the message still nil, or, when every requested name has got
    a wrapped key, panics at the assignment of the key list to the message,
    after the wraps have been stored. *)
Theorem Encrypt_nil_message (encKeys : list string) (keyReader : option KeyReader)
    (payload : slice) (w : World) :
  encKeys ≠ [] →
  match Encrypt encKeys keyReader None payload w with
  | Done (md', (out, err)) w' => md' = None ∧ out = None ∧ is_not_found err = true
  | Panic msg w' =>
      msg = nil_panic ∧
      ∀ n, n ∈ encKeys → is_Some (encryptedDataKeyMap (engine w') !! n)
  end.
Proof.
  intros Hne.
  destruct (Encrypt encKeys keyReader None payload w) as [[md' [out err]] w'|msg w'] eqn:Hrun.
  - revert Hrun. unfold Encrypt. rewrite decide_False by (by destruct encKeys).
    cbn [GetEncryptionKeys keyed forallb negb]. unfold bind at 1.
    destruct (Encrypt_keys_spec keyReader (index_keys 0 [] ∅) encKeys [] [] [] w
                (index_keys_ok _)) as (res & w1 & -> & _ & _ & _ & _ & Hres).
    destruct res as [[[s t] a]|[[[s t] n0] e]]; [done|].
    destruct Hres as (_ & -> & _). unfold ret. by intros [= <- <- <- <-].
  - destruct (Encrypt_outcome _ _ _ _ _ _ Hne Hrun) as (_ & _ & _ & -> & _).
    split; [done|]. by eapply Encrypt_nil_message_panic.
Qed.

(** X30: an entry with a nil key name makes [Encrypt] panic at once.  When
    the metadata has such an entry and at least one recipient name is
    given, [Encrypt] panics on the nil pointer before it looks at the names:
    nothing is wrapped, logged or drawn. *)
Theorem Encrypt_nil_key_panics (encKeys : list string) (keyReader : option KeyReader)
    (msgMetadata : MessageMetadata) (payload : slice) (w : World) (e : EncryptionKeys) :
  encKeys ≠ [] →
  e ∈ GetEncryptionKeys msgMetadata →
  pb_Key e = None →
  Encrypt encKeys keyReader msgMetadata payload w = Panic nil_panic w.
Proof.
  intros Hne He Hnil. unfold Encrypt. rewrite decide_False by (by destruct encKeys).
  by rewrite (keyed_false _ _ He Hnil).
Qed.

End NilPointers.

(** *** The further properties at concrete inputs *)

Lemma toy_sealedAB_keys :
  GetEncryptionKeys (Toy.metadata_of Toy.sealedAB) = [ToyMore.entryA; ToyMore.entryB].
Proof. vm_compute. reflexivity. Qed.

Lemma toy_cold (msgMetadata : MessageMetadata) :
  cold (engine (Toy.fresh false)) (GetEncryptionKeys msgMetadata).
Proof. by left. Qed.

(** X4 at a concrete input: the message sealed for A decrypts to ["hi"] on
    a new consumer. *)
Lemma Decrypt_returns_authentic_plaintext_witness :
  (None : option error) = None ∧ Toy.hi ≠ [] ∧
  authentic
    (loadingCache (engine (final_world
       (Decrypt (Toy.metadata_of Toy.sealedA) (Toy.output_of Toy.sealedA) (Some Toy.reader)
          (Toy.fresh false)))))
    (Toy.metadata_of Toy.sealedA) (Toy.output_of Toy.sealedA) Toy.hi.
Proof.
  apply (Decrypt_returns_authentic_plaintext (Toy.metadata_of Toy.sealedA)
           (Toy.output_of Toy.sealedA) (Some Toy.reader) (Toy.fresh false)).
  vm_compute. reflexivity.
Defined.

(** X5 at a concrete input: the message sealed for A and B, handed to a
    consumer whose reader finds no key file. *)
Lemma Decrypt_only_error_witness :
  errDataKeyDecryption = errDataKeyDecryption ∧ (None : slice) = None ∧
  engine (final_world
    (Decrypt (Toy.metadata_of Toy.sealedAB) (Toy.output_of Toy.sealedAB) (Some ToyMore.lost)
       (Toy.fresh false))) = engine (Toy.fresh false) ∧
  unwraps ToyMore.lost (GetEncryptionKeys (Toy.metadata_of Toy.sealedAB)) = [].
Proof.
  apply (Decrypt_only_error (Toy.metadata_of Toy.sealedAB) (Toy.output_of Toy.sealedAB) None
           (Some ToyMore.lost) (Toy.fresh false)).
  vm_compute. reflexivity.
Defined.

(** X6 at the same input. *)
Lemma Decrypt_no_key_unwrapped_witness :
  ∃ w', Decrypt (Toy.metadata_of Toy.sealedAB) (Toy.output_of Toy.sealedAB)
          (Some ToyMore.lost) (Toy.fresh false) = Done (None, Some errDataKeyDecryption) w' ∧
    engine w' = engine (Toy.fresh false) ∧
    reader_calls w' =
      reader_calls (Toy.fresh false) ++
      (private_call_of <$> GetEncryptionKeys (Toy.metadata_of Toy.sealedAB)).
Proof.
  apply (Decrypt_no_key_unwrapped (Toy.metadata_of Toy.sealedAB) (Toy.output_of Toy.sealedAB)
           ToyMore.lost (Toy.fresh false)).
  - apply toy_cold.
  - vm_compute. reflexivity.
Defined.

(** X7 at a concrete input: the message sealed for A and B, handed to a new
    consumer with a nil key reader. *)
Lemma Decrypt_nil_reader_panics_witness :
  ∃ w', Decrypt (Toy.metadata_of Toy.sealedAB) (Toy.output_of Toy.sealedAB) None
          (Toy.fresh false) = Panic nil_panic w' ∧
    logs_only (Toy.fresh false) w'.
Proof.
  apply (Decrypt_nil_reader_panics (Toy.metadata_of Toy.sealedAB) (Toy.output_of Toy.sealedAB)
           (Toy.fresh false)).
  - apply toy_cold.
  - rewrite toy_sealedAB_keys. discriminate.
Defined.

(** X8 at a concrete input: the envelope of the message sealed for A and B,
    its nonce removed. *)
Lemma Decrypt_bad_nonce_panics_witness :
  ∃ w', Decrypt ToyMore.nonceless (Toy.output_of Toy.sealedAB) (Some Toy.reader)
          (Toy.fresh false) = Panic nonce_panic w'.
Proof.
  apply (Decrypt_bad_nonce_panics ToyMore.nonceless (Toy.output_of Toy.sealedAB) Toy.reader
           (Toy.fresh false)).
  - vm_compute. discriminate.
  - vm_compute. discriminate.
  - intros e k Hin [Hhit|Hu].
    + by rewrite toy_fresh_cache in Hhit.
    + by rewrite (toy_sealedAB_unwraps e k Hin Hu).
Defined.

(** X9 at a concrete input: sealing for A and B into an empty metadata
    appends two entries. *)
Lemma Encrypt_merge_length_witness :
  length (GetEncryptionKeys (Toy.metadata_of Toy.sealedAB)) = 0 + 2.
Proof.
  apply (Encrypt_merge_length ["A"; "B"] (Some Toy.reader) Toy.emptyMetadata
           (Toy.metadata_of Toy.sealedAB) (Some Toy.hi) (Toy.output_of Toy.sealedAB) None
           (Toy.fresh true) (final_world Toy.sealedAB)).
  exact toy_sealedAB.
Defined.

(** X10 at a concrete input: sealing for A leaves the entry of Z where it
    was. *)
Lemma Encrypt_keeps_foreign_entries_witness :
  GetEncryptionKeys (Toy.metadata_of ToyMore.sealedZA) !! 0 = Some ToyMore.entryZ.
Proof.
  apply (Encrypt_keeps_foreign_entries ["A"] (Some Toy.reader) ToyMore.withZ
           (Toy.metadata_of ToyMore.sealedZA) (Some Toy.hi)
           (Toy.output_of ToyMore.sealedZA, ToyMore.error_of ToyMore.sealedZA)
           (Toy.fresh true) (final_world ToyMore.sealedZA) 0 ToyMore.entryZ).
  - vm_compute. reflexivity.
  - reflexivity.
  - intros Hin. apply list_elem_of_singleton in Hin. discriminate.
Defined.

(** X11 at a concrete input: sealing for A and B on a new producer asks the
    reader for A and for B. *)
Lemma Encrypt_lookups_witness :
  reader_calls (final_world Toy.sealedAB) =
    reader_calls (Toy.fresh true) ++
    (CallGetPublicKey <$>
       unwrapped_names (encryptedDataKeyMap (engine (Toy.fresh true))) ["A"; "B"]) ∧
  ∀ n, n ∉ ["A"; "B"] →
    encryptedDataKeyMap (engine (final_world Toy.sealedAB)) !! n =
    encryptedDataKeyMap (engine (Toy.fresh true)) !! n.
Proof.
  apply (Encrypt_lookups ["A"; "B"] (Some Toy.reader) Toy.emptyMetadata
           (Toy.metadata_of Toy.sealedAB) (Some Toy.hi) (Toy.output_of Toy.sealedAB)
           (Toy.fresh true) (final_world Toy.sealedAB)).
  - apply NoDup_cons. split; [|apply NoDup_singleton].
    intros Hin. apply list_elem_of_singleton in Hin. discriminate.
  - exact toy_sealedAB.
Defined.

(** X12 at a concrete input: the message sealed for A and B. *)
Lemma Encrypt_success_shape_witness :
  ∃ key nonce,
    dataKey (engine (Toy.fresh true)) = Some key ∧
    length nonce = 12 ∧
    Toy.output_of Toy.sealedAB = Some (gcm_Seal key nonce Toy.hi).
Proof.
  destruct (Encrypt_success_shape ["A"; "B"] (Some Toy.reader) Toy.emptyMetadata
              (Toy.metadata_of Toy.sealedAB) (Some Toy.hi) (Toy.output_of Toy.sealedAB)
              (Toy.fresh true) (final_world Toy.sealedAB) toy_sealedAB)
    as [[Hnil _]|(_ & key & nonce & Hkey & _ & _ & Hnonce & _ & Hout)].
  - discriminate Hnil.
  - exists key, nonce. split; [exact Hkey|]. split; [exact Hnonce|exact Hout].
Defined.

(** X13 at a concrete input: the producer that has sealed for A seals for A
    again, with a nil key reader. *)
Lemma Encrypt_uses_stored_keys_witness :
  ∃ md' out err w',
    Encrypt ["A"] None Toy.emptyMetadata (Some Toy.yo) (final_world Toy.sealedA) =
      Done (md', (out, err)) w' ∧
    engine w' = engine (final_world Toy.sealedA) ∧
    reader_calls w' = reader_calls (final_world Toy.sealedA).
Proof.
  destruct (Encrypt_uses_stored_keys ["A"] None Toy.emptyMetadata (Some Toy.yo)
              (final_world Toy.sealedA))
    as (md' & out & err & w' & Hrun & He & Hc & _).
  - discriminate.
  - intros n Hn. apply list_elem_of_singleton in Hn. subst n.
    vm_compute. eexists. reflexivity.
  - discriminate.
  - reflexivity.
  - exists md', out, err, w'. split; [exact Hrun|]. split; [exact He|exact Hc].
Defined.

(** X14 at a concrete input: after the rotation over B alone, the message
    sealed for A carries the wrapping of the first data key, and A's
    [Decrypt] of it returns neither plaintext nor error. *)
Lemma Encrypt_ships_stale_key_witness :
  (∃ e, e ∈ GetEncryptionKeys (Toy.metadata_of ToyMore.sealedStale) ∧
        Value e = Value ToyMore.entryA) ∧
  dataKey (engine (final_world Toy.rotated)) ≠ Some Toy.key1 ∧
  unwrapKey Toy.reader ToyMore.entryA = Ok Toy.key1 ∧
  ∃ wc, Decrypt (Toy.metadata_of ToyMore.sealedStale) (Toy.output_of ToyMore.sealedStale)
          (Some Toy.reader) (Toy.fresh false) = Done (None, None) wc.
Proof.
  destruct (Encrypt_ships_stale_key "A"
              (NewEncryptionKeyInfo (Value ToyMore.entryA) ∅) ["B"] ["A"]
              (Some Toy.reader) None Toy.emptyMetadata (Toy.metadata_of ToyMore.sealedStale)
              (Some Toy.yo) (Toy.output_of ToyMore.sealedStale)
              (final_world Toy.sealedAB)
              (final_world (generateDataKey (final_world Toy.sealedAB)))
              (final_world Toy.rotated) (final_world ToyMore.sealedStale) None
              (bytes_of (dataKey (engine (final_world Toy.rotated)))))
    as (_ & Hentry & _).
  - vm_compute. reflexivity.
  - intros Hin. apply list_elem_of_singleton in Hin. discriminate.
  - vm_compute. reflexivity.
  - vm_compute. reflexivity.
  - apply list_elem_of_singleton. reflexivity.
  - vm_compute. reflexivity.
  - split; [exact Hentry|]. split; [vm_compute; discriminate|].
    split; [vm_compute; reflexivity|].
    exists (final_world
              (Decrypt (Toy.metadata_of ToyMore.sealedStale)
                 (Toy.output_of ToyMore.sealedStale) (Some Toy.reader) (Toy.fresh false))).
    vm_compute. reflexivity.
Defined.

(** X15 at a concrete input: once A is removed, the next message sealed for
    A carries a wrapping of the current data key, and A decrypts it. *)
Lemma RemoveKeyCipher_then_Encrypt_rewraps_witness :
  (∃ info, encryptedDataKeyMap (engine (final_world ToyMore.resealed)) !! "A" = Some info ∧
     wrapped_by Toy.reader "A" (bytes_of (dataKey (engine (final_world Toy.rotated)))) info) ∧
  ∃ wc, Decrypt (Toy.metadata_of ToyMore.resealed) (Toy.output_of ToyMore.resealed)
          (Some Toy.reader) (Toy.fresh false) = Done (Some Toy.yo, None) wc.
Proof.
  destruct (RemoveKeyCipher_then_Encrypt_rewraps "A" ["A"] (Some Toy.reader) Toy.emptyMetadata
              (Toy.metadata_of ToyMore.resealed) (Some Toy.yo) (Toy.output_of ToyMore.resealed)
              (final_world Toy.rotated) (final_world ToyMore.removedA)
              (final_world ToyMore.resealed) true)
    as (_ & kr & info & Hkr & Hin & Hw & _).
  - discriminate.
  - apply list_elem_of_singleton. reflexivity.
  - vm_compute. reflexivity.
  - vm_compute. reflexivity.
  - inversion Hkr; subst kr. split; [by exists info|].
    exists (final_world
              (Decrypt (Toy.metadata_of ToyMore.resealed) (Toy.output_of ToyMore.resealed)
                 (Some Toy.reader) (Toy.fresh false))).
    vm_compute. reflexivity.
Defined.

(** X16 at a concrete input: the rotation over B alone. *)
Lemma AddPublicKeyCipher_success_witness :
  ∃ key, dataKey (engine (final_world Toy.rotated)) = Some key ∧ length key = 32 ∧
    reader_calls (final_world Toy.rotated) =
      reader_calls (final_world Toy.sealedAB) ++ [CallGetPublicKey "B"] ∧
    encryptedDataKeyMap (engine (final_world Toy.rotated)) !! "A" =
      encryptedDataKeyMap (engine (final_world Toy.sealedAB)) !! "A".
Proof.
  destruct (AddPublicKeyCipher_success ["B"] (Some Toy.reader) (final_world Toy.sealedAB)
              (final_world Toy.rotated))
    as (key & Hkey & Hlen & Hcalls & _ & Hkeep).
  - vm_compute. reflexivity.
  - exists key. split; [exact Hkey|]. split; [exact Hlen|]. split; [exact Hcalls|].
    apply Hkeep. intros Hin. apply list_elem_of_singleton in Hin. discriminate.
Defined.

(** X17 at a concrete input: a producer that has sealed for A and B calls
    [AddPublicKeyCipher] with a nil key reader. *)
Lemma AddPublicKeyCipher_rejected_still_rotates_witness :
  ∃ w', AddPublicKeyCipher ["A"] None (final_world Toy.sealedAB) =
          Done (Some errEmptyKeyNameOrKeyReader) w' ∧
    dataKey (engine w') = dataKey (engine (final_world Toy.rotated)) ∧
    encryptedDataKeyMap (engine w') = encryptedDataKeyMap (engine (final_world Toy.sealedAB)).
Proof.
  destruct (AddPublicKeyCipher_rejected_still_rotates "A" [] None (final_world Toy.sealedAB)
              (final_world (generateDataKey (final_world Toy.sealedAB)))
              (bytes_of (dataKey (engine (final_world Toy.rotated)))))
    as (w' & Hrun & Hkey & Hstore & _).
  - vm_compute. reflexivity.
  - by left.
  - exists w'. split; [exact Hrun|]. split; [|exact Hstore].
    rewrite Hkey. vm_compute. reflexivity.
Defined.

(** X19 at a concrete input: a new consumer decrypts the message sealed for
    A and B; the key it keeps is the one unwrapped from the entry of B. *)
Lemma Decrypt_adopts_last_key_witness :
  dataKey (engine (final_world
    (Decrypt (Toy.metadata_of Toy.sealedAB) (Toy.output_of Toy.sealedAB) (Some Toy.reader)
       (Toy.fresh false)))) = Some Toy.key1 ∧
  loadingCache (engine (final_world
    (Decrypt (Toy.metadata_of Toy.sealedAB) (Toy.output_of Toy.sealedAB) (Some Toy.reader)
       (Toy.fresh false)))) !! keyDigest (Value ToyMore.entryB) = Some Toy.key1.
Proof.
  apply (Decrypt_adopts_last_key (Toy.metadata_of Toy.sealedAB) (Toy.output_of Toy.sealedAB)
           Toy.reader (Toy.fresh false) _ [ToyMore.entryA] [] ToyMore.entryB Toy.key1).
  - apply toy_cold.
  - exact toy_sealedAB_keys.
  - vm_compute. reflexivity.
  - reflexivity.
  - reflexivity.
Defined.

(** X20 at a concrete input: a file system with no file. *)
Lemma DefaultKeyReader_missing_file_witness :
  (∃ w', AddPublicKeyCipher ["A"] (Some ToyMore.lost) (Toy.fresh true) =
           Done (Some (lib_error "open: no such file or directory")) w' ∧
     encryptedDataKeyMap (engine w') = encryptedDataKeyMap (engine (Toy.fresh true))) ∧
  (∃ w', Decrypt (Toy.metadata_of Toy.sealedAB) (Toy.output_of Toy.sealedAB)
           (Some ToyMore.lost) (Toy.fresh false) = Done (None, Some errDataKeyDecryption) w').
Proof.
  destruct (DefaultKeyReader_missing_file ∅ "pub.pem" "priv.pem") as [Hadd _].
  { apply lookup_empty. }
  destruct (DefaultKeyReader_missing_file ∅ "priv.pem" "pub.pem") as [_ Hdec].
  { apply lookup_empty. }
  split.
  - destruct (Hadd "A" [] (Toy.fresh true) (final_world (generateDataKey (Toy.fresh true)))
                (replicate 20 "2"%byte ++ replicate 12 "3"%byte))
      as (w' & Hrun & Hstore & _).
    + discriminate.
    + vm_compute. reflexivity.
    + exists w'. split; [exact Hrun|exact Hstore].
  - destruct (Hdec (Toy.metadata_of Toy.sealedAB) (Toy.output_of Toy.sealedAB)
                (Toy.fresh false) (toy_cold _)) as (w' & Hrun & _).
    exists w'. exact Hrun.
Defined.

(** X21 at a concrete input: the message sealed for the names A and B with
    the reader of the public-key file decrypts, with the reader of the
    private-key file, to ["hi"]. *)
Lemma DefaultKeyReader_round_trip_witness :
  ∃ out wc',
    Decrypt (Toy.metadata_of ToyMore.sealedFiles) (Toy.output_of ToyMore.sealedFiles)
      (Some (NewDefaultKeyReader ToyMore.files "" "priv.pem")) (Toy.fresh false) =
      Done (out, None) wc' ∧
    bytes_of out = Toy.hi.
Proof.
  apply (DefaultKeyReader_round_trip (L:=Toy.lib) ToyMore.files "pub.pem" "priv.pem" "" ""
           (Toy.pem "a") (Toy.pem "a") "a"%byte ["A"; "B"] (Some Toy.hi)
           (Toy.output_of ToyMore.sealedFiles) Toy.emptyMetadata
           (Toy.metadata_of ToyMore.sealedFiles)
           (Toy.fresh true) (final_world ToyMore.sealedFiles) (Toy.fresh false)).
  - vm_compute. reflexivity.
  - vm_compute. reflexivity.
  - vm_compute. reflexivity.
  - vm_compute. reflexivity.
  - reflexivity.
  - discriminate.
  - reflexivity.
  - vm_compute. reflexivity.
  - reflexivity.
Defined.

(** X22 at a concrete input: the entries of the message sealed for A and B
    bear the names A and B when each iteration has its own variable. *)
Lemma Encrypt_entry_names_witness :
  Key <$> GetEncryptionKeys (Toy.metadata_of Toy.sealedAB) =
  (Key <$> GetEncryptionKeys Toy.emptyMetadata) ++
  absent_names (GetEncryptionKeys Toy.emptyMetadata) ["A"; "B"].
Proof.
  assert (["A"; "B"] ≠ ([] : list string)) as Hne by discriminate.
  exact (Encrypt_entry_names (G:=Toy.per_iteration) ["A"; "B"] (Some Toy.reader)
           Toy.emptyMetadata (Toy.metadata_of Toy.sealedAB) (Some Toy.hi)
           (Toy.output_of Toy.sealedAB) None (Toy.fresh true) (final_world Toy.sealedAB)
           Hne eq_refl toy_sealedAB).
Defined.

(** With one variable for the whole loop, both entries read as named B. *)
Lemma toy_per_loop_names :
  Key <$> GetEncryptionKeys (Toy.metadata_of (Toy.sealedAB (G:=Toy.per_loop))) = ["B"; "B"].
Proof. vm_compute. reflexivity. Qed.

(** X23 at a concrete input: a consumer that has decrypted the first message
    sealed for A decrypts the second with a nil key reader. *)
Lemma Decrypt_fast_path_needs_no_reader_witness :
  ∃ w', Decrypt (Toy.metadata_of Toy.sealedA2) (Toy.output_of Toy.sealedA2) None
          (final_world
             (Decrypt (Toy.metadata_of Toy.sealedA) (Toy.output_of Toy.sealedA)
                (Some Toy.reader) (Toy.fresh false))) = Done (Some Toy.yo, None) w'.
Proof.
  destruct (Decrypt_fast_path_needs_no_reader (Toy.metadata_of Toy.sealedA2)
              (Toy.output_of Toy.sealedA2) None
              (final_world
                 (Decrypt (Toy.metadata_of Toy.sealedA) (Toy.output_of Toy.sealedA)
                    (Some Toy.reader) (Toy.fresh false)))
              Toy.yo)
    as (w' & Hrun & _).
  - vm_compute. reflexivity.
  - vm_compute. reflexivity.
  - exists w'. exact Hrun.
Defined.

(** X24 at a concrete input: the panic of a new consumer with a nil key
    reader. *)
Lemma Decrypt_panics_only_witness :
  ((None : option KeyReader) = None ∧ nil_panic = nil_panic) ∨
  (length (bytes_of (GetEncryptionParam (Toy.metadata_of Toy.sealedAB))) ≠ gcmStandardNonceSize ∧
   nil_panic = nonce_panic).
Proof.
  apply (Decrypt_panics_only (Toy.metadata_of Toy.sealedAB) (Toy.output_of Toy.sealedAB) None
           (Toy.fresh false)
           (final_world
              (Decrypt (Toy.metadata_of Toy.sealedAB) (Toy.output_of Toy.sealedAB) None
                 (Toy.fresh false)))).
  vm_compute. reflexivity.
Defined.

(** X25 at a concrete input: the key that a new consumer has cached after
    decrypting the message sealed for A. *)
Lemma Decrypt_cache_sound_witness :
  loadingCache (engine (Toy.fresh false)) !! keyDigest (Value ToyMore.entryA) = Some Toy.key1 ∨
  ∃ kr e, Some Toy.reader = Some kr ∧ e ∈ GetEncryptionKeys (Toy.metadata_of Toy.sealedA) ∧
    unwrapKey kr e = Ok Toy.key1 ∧ keyDigest (Value e) = keyDigest (Value ToyMore.entryA).
Proof.
  apply (Decrypt_cache_sound (Toy.metadata_of Toy.sealedA) (Toy.output_of Toy.sealedA)
           (Some Toy.reader) (Toy.fresh false)
           (final_world
              (Decrypt (Toy.metadata_of Toy.sealedA) (Toy.output_of Toy.sealedA)
                 (Some Toy.reader) (Toy.fresh false)))).
  - reflexivity.
  - vm_compute. reflexivity.
Defined.

(** X26 at a concrete input: the message sealed for A and B. *)
Lemma Encrypt_output_or_error_witness :
  (is_Some (Toy.output_of Toy.sealedAB) → (None : option error) = None) ∧
  (Toy.output_of Toy.sealedAB = None ∧ (None : option error) = None ↔
   ["A"; "B"] = ([] : list string) ∧ Some Toy.hi = (None : slice)).
Proof.
  apply (Encrypt_output_or_error ["A"; "B"] (Some Toy.reader) Toy.emptyMetadata
           (Toy.metadata_of Toy.sealedAB) (Some Toy.hi) (Toy.output_of Toy.sealedAB) None
           (Toy.fresh true) (final_world Toy.sealedAB)).
  exact toy_sealedAB.
Defined.

(** X27 at a concrete input: the producer that has sealed for A seals for A
    again, with a nil key reader. *)
Lemma Encrypt_succeeds_witness :
  ∃ md' w',
    Encrypt ["A"] None Toy.emptyMetadata (Some Toy.yo) (final_world Toy.sealedA) =
      Done (md', (Some (gcm_Seal Toy.key1 (replicate 7 "2"%byte ++ replicate 5 "3"%byte) Toy.yo),
                  None)) w' ∧
    engine w' = engine (final_world Toy.sealedA).
Proof.
  destruct (Encrypt_succeeds ["A"] None Toy.emptyMetadata (Some Toy.yo)
              (final_world Toy.sealedA) Toy.key1
              (replicate 7 "2"%byte ++ replicate 5 "3"%byte)
              (replicate 27 "3"%byte ++ replicate 60 "4"%byte))
    as (md' & w' & Hrun & _ & _ & He).
  - discriminate.
  - discriminate.
  - reflexivity.
  - intros n Hn. apply list_elem_of_singleton in Hn. subst n.
    vm_compute. eexists. reflexivity.
  - vm_compute. reflexivity.
  - reflexivity.
  - vm_compute. reflexivity.
  - exists md', w'. split; [exact Hrun|exact He].
Defined.

(** X28 at a concrete input: a new producer is asked to seal for A into a
    nil message; it wraps its key for A, stores the wrapping, and panics. *)
Lemma Encrypt_panics_only_witness :
  Encrypt ["A"] (Some Toy.reader) None (Some Toy.hi) (Toy.fresh true) =
    Panic nil_panic
      (final_world (Encrypt ["A"] (Some Toy.reader) None (Some Toy.hi) (Toy.fresh true))) ∧
  is_Some
    (encryptedDataKeyMap
       (engine (final_world
                  (Encrypt ["A"] (Some Toy.reader) None (Some Toy.hi) (Toy.fresh true))))
     !! "A").
Proof.
  assert (Encrypt ["A"] (Some Toy.reader) None (Some Toy.hi) (Toy.fresh true) =
          Panic nil_panic
            (final_world (Encrypt ["A"] (Some Toy.reader) None (Some Toy.hi) (Toy.fresh true))))
    as Hrun.
  { vm_compute. reflexivity. }
  split; [exact Hrun|].
  destruct (Encrypt_panics_only ["A"] (Some Toy.reader) None (Some Toy.hi) (Toy.fresh true)
              _ _ Hrun) as (_ & _ & [[Hkeyed _]|[_ Hall]]).
  - discriminate Hkeyed.
  - apply Hall. apply elem_of_cons. by left.
Defined.

(** X29 at a concrete input: asked to seal for A and C into a nil message,
    the producer returns the key-not-found error for C. *)
Lemma Encrypt_nil_message_witness :
  match Encrypt ["A"; "C"] (Some Toy.reader) None (Some Toy.hi) (Toy.fresh true) with
  | Done (md', (out, err)) w' => md' = None ∧ out = None ∧ is_not_found err = true
  | Panic msg w' =>
      msg = nil_panic ∧
      ∀ n, n ∈ ["A"; "C"] → is_Some (encryptedDataKeyMap (engine w') !! n)
  end ∧
  ToyMore.error_of (Encrypt ["A"; "C"] (Some Toy.reader) None (Some Toy.hi) (Toy.fresh true)) =
    Some (errEncryptedDataKeyNotFound "ctx" "C").
Proof.
  split.
  - apply (Encrypt_nil_message ["A"; "C"] (Some Toy.reader) (Some Toy.hi) (Toy.fresh true)).
    discriminate.
  - vm_compute. reflexivity.
Defined.

(** X30 at a concrete input: a message with an entry without a key name. *)
Lemma Encrypt_nil_key_panics_witness :
  Encrypt ["A"] (Some Toy.reader) ToyMore.withNil (Some Toy.hi) (Toy.fresh true) =
    Panic nil_panic (Toy.fresh true).
Proof.
  apply (Encrypt_nil_key_panics ["A"] (Some Toy.reader) ToyMore.withNil (Some Toy.hi)
           (Toy.fresh true) ToyMore.entryNil).
  - discriminate.
  - apply elem_of_cons. by left.
  - reflexivity.
Defined.
